(** * A growable array over raw memory: [RawMemory<T>] and [Vector<T>]

    Shallow embedding of [advanced-vector/vector.h].

    - A [T*] is a [pointer]: the number of a block of the heap ([0] for
      [nullptr]) and an offset in slots.
    - The heap is the list of the blocks that [operator new] has handed
      out so far, in allocation order; a block is a list of slots, a slot
      either holds a live object ([Some v]) or is raw memory ([None]).
      [operator delete] turns a block into [None]; addresses are never
      handed out twice, so the length of the heap counts the allocations.
    - [Vector] objects live in a store, addressed by their index: [this]
      and [&rhs] are indices, so that [this != &rhs] and the aliasing of
      [Swap] are what they are in the source.
    - A member function is a state transformer with three outcomes: it
      returns ([Ok]), an exception leaves it ([Throw], with the state
      after unwinding) or it has undefined behaviour ([Undefined]): a read
      of a slot holding no object, an access outside a block, a double
      [operator delete], a failed [assert].
    - [size_t] is [nat]. The counts the program computes itself (a
      length plus one, twice a capacity) come from the slots of a live
      block. The one product the program forms from a number its caller
      chooses is [n * sizeof(T)] in [RawMemory::Allocate]; it is not
      wrapped here, and a statement that a block of a size the caller
      chooses is handed out ([Vector(n)], [Reserve(n)], [Resize(n)],
      [RawMemory(n)]) is made for an [n] that [fits]. *)

From stdpp Require Import base tactics numbers option list.

(** ** Pointers *)

Record pointer := Ptr { blk : nat; off : nat }.

Definition nullptr : pointer := Ptr 0 0.

Definition ptr_add (p : pointer) (n : nat) : pointer := Ptr (blk p) (off p + n).

(** [p - n]; stepping before the start of the block gives no usable
    pointer. *)
Definition ptr_sub (p : pointer) (n : nat) : pointer :=
  if n <=? off p then Ptr (blk p) (off p - n) else nullptr.

(** [p - q] as a [size_t], for two pointers into one block with [q] not
    after [p]. *)
Definition ptr_diff (p q : pointer) : option nat :=
  if (blk p =? blk q) && (off q <=? off p) then Some (off p - off q) else None.

Notation "p .+ n" := (ptr_add p n) (at level 50, left associativity).
Notation "p .- n" := (ptr_sub p n) (at level 50, left associativity).

Global Instance pointer_eq_dec : EqDecision pointer.
Proof. solve_decision. Defined.

(** ** The element type

    What the container needs to know of [T]: whether copying or moving a
    given value throws, what a move leaves behind in its source, what
    [T()] yields, the two traits the source consults at compile time, and
    [sizeof(T)]. *)

Class Element (T : Type) := {
  copy_throws : T -> bool;
  move_throws : T -> bool;
  moved : T -> T;
  value_init : option T;
  is_nothrow_move_constructible : bool;
  is_copy_constructible : bool;
  sizeof_T : N;
  nothrow_move_sound :
    is_nothrow_move_constructible = true -> forall x, move_throws x = false
}.

(** The largest [size_t], for a [size_t] of 64 bits. *)
Definition SIZE_MAX : N := (2 ^ 64 - 1)%N.

(** The byte count [n * sizeof(T)] that [RawMemory::Allocate] hands to
    [operator new] is the product of the two numbers: it does not exceed
    [SIZE_MAX], so the multiplication in [size_t] does not wrap. *)
Definition fits {T} `{Element T} (n : nat) : bool :=
  (N.of_nat n * sizeof_T <=? SIZE_MAX)%N.

(** The byte count [RawMemory::Allocate] computes for [n] elements, in
    [size_t], and the number of whole elements the block it asks for has
    room for. *)
Definition byte_count {T} `{Element T} (n : nat) : N :=
  ((N.of_nat n * sizeof_T) mod (SIZE_MAX + 1))%N.

Definition room_for {T} `{Element T} (n : nat) : N :=
  (byte_count n / sizeof_T)%N.

(** The compile-time condition of every [if constexpr] of the source. *)
Definition relocate_by_move {T} `{Element T} : bool :=
  is_nothrow_move_constructible || negb is_copy_constructible.

(** ** Objects *)

Record RawMemory := mkRawMemory { buffer_ : pointer; capacity_ : nat }.

Record Vector := mkVector { data_ : RawMemory; size_ : nat }.

Global Instance RawMemory_eq_dec : EqDecision RawMemory.
Proof. solve_decision. Defined.

Global Instance Vector_eq_dec : EqDecision Vector.
Proof. solve_decision. Defined.

(** ** States and outcomes *)

Section Monad.

Context {T : Type}.

Record State := mkState {
  heap : list (option (list (option T)));
  objs : list (option Vector)
}.

Inductive outcome (A : Type) : Type :=
| Ok (a : A) (s : State)
| Throw (s : State)
| Undefined.

Definition M (A : Type) : Type := State -> outcome A.

Definition ret {A} (a : A) : M A := fun s => Ok A a s.

Definition bind {A B} (m : M A) (f : A -> M B) : M B :=
  fun s => match m s with
           | Ok _ a s' => f a s'
           | Throw _ s' => Throw B s'
           | Undefined _ => Undefined B
           end.

Definition throw {A} : M A := fun s => Throw A s.

Definition undefined {A} : M A := fun _ => Undefined A.

(** [m] with a clean-up that runs when an exception leaves [m]; the
    exception then goes on.  The clean-ups of the source are destructors
    and do not throw. *)
Definition on_throw {A} (m : M A) (cleanup : M unit) : M A :=
  fun s => match m s with
           | Ok _ a s' => Ok A a s'
           | Throw _ s' => match cleanup s' with
                           | Ok _ _ s'' => Throw A s''
                           | _ => Undefined A
                           end
           | Undefined _ => Undefined A
           end.

Definition lift_option {A} (o : option A) : M A :=
  match o with Some a => ret a | None => undefined end.

Definition with_heap (st : State) (h : list (option (list (option T)))) : State :=
  mkState h (objs st).

Definition with_objs (st : State) (o : list (option Vector)) : State :=
  mkState (heap st) o.

End Monad.

Arguments State T : clear implicits.
Arguments outcome T A : clear implicits.
Arguments M T A : clear implicits.
Arguments Ok {T A} a s.
Arguments Throw {T A} s.
Arguments Undefined {T A}.
Arguments mkState {T} heap objs.

Notation "x <- m ; k" := (bind m (fun x => k))
  (at level 100, m at next level, right associativity,
   format "'[v' x  <-  m ; '/' k ']'").
Notation "m ;; k" := (bind m (fun _ => k))
  (at level 100, right associativity, format "'[v' m ;; '/' k ']'").

Section Model.

Context {T : Type} `{Element T}.

(** [new_ok k n]: whether the request for [n] slots succeeds when [k]
    blocks have been allocated before; otherwise [operator new] throws
    [std::bad_alloc]. *)
Variable new_ok : nat -> nat -> bool.

Local Abbreviation block := (list (option T)).

(** ** Raw memory *)

Definition block_at (h : list (option block)) (b : nat) : option block :=
  match b with
  | 0 => None
  | S i => match h !! i with Some (Some bl) => Some bl | _ => None end
  end.

Definition set_block (h : list (option block)) (b : nat) (bl : block)
  : list (option block) :=
  match b with
  | 0 => h
  | S i => <[i := Some bl]> h
  end.

(** The slots of the block [p] points into. *)
Definition block_of (p : pointer) : M T block :=
  fun st => match block_at (heap st) (blk p) with
            | Some bl => Ok bl st
            | None => Undefined
            end.

(** [*p], read: the slot holds an object. *)
Definition load (p : pointer) : M T T :=
  bl <- block_of p;
  match bl !! off p with
  | Some (Some v) => ret v
  | _ => undefined
  end.

(** [new (p) T(...)] once the constructor has produced [v]: the slot is in
    the block; what it held is overwritten without a destructor call. *)
Definition construct_at (p : pointer) (v : T) : M T unit :=
  bl <- block_of p;
  if off p <? length bl
  then fun st => Ok tt (with_heap st (set_block (heap st) (blk p) (<[off p := Some v]> bl)))
  else undefined.

(** [*p = v] after the assignment operator has done its work: the slot
    holds an object. *)
Definition store (p : pointer) (v : T) : M T unit :=
  _ <- load p;
  construct_at p v.

(** [std::destroy_at(p)]: the slot holds an object, and is raw memory
    afterwards. *)
Definition destroy_at (p : pointer) : M T unit :=
  _ <- load p;
  bl <- block_of p;
  fun st => Ok tt (with_heap st (set_block (heap st) (blk p) (<[off p := None]> bl))).

(** [RawMemory::Allocate]: [operator new(n * sizeof(T))] hands out a block
    of [n] slots, or throws. The product is taken in the integers: for an
    [n] that does not [fits], the source asks for the wrapped byte count
    and the block is shorter than [n] slots, which this definition does
    not show. *)
Definition Allocate (n : nat) : M T pointer :=
  if negb (n =? 0)
  then fun st =>
         if new_ok (length (heap st)) n
         then Ok (Ptr (S (length (heap st))) 0)
                 (with_heap st (heap st ++ [Some (replicate n None)]))
         else Throw st
  else ret nullptr.

(** [RawMemory::Deallocate]: [operator delete] of [nullptr] does nothing;
    otherwise [buf] is the start of a block that has not been released. *)
Definition Deallocate (buf : pointer) : M T unit :=
  if decide (buf = nullptr) then ret tt
  else
    _ <- block_of buf;
    if off buf =? 0
    then fun st => Ok tt (with_heap st (<[pred (blk buf) := None]> (heap st)))
    else undefined.

(** ** [RawMemory<T>] *)

Definition RawMemory_default : RawMemory := mkRawMemory nullptr 0.

(** [explicit RawMemory(size_t capacity)]. *)
Definition RawMemory_ctor (capacity : nat) : M T RawMemory :=
  buffer <- Allocate capacity;
  ret (mkRawMemory buffer capacity).

(** [RawMemory(RawMemory&& other)]: the new object and [other] afterwards.
    [std::move] of a [size_t] or of a [T*] is a cast, and initialising
    from it copies the scalar: [other] keeps both members. *)
Definition RawMemory_move_ctor (other : RawMemory) : RawMemory * RawMemory :=
  let capacity := capacity_ other in
  let buffer := buffer_ other in
  (mkRawMemory buffer capacity, other).

(** [this->Swap(other)]: [this] and [other] afterwards. *)
Definition RawMemory_Swap (this other : RawMemory) : RawMemory * RawMemory :=
  (mkRawMemory (buffer_ other) (capacity_ other),
   mkRawMemory (buffer_ this) (capacity_ this)).

(** [*this = std::move(rhs)]. *)
Definition RawMemory_move_assign (this rhs : RawMemory) : RawMemory * RawMemory :=
  RawMemory_Swap this rhs.

Definition RawMemory_dtor (r : RawMemory) : M T unit := Deallocate (buffer_ r).

(** [operator+], with its [assert(offset <= capacity_)]. *)
Definition RawMemory_plus (r : RawMemory) (offset : nat) : M T pointer :=
  if offset <=? capacity_ r then ret (buffer_ r .+ offset) else undefined.

(** [operator[]], with its [assert(index < capacity_)]: the address of the
    slot. *)
Definition RawMemory_index (r : RawMemory) (index : nat) : M T pointer :=
  if index <? capacity_ r then ret (buffer_ r .+ index) else undefined.

Definition GetAddress (r : RawMemory) : pointer := buffer_ r.

Definition RawMemory_Capacity (r : RawMemory) : nat := capacity_ r.

(** ** Construction and assignment of one element *)

(** An argument of type [const T&] or [T&&]: an object outside the heap
    with value [x], or the object in a slot. *)
Inductive arg : Type :=
| Val (x : T)
| Ref (p : pointer).

Definition read_arg (a : arg) : M T T :=
  match a with
  | Val x => ret x
  | Ref p => load p
  end.

(** [new (p) T(a)] with [a] a [const T&]. *)
Definition copy_construct_at (p : pointer) (a : arg) : M T unit :=
  x <- read_arg a;
  if copy_throws x then throw else construct_at p x.

(** [new (p) T(std::move(a))]. *)
Definition move_construct_at (p : pointer) (a : arg) : M T unit :=
  x <- read_arg a;
  if move_throws x then throw
  else
    construct_at p x;;
    match a with
    | Val _ => ret tt
    | Ref q => store q (moved x)
    end.

(** [*dst = *src]; when the assignment throws, [*dst] keeps its value. *)
Definition copy_assign_at (dst src : pointer) : M T unit :=
  x <- load src;
  _ <- load dst;
  if copy_throws x then throw else store dst x.

(** [dst] is move-assigned from [src]: the value goes over, [src] keeps
    what a move leaves behind. *)
Definition move_assign_at (dst src : pointer) : M T unit :=
  x <- load src;
  _ <- load dst;
  if move_throws x then throw
  else
    store dst x;;
    store src (moved x).

(** The arguments [args...] of [Emplace] and [EmplaceBack]: one [const T&],
    one [T&&], or anything else, of which only the outcome of [T(args...)]
    matters ([None] when the constructor throws). *)
Inductive ctor_args : Type :=
| CopyArg (a : arg)
| MoveArg (a : arg)
| BuildArg (r : option T).

(** [new (p) T(std::forward<Args>(args)...)]. *)
Definition emplace_at (p : pointer) (args : ctor_args) : M T unit :=
  match args with
  | CopyArg a => copy_construct_at p a
  | MoveArg a => move_construct_at p a
  | BuildArg (Some v) => construct_at p v
  | BuildArg None => throw
  end.

(** ** The algorithms of [<memory>] and [<algorithm>] *)

Fixpoint destroy_n (first : pointer) (n : nat) : M T unit :=
  match n with
  | 0 => ret tt
  | S n' => destroy_at first;; destroy_n (first .+ 1) n'
  end.

(** The loops of the [uninitialized_*] algorithms; [k] objects have been
    constructed from [d_first] on, and are destroyed when the next
    construction throws. *)
Fixpoint uninitialized_value_construct_loop
    (d_first : pointer) (k n : nat) : M T unit :=
  match n with
  | 0 => ret tt
  | S n' =>
      on_throw (emplace_at (d_first .+ k) (BuildArg value_init))
               (destroy_n d_first k);;
      uninitialized_value_construct_loop d_first (S k) n'
  end.

Definition uninitialized_value_construct_n (first : pointer) (n : nat) : M T unit :=
  uninitialized_value_construct_loop first 0 n.

Fixpoint uninitialized_copy_loop
    (first : pointer) (n : nat) (d_first : pointer) (k : nat) : M T unit :=
  match n with
  | 0 => ret tt
  | S n' =>
      on_throw (copy_construct_at (d_first .+ k) (Ref first))
               (destroy_n d_first k);;
      uninitialized_copy_loop (first .+ 1) n' d_first (S k)
  end.

Definition uninitialized_copy_n (first : pointer) (n : nat) (d_first : pointer)
  : M T unit :=
  uninitialized_copy_loop first n d_first 0.

Fixpoint uninitialized_move_loop
    (first : pointer) (n : nat) (d_first : pointer) (k : nat) : M T unit :=
  match n with
  | 0 => ret tt
  | S n' =>
      on_throw (move_construct_at (d_first .+ k) (Ref first))
               (destroy_n d_first k);;
      uninitialized_move_loop (first .+ 1) n' d_first (S k)
  end.

Definition uninitialized_move_n (first : pointer) (n : nat) (d_first : pointer)
  : M T unit :=
  uninitialized_move_loop first n d_first 0.

Fixpoint copy_n (first : pointer) (n : nat) (d_first : pointer) : M T unit :=
  match n with
  | 0 => ret tt
  | S n' => copy_assign_at d_first first;; copy_n (first .+ 1) n' (d_first .+ 1)
  end.

(** [std::copy(first, last, d_first)]: [[first, last)] is a range. *)
Definition copy (first last d_first : pointer) : M T unit :=
  n <- lift_option (ptr_diff last first);
  copy_n first n d_first.

Fixpoint move_n (first : pointer) (n : nat) (d_first : pointer) : M T unit :=
  match n with
  | 0 => ret tt
  | S n' => move_assign_at d_first first;; move_n (first .+ 1) n' (d_first .+ 1)
  end.

(** [std::move(first, last, d_first)]. *)
Definition move (first last d_first : pointer) : M T unit :=
  n <- lift_option (ptr_diff last first);
  move_n first n d_first.

Fixpoint move_backward_n (n : nat) (last d_last : pointer) : M T unit :=
  match n with
  | 0 => ret tt
  | S n' =>
      move_assign_at (d_last .- 1) (last .- 1);;
      move_backward_n n' (last .- 1) (d_last .- 1)
  end.

(** [std::move_backward(first, last, d_last)]: from the last element of
    the range to the first, each is move-assigned to the slot before the
    previous destination, the first destination being [d_last - 1]. *)
Definition move_backward (first last d_last : pointer) : M T unit :=
  n <- lift_option (ptr_diff last first);
  move_backward_n n last d_last.

(** ** The store of [Vector] objects *)

Definition get_vec (this : nat) : M T Vector :=
  fun st => match objs st !! this with
            | Some (Some v) => Ok v st
            | _ => Undefined
            end.

Definition set_vec (this : nat) (v : Vector) : M T unit :=
  _ <- get_vec this;
  fun st => Ok tt (with_objs st (<[this := Some v]> (objs st))).

Definition set_data (this : nat) (d : RawMemory) : M T unit :=
  v <- get_vec this;
  set_vec this (mkVector d (size_ v)).

Definition set_size (this : nat) (n : nat) : M T unit :=
  v <- get_vec this;
  set_vec this (mkVector (data_ v) n).

(** The lifetime of a new object begins: its index. *)
Definition new_obj (v : Vector) : M T nat :=
  fun st => Ok (length (objs st)) (with_objs st (objs st ++ [Some v])).

(** The lifetime of an object ends. *)
Definition delete_obj (this : nat) : M T unit :=
  _ <- get_vec this;
  fun st => Ok tt (with_objs st (<[this := None]> (objs st))).

(** ** [Vector<T>] *)

(** The [if constexpr] block that [Reserve], [PushBack], [EmplaceBack] and
    [Emplace] repeat: move the elements when that cannot fail or when [T]
    cannot be copied, copy them otherwise. *)
Definition relocate_n (first : pointer) (n : nat) (d_first : pointer) : M T unit :=
  if relocate_by_move
  then uninitialized_move_n first n d_first
  else uninitialized_copy_n first n d_first.

(** [Vector() = default]. *)
Definition Vector_default : M T nat :=
  new_obj (mkVector RawMemory_default 0).

(** [explicit Vector(size_t size)]; when the body throws, the member
    [data_] is destroyed. *)
Definition Vector_sized (size : nat) : M T nat :=
  data <- RawMemory_ctor size;
  on_throw (uninitialized_value_construct_n (GetAddress data) size)
           (RawMemory_dtor data);;
  new_obj (mkVector data size).

(** [Vector(const Vector& other)]. *)
Definition Vector_copy_ctor (other : nat) : M T nat :=
  o <- get_vec other;
  data <- RawMemory_ctor (size_ o);
  on_throw (uninitialized_copy_n (GetAddress (data_ o)) (size_ o) (GetAddress data))
           (RawMemory_dtor data);;
  new_obj (mkVector data (size_ o)).

(** [Swap(Vector& other)]. *)
Definition Vector_Swap (this other : nat) : M T unit :=
  t <- get_vec this;
  o <- get_vec other;
  let '(od, td) := RawMemory_Swap (data_ o) (data_ t) in
  set_data other od;;
  set_data this td;;
  t <- get_vec this;
  o <- get_vec other;
  set_size this (size_ o);;
  set_size other (size_ t).

(** [Vector(Vector&& other)]. *)
Definition Vector_move_ctor (other : nat) : M T nat :=
  this <- Vector_default;
  Vector_Swap this other;;
  ret this.

(** [~Vector()], then the destructor of the member [data_]. *)
Definition Vector_dtor (this : nat) : M T unit :=
  t <- get_vec this;
  destroy_n (GetAddress (data_ t)) (size_ t);;
  RawMemory_dtor (data_ t);;
  delete_obj this.

(** [operator=(const Vector& rhs)]. *)
Definition Vector_copy_assign (this rhs : nat) : M T unit :=
  if decide (this <> rhs) then
    t <- get_vec this;
    r <- get_vec rhs;
    if RawMemory_Capacity (data_ t) <? size_ r then
      rhs_copy <- Vector_copy_ctor rhs;
      Vector_Swap this rhs_copy;;
      Vector_dtor rhs_copy
    else if size_ r <? size_ t then
      copy (GetAddress (data_ r)) (GetAddress (data_ r) .+ size_ r)
           (GetAddress (data_ t));;
      let dif_size := size_ t - size_ r in
      destroy_n (GetAddress (data_ t) .+ size_ r) dif_size;;
      set_size this (size_ r)
    else if size_ t <=? size_ r then
      let dif_size := size_ r - size_ t in
      (if dif_size =? 0
       then copy (GetAddress (data_ r)) (GetAddress (data_ r) .+ size_ r)
                 (GetAddress (data_ t))
       else ret tt);;
      (if 0 <? dif_size
       then
         copy_n (GetAddress (data_ r)) (size_ t) (GetAddress (data_ t));;
         uninitialized_copy_n (GetAddress (data_ r) .+ size_ t) dif_size
                              (GetAddress (data_ t) .+ size_ t);;
         set_size this (size_ r)
       else ret tt)
    else ret tt
  else ret tt.

(** [operator=(Vector&& rhs)]. *)
Definition Vector_move_assign (this rhs : nat) : M T unit :=
  Vector_Swap this rhs.

(** The end of a reallocating branch: [data_.Swap(new_data)], then the
    destructor of the local [new_data]. *)
Definition adopt (this : nat) (new_data : RawMemory) : M T unit :=
  t <- get_vec this;
  let '(d, nd) := RawMemory_Swap (data_ t) new_data in
  set_data this d;;
  RawMemory_dtor nd.

(** [Reserve(size_t new_capacity)]. *)
Definition Vector_Reserve (this : nat) (new_capacity : nat) : M T unit :=
  t <- get_vec this;
  if new_capacity <=? RawMemory_Capacity (data_ t) then ret tt
  else
    new_data <- RawMemory_ctor new_capacity;
    on_throw
      (relocate_n (GetAddress (data_ t)) (size_ t) (GetAddress new_data);;
       destroy_n (GetAddress (data_ t)) (size_ t))
      (RawMemory_dtor new_data);;
    adopt this new_data.

(** [Resize(size_t new_size)]. *)
Definition Vector_Resize (this : nat) (new_size : nat) : M T unit :=
  t <- get_vec this;
  if new_size <? size_ t then
    destroy_n (GetAddress (data_ t) .+ new_size) (size_ t - new_size);;
    set_size this new_size
  else
    Vector_Reserve this new_size;;
    t <- get_vec this;
    uninitialized_value_construct_n (GetAddress (data_ t) .+ size_ t)
                                    (new_size - size_ t);;
    set_size this new_size.

(** [++size_]. *)
Definition incr_size (this : nat) : M T unit :=
  t <- get_vec this;
  set_size this (size_ t + 1).

(** The capacity of the block of an implicit reallocation. *)
Definition grown (size : nat) : nat := if size =? 0 then 1 else size * 2.

(** [EmplaceBack(Args&&... args)]: the address of the new element. *)
Definition Vector_EmplaceBack (this : nat) (args : ctor_args) : M T pointer :=
  t <- get_vec this;
  result <-
    (if size_ t =? RawMemory_Capacity (data_ t) then
       new_data <- RawMemory_ctor (grown (size_ t));
       result <-
         on_throw
           (p <- RawMemory_plus new_data (size_ t);
            emplace_at p args;;
            relocate_n (GetAddress (data_ t)) (size_ t) (GetAddress new_data);;
            destroy_n (GetAddress (data_ t)) (size_ t);;
            ret p)
           (RawMemory_dtor new_data);
       adopt this new_data;;
       ret result
     else
       p <- RawMemory_plus (data_ t) (size_ t);
       emplace_at p args;;
       ret p);
  incr_size this;;
  ret result.

(** [PushBack(const T& value)]: [std::uninitialized_copy_n(&value, 1, p)]
    is the one construction [new (p) T(value)]. *)
Definition Vector_PushBack (this : nat) (value : arg) : M T unit :=
  t <- get_vec this;
  (if size_ t =? RawMemory_Capacity (data_ t) then
     new_data <- RawMemory_ctor (grown (size_ t));
     on_throw
       (copy_construct_at (GetAddress new_data .+ size_ t) value;;
        relocate_n (GetAddress (data_ t)) (size_ t) (GetAddress new_data);;
        destroy_n (GetAddress (data_ t)) (size_ t))
       (RawMemory_dtor new_data);;
     adopt this new_data
   else
     p <- RawMemory_plus (data_ t) (size_ t);
     copy_construct_at p value);;
  incr_size this.

(** [PushBack(T&& value)]. *)
Definition Vector_PushBack_move (this : nat) (value : arg) : M T unit :=
  t <- get_vec this;
  (if size_ t =? RawMemory_Capacity (data_ t) then
     new_data <- RawMemory_ctor (grown (size_ t));
     on_throw
       (move_construct_at (GetAddress new_data .+ size_ t) value;;
        relocate_n (GetAddress (data_ t)) (size_ t) (GetAddress new_data);;
        destroy_n (GetAddress (data_ t)) (size_ t))
       (RawMemory_dtor new_data);;
     adopt this new_data
   else
     p <- RawMemory_plus (data_ t) (size_ t);
     move_construct_at p value);;
  incr_size this.

(** [PopBack()]. *)
Definition Vector_PopBack (this : nat) : M T unit :=
  t <- get_vec this;
  if 0 <? size_ t then
    destroy_at (GetAddress (data_ t) .+ size_ t .- 1);;
    set_size this (size_ t - 1)
  else ret tt.

Definition Vector_begin (this : nat) : M T pointer :=
  t <- get_vec this;
  ret (GetAddress (data_ t)).

Definition Vector_end (this : nat) : M T pointer :=
  t <- get_vec this;
  ret (GetAddress (data_ t) .+ size_ t).

(** [Emplace(const_iterator pos, Args&&... args)]. *)
Definition Vector_Emplace (this : nat) (pos : pointer) (args : ctor_args)
  : M T pointer :=
  t <- get_vec this;
  b <- Vector_begin this;
  shift <- lift_option (ptr_diff pos b);
  result <-
    (if size_ t =? RawMemory_Capacity (data_ t) then
       new_data <- RawMemory_ctor (grown (size_ t));
       result <-
         on_throw
           (p <- RawMemory_plus new_data shift;
            emplace_at p args;;
            relocate_n (GetAddress (data_ t)) shift (GetAddress new_data);;
            relocate_n (GetAddress (data_ t) .+ shift) (size_ t - shift)
                       (GetAddress new_data .+ shift .+ 1);;
            destroy_n b (size_ t);;
            ret p)
           (RawMemory_dtor new_data);
       adopt this new_data;;
       ret result
     else
       (if negb (size_ t =? 0) then
          p <- RawMemory_plus (data_ t) (size_ t);
          move_construct_at p (Ref (GetAddress (data_ t) .+ size_ t .- 1));;
          move_backward (b .+ shift)
                        (GetAddress (data_ t) .+ size_ t)
                        (GetAddress (data_ t) .+ size_ t .+ 1);;
          destroy_at (b .+ shift)
        else ret tt);;
       p <- RawMemory_plus (data_ t) shift;
       emplace_at p args;;
       ret p);
  incr_size this;;
  ret result.

(** [Erase(const_iterator pos)]. *)
Definition Vector_Erase (this : nat) (pos : pointer) : M T pointer :=
  b <- Vector_begin this;
  shift <- lift_option (ptr_diff pos b);
  e <- Vector_end this;
  move (b .+ shift .+ 1) e (b .+ shift);;
  Vector_PopBack this;;
  b <- Vector_begin this;
  ret (b .+ shift).

(** [Insert(const_iterator pos, const T& value)]. *)
Definition Vector_Insert (this : nat) (pos : pointer) (value : arg) : M T pointer :=
  Vector_Emplace this pos (CopyArg value).

(** [Insert(const_iterator pos, T&& value)]. *)
Definition Vector_Insert_move (this : nat) (pos : pointer) (value : arg)
  : M T pointer :=
  Vector_Emplace this pos (MoveArg value).

Definition Vector_Size (this : nat) : M T nat :=
  t <- get_vec this;
  ret (size_ t).

Definition Vector_Capacity (this : nat) : M T nat :=
  t <- get_vec this;
  ret (RawMemory_Capacity (data_ t)).

(** [operator[]], with its [assert(index < size_)]: the address of the
    element. *)
Definition Vector_index (this : nat) (index : nat) : M T pointer :=
  t <- get_vec this;
  if index <? size_ t then RawMemory_index (data_ t) index else undefined.

End Model.


(** ** The invariant and the view of a vector *)

Section View.

Context {T : Type}.

Definition live (s : option T) : bool :=
  match s with Some _ => true | None => false end.

Definition raw (s : option T) : bool := negb (live s).

(** The slots [r] owns: none for the null state, else the whole block
    [buffer_] is the start of, [capacity_] slots long. *)
Definition backing (h : list (option (list (option T)))) (r : RawMemory)
  : option (list (option T)) :=
  if decide (buffer_ r = nullptr)
  then (if capacity_ r =? 0 then Some [] else None)
  else if (off (buffer_ r) =? 0) && negb (capacity_ r =? 0)
  then match block_at h (blk (buffer_ r)) with
       | Some bl => if length bl =? capacity_ r then Some bl else None
       | None => None
       end
  else None.

(** The first [n] slots hold objects, the others are raw memory. *)
Definition partitioned (bl : list (option T)) (n : nat) : bool :=
  forallb live (take n bl) && forallb raw (drop n bl).

(** The invariant of one vector: [0 <= size_ <= capacity_], and exactly
    the slots [[0, size_)] of its block hold live elements. *)
Definition valid (st : State T) (v : Vector) : bool :=
  (size_ v <=? capacity_ (data_ v)) &&
  match backing (heap st) (data_ v) with
  | Some bl => partitioned bl (size_ v)
  | None => false
  end.

(** The elements of a vector, from index [0] to [size_ - 1]. *)
Definition elements (st : State T) (v : Vector) : list T :=
  match backing (heap st) (data_ v) with
  | Some bl => omap id (take (size_ v) bl)
  | None => []
  end.

(** The object at index [this] of the store, while its lifetime lasts. *)
Definition obj (st : State T) (this : nat) : option Vector :=
  match objs st !! this with
  | Some (Some v) => Some v
  | _ => None
  end.

(** No block has two owners among the vectors of the store. *)
Definition owns_none (b : nat) (o : list (option Vector)) : bool :=
  forallb (fun ov => match ov with
                     | Some w => negb (blk (buffer_ (data_ w)) =? b)
                     | None => true
                     end) o.

Fixpoint distinct_blocks (o : list (option Vector)) : bool :=
  match o with
  | [] => true
  | None :: o' => distinct_blocks o'
  | Some v :: o' =>
      ((blk (buffer_ (data_ v)) =? 0) || owns_none (blk (buffer_ (data_ v))) o')
      && distinct_blocks o'
  end.

(** The invariant of a state: every vector is valid and no block has two
    owners. *)
Definition wf (st : State T) : bool :=
  forallb (fun ov => match ov with Some v => valid st v | None => true end)
          (objs st)
  && distinct_blocks (objs st).

(** The block of a vector of capacity [cap] that holds [xs]. *)
Definition layout (xs : list T) (cap : nat) : list (option T) :=
  (Some <$> xs) ++ replicate (cap - length xs) None.

(** [v] is valid in [h] and holds [xs]. *)
Definition holds (h : list (option (list (option T)))) (v : Vector) (xs : list T)
  : Prop :=
  size_ v = length xs /\ length xs <= capacity_ (data_ v) /\
  backing h (data_ v) = Some (layout xs (capacity_ (data_ v))).

(** The heap after [operator delete] of the block of [r]. *)
Definition release (r : RawMemory) (h : list (option (list (option T))))
  : list (option (list (option T))) :=
  if decide (buffer_ r = nullptr) then h else <[pred (blk (buffer_ r)) := None]> h.

(** What a caller observes of the vector at index [this]. *)
Definition Size (st : State T) (this : nat) : option nat :=
  size_ <$> obj st this.

Definition Capacity (st : State T) (this : nat) : option nat :=
  (fun v => capacity_ (data_ v)) <$> obj st this.

Definition contents (st : State T) (this : nat) : option (list T) :=
  elements st <$> obj st this.

(** The vector at [this] is valid, has capacity [c] and holds [xs]. *)
Definition is_vector (st : State T) (this : nat) (c : nat) (xs : list T) : Prop :=
  exists t, obj st this = Some t /\ valid st t = true /\
            capacity_ (data_ t) = c /\ size_ t = length xs /\
            elements st t = xs.

(** [r] is the null state or owns a block of [h]. *)
Definition releasable (h : list (option (list (option T)))) (r : RawMemory)
  : Prop :=
  buffer_ r = nullptr \/
  exists b bl, buffer_ r = Ptr (S b) 0 /\ block_at h (S b) = Some bl.

End View.

(** ** Element values that copy or move without an exception *)

Definition no_copy_throw {T} `{Element T} (xs : list T) : Prop :=
  Forall (fun x => copy_throws x = false) xs.

Definition no_move_throw {T} `{Element T} (xs : list T) : Prop :=
  Forall (fun x => move_throws x = false) xs.

(** What a run of move assignments leaves in the slot it vacates: towards
    the front ([std::move]) the residue of the last element moved, towards
    the back ([std::move_backward]) the residue of the first; the old
    value [z] when nothing moves. *)
Definition residue_of_last {T} `{Element T} (z : T) (xs : list T) : T :=
  match last xs with Some x => moved x | None => z end.

Definition residue_of_first {T} `{Element T} (z : T) (xs : list T) : T :=
  match xs with x :: _ => moved x | [] => z end.

(** What relocation leaves in the old block before it is destroyed. *)
Definition relocated {T} `{Element T} (xs : list T) : list T :=
  if relocate_by_move then moved <$> xs else xs.

(** The elements can all be relocated without an exception. *)
Definition no_relocate_throw {T} `{Element T} (xs : list T) : Prop :=
  if relocate_by_move then no_move_throw xs else no_copy_throw xs.

(** [x] is the first element whose relocation throws, after [xs1]. *)
Definition relocate_throws_at {T} `{Element T} (xs1 : list T) (x : T) : Prop :=
  if relocate_by_move
  then no_move_throw xs1 /\ move_throws x = true
  else no_copy_throw xs1 /\ copy_throws x = true.

(** Arguments that are no objects of the heap, and the value the
    constructor builds from them ([None] when it throws). *)
Definition external {T} (args : @ctor_args T) : bool :=
  match args with
  | CopyArg (Val _) | MoveArg (Val _) | BuildArg _ => true
  | _ => false
  end.

Definition built {T} `{Element T} (args : @ctor_args T) : option T :=
  match args with
  | CopyArg (Val x) => if copy_throws x then None else Some x
  | MoveArg (Val x) => if move_throws x then None else Some x
  | BuildArg r => r
  | _ => None
  end.

(** ** Element types and states of the examples *)

(** [int]: copies and moves are the same and never throw. *)
Definition int_element : Element Z :=
  {| copy_throws := fun _ => false;
     move_throws := fun _ => false;
     moved := fun x => x;
     value_init := Some 0%Z;
     is_nothrow_move_constructible := true;
     is_copy_constructible := true;
     sizeof_T := 4;
     nothrow_move_sound := fun _ _ => eq_refl |}.

(** [std::unique_ptr<int>], by the value it points to: it cannot be
    copied, and a move leaves the null pointer behind. *)
Definition unique_ptr : Type := option Z.

Definition unique_ptr_element : Element unique_ptr :=
  {| copy_throws := fun _ => false;
     move_throws := fun _ => false;
     moved := fun _ => None;
     value_init := Some None;
     is_nothrow_move_constructible := true;
     is_copy_constructible := false;
     sizeof_T := 8;
     nothrow_move_sound := fun _ _ => eq_refl |}.

(** An [int] wrapper whose copy constructor and copy assignment throw on
    the value [13], and whose moves are not declared [noexcept]. *)
Definition fragile_element : Element Z :=
  {| copy_throws := fun x => (x =? 13)%Z;
     move_throws := fun _ => false;
     moved := fun x => x;
     value_init := Some 0%Z;
     is_nothrow_move_constructible := false;
     is_copy_constructible := true;
     sizeof_T := 4;
     nothrow_move_sound := fun _ _ => eq_refl |}.

(** [operator new] never fails. *)
Definition plenty : nat -> nat -> bool := fun _ _ => true.

(** One vector: [elems] in a block of [cap] slots (block 1, object 0). *)
Definition one_vector {T} (elems : list T) (cap : nat) : State T :=
  mkState [Some (layout elems cap)]
          [Some (mkVector (mkRawMemory (Ptr 1 0) cap) (length elems))].

(** Two vectors: [a] in block 1 (object 0), [b] in block 2 (object 1),
    both full. *)
Definition two_vectors {T} (a b : list T) : State T :=
  mkState [Some (layout a (length a)); Some (layout b (length b))]
          [Some (mkVector (mkRawMemory (Ptr 1 0) (length a)) (length a));
           Some (mkVector (mkRawMemory (Ptr 2 0) (length b)) (length b))].

(** The [k] elements that value-initialization appends. *)
Definition value_fill {T} `{Element T} (k : nat) : list T :=
  match value_init with
  | Some v => replicate k v
  | None => []
  end.

(** The elements once the last of them has been moved from. *)
Definition moved_last {T} `{Element T} (xs : list T) : list T :=
  match last xs with
  | Some z => take (length xs - 1) xs ++ [moved z]
  | None => xs
  end.

(** ** The public operations *)

(** The mutating members of [Vector], with the objects they work on given
    by their index in the store and positions by their index in the
    vector. *)
Inductive operation {T : Type} : Type :=
  | OpDefault
  | OpSized (n : nat)
  | OpCopy (other : nat)
  | OpMove (other : nat)
  | OpCopyAssign (this rhs : nat)
  | OpMoveAssign (this rhs : nat)
  | OpReserve (this n : nat)
  | OpResize (this n : nat)
  | OpPushBack (this : nat) (value : @arg T)
  | OpPushBackMove (this : nat) (value : @arg T)
  | OpEmplaceBack (this : nat) (args : @ctor_args T)
  | OpEmplace (this k : nat) (args : @ctor_args T)
  | OpInsert (this k : nat) (value : @arg T)
  | OpInsertMove (this k : nat) (value : @arg T)
  | OpErase (this k : nat)
  | OpPopBack (this : nat)
  | OpSwap (this other : nat).

Arguments operation T : clear implicits.

(** [f(begin() + k)]. *)
Definition at_index {T} (this k : nat) (f : pointer -> M T pointer) : M T unit :=
  b <- Vector_begin this;
  f (b .+ k);;
  ret tt.

Definition run {T} `{Element T} (new_ok : nat -> nat -> bool)
    (op : operation T) : M T unit :=
  match op with
  | OpDefault => Vector_default;; ret tt
  | OpSized n => Vector_sized new_ok n;; ret tt
  | OpCopy other => Vector_copy_ctor new_ok other;; ret tt
  | OpMove other => Vector_move_ctor other;; ret tt
  | OpCopyAssign this rhs => Vector_copy_assign new_ok this rhs
  | OpMoveAssign this rhs => Vector_move_assign this rhs
  | OpReserve this n => Vector_Reserve new_ok this n
  | OpResize this n => Vector_Resize new_ok this n
  | OpPushBack this value => Vector_PushBack new_ok this value
  | OpPushBackMove this value => Vector_PushBack_move new_ok this value
  | OpEmplaceBack this args => Vector_EmplaceBack new_ok this args;; ret tt
  | OpEmplace this k args =>
      at_index this k (fun pos => Vector_Emplace new_ok this pos args)
  | OpInsert this k value =>
      at_index this k (fun pos => Vector_Insert new_ok this pos value)
  | OpInsertMove this k value =>
      at_index this k (fun pos => Vector_Insert_move new_ok this pos value)
  | OpErase this k => at_index this k (Vector_Erase this)
  | OpPopBack this => Vector_PopBack this
  | OpSwap this other => Vector_Swap this other
  end.

Definition alive {T} (st : State T) (this : nat) : bool :=
  match obj st this with Some _ => true | None => false end.

Definition size_at {T} (st : State T) (this : nat) : nat :=
  match obj st this with Some t => size_ t | None => 0 end.

Definition capacity_at {T} (st : State T) (this : nat) : nat :=
  match obj st this with Some t => capacity_ (data_ t) | None => 0 end.

(** What the caller owes: the objects are within their lifetime, and a
    position is one of the vector ([end()] included, but not for
    [Erase]). *)
Definition pre {T} (op : operation T) (st : State T) : bool :=
  match op with
  | OpDefault | OpSized _ => true
  | OpCopy other | OpMove other => alive st other
  | OpCopyAssign this rhs | OpMoveAssign this rhs | OpSwap this rhs =>
      alive st this && alive st rhs
  | OpReserve this _ | OpResize this _ | OpPushBack this _
  | OpPushBackMove this _ | OpPopBack this => alive st this
  | OpEmplaceBack this _ => alive st this
  | OpEmplace this k _ | OpInsert this k _ | OpInsertMove this k _ =>
      alive st this && (k <=? size_at st this)
  | OpErase this k => alive st this && (k <? size_at st this)
  end.

(** The element handed to the operation is no object of the heap: it is
    not an element of a vector, of this one or of another. *)
Definition by_value {T} (op : operation T) : bool :=
  match op with
  | OpPushBack _ value | OpPushBackMove _ value
  | OpInsert _ _ value | OpInsertMove _ _ value => external (CopyArg value)
  | OpEmplaceBack _ args | OpEmplace _ _ args => external args
  | _ => true
  end.

(** The number of elements the caller asks room for is within the
    capacity, or [fits]. *)
Definition sizes_fit {T} `{Element T} (op : operation T) (st : State T) : bool :=
  match op with
  | OpSized n => fits n
  | OpReserve this n | OpResize this n => (n <=? capacity_at st this) || fits n
  | _ => true
  end.





(** The vectors of [st'] are those of [st], with the same lengths,
    capacities and elements. *)
Definition unchanged {T} (st st' : State T) : Prop :=
  objs st' = objs st /\ forall i, contents st' i = contents st i.


(** ** Blocks and their owners *)

Definition count_if {A} (f : A -> bool) (l : list A) : nat :=
  length (List.filter f l).

Definition allocated {T} (b : option (list (option T))) : bool :=
  match b with Some _ => true | None => false end.

(** The blocks that [operator new] has handed out and [operator delete]
    has not taken back. *)
Definition live_blocks {T} (h : list (option (list (option T)))) : nat :=
  count_if allocated h.

Definition owns_block (ov : option Vector) : bool :=
  match ov with
  | Some v => negb (blk (buffer_ (data_ v)) =? 0)
  | None => false
  end.

(** The vectors within their lifetime whose [data_] is not null. *)
Definition owned_blocks (o : list (option Vector)) : nat :=
  count_if owns_block o.

(** Every block that has not been released is the block of a vector: with
    [wf], of exactly one. *)
Definition no_leak {T} (st : State T) : Prop :=
  live_blocks (heap st) = owned_blocks (objs st).

(** The objects an operation writes to. *)
Definition written {T} (op : operation T) : list nat :=
  match op with
  | OpDefault | OpSized _ | OpCopy _ => []
  | OpMove other => [other]
  | OpCopyAssign this _ => [this]
  | OpMoveAssign this rhs | OpSwap this rhs => [this; rhs]
  | OpReserve this _ | OpResize this _ | OpPushBack this _
  | OpPushBackMove this _ | OpEmplaceBack this _ | OpEmplace this _ _
  | OpInsert this _ _ | OpInsertMove this _ _ | OpErase this _
  | OpPopBack this => [this]
  end.

(** The vectors of [st] other than those at [ws] are in [st'] the same
    objects, with the same elements. *)
Definition kept {T} (ws : list nat) (st st' : State T) : Prop :=
  forall j v, j ∉ ws -> obj st j = Some v ->
              obj st' j = Some v /\ elements st' v = elements st v.

(** From [st] to [st'] no block has leaked and only the vectors at [ws]
    have changed. *)
Definition tidy {T} (ws : list nat) (st st' : State T) : Prop :=
  (no_leak st -> no_leak st') /\ kept ws st st'.

(** The operation has ended, by a return or by an exception, in a state
    that is [tidy]. *)
Definition tidily {T A} (ws : list nat) (st : State T) (r : outcome T A) : Prop :=
  match r with
  | Ok _ st' | Throw st' => tidy ws st st'
  | Undefined => False
  end.

(** [v[i]] read: [operator[]], then the value of the element. *)
Definition Vector_read {T} (this i : nat) : M T T :=
  p <- Vector_index this i;
  load p.

(** * Properties *)

Ltac norm := cbv beta; unfold ptr_add; cbn [blk off].

(** Two blocks given by their segments are equal. *)
Ltac seg_eq :=
  repeat first [apply (f_equal Some) | apply (f_equal (app _))
               | apply (f_equal (cons _))];
  try (apply (f_equal (fun n => replicate n None)); simpl; lia);
  try done.

(** For an [n] that [fits], the block [Allocate] asks for is one of
    exactly [n] elements: the heap of this development is that of the
    source. *)
Lemma fits_room_for {T} `{Element T} (n : nat) :
  fits n = true -> sizeof_T <> 0%N -> room_for n = N.of_nat n.
Proof.
  unfold fits, room_for, byte_count. intros Hf Hs.
  apply N.leb_le in Hf. rewrite N.mod_small by lia.
  by apply N.div_mul.
Qed.

Section Facts.

Context {T : Type} `{Element T}.

Variable new_ok : nat -> nat -> bool.

Implicit Types (h : list (option (list (option T)))) (o : list (option Vector)).
Implicit Types (bl pre post junk : list (option T)) (xs ys : list T).
Implicit Types (st : State T) (b k n : nat) (p q : pointer).

(** ** Running a computation step by step *)

Lemma bind_ok {A B} (m : M T A) (f : A -> M T B) st a st' :
  m st = Ok a st' -> (x <- m; f x) st = f a st'.
Proof. unfold bind. by intros ->. Qed.

Lemma bind_throw {A B} (m : M T A) (f : A -> M T B) st st' :
  m st = Throw st' -> (x <- m; f x) st = Throw st'.
Proof. unfold bind. by intros ->. Qed.

Lemma bind_assoc {A B C} (m : M T A) (f : A -> M T B) (g : B -> M T C) st :
  (x <- m; y <- f x; g y) st = (y <- (x <- m; f x); g y) st.
Proof. unfold bind. by destruct (m st). Qed.

Lemma on_throw_ok {A} (m : M T A) c st a st' :
  m st = Ok a st' -> on_throw m c st = Ok a st'.
Proof. unfold on_throw. by intros ->. Qed.

Lemma on_throw_throw {A} (m : M T A) c st st' st'' :
  m st = Throw st' -> c st' = Ok tt st'' -> on_throw m c st = Throw st''.
Proof. unfold on_throw. by intros -> ->. Qed.

(** ** Blocks of the heap *)

Lemma block_at_set_block h b bl bl' :
  block_at h b = Some bl -> block_at (set_block h b bl') b = Some bl'.
Proof.
  destruct b as [|i]; simpl; [done|].
  destruct (h !! i) as [[?|]|] eqn:E; try done. intros _.
  rewrite list_lookup_insert_eq; [done|]. by eapply lookup_lt_Some.
Qed.

Lemma block_at_set_block_ne h b b' bl :
  b <> b' -> block_at (set_block h b bl) b' = block_at h b'.
Proof.
  intros Hne. destruct b as [|i], b' as [|j]; simpl; try done.
  rewrite list_lookup_insert_ne; [done|congruence].
Qed.

Lemma set_block_set_block h b bl bl' :
  set_block (set_block h b bl) b bl' = set_block h b bl'.
Proof. destruct b; simpl; [done|]. apply list_insert_insert_eq. Qed.

Lemma set_block_id h b bl : block_at h b = Some bl -> set_block h b bl = h.
Proof.
  destruct b as [|i]; simpl; [done|].
  destruct (h !! i) as [[?|]|] eqn:E; try done. intros [= ->].
  by apply list_insert_id.
Qed.

Ltac same_heap H :=
  unfold ret; do 2 f_equal; symmetry; apply set_block_id; exact H.

Lemma length_set_block h b bl : length (set_block h b bl) = length h.
Proof. destruct b; simpl; [done|]. apply length_insert. Qed.

Lemma block_at_app h b bl x :
  block_at h b = Some bl -> block_at (h ++ x) b = Some bl.
Proof.
  destruct b as [|i]; simpl; [done|].
  destruct (h !! i) as [[?|]|] eqn:E; try done. intros [= ->].
  by rewrite (lookup_app_l_Some _ _ _ _ E).
Qed.

Lemma block_at_new h bl : block_at (h ++ [Some bl]) (S (length h)) = Some bl.
Proof. simpl. by rewrite list_lookup_middle. Qed.

Lemma block_at_lt h b bl : block_at h b = Some bl -> b <= length h /\ b <> 0.
Proof.
  destruct b as [|i]; simpl; [done|].
  destruct (h !! i) as [[?|]|] eqn:E; try done. intros _.
  apply lookup_lt_Some in E. lia.
Qed.

(** ** One slot *)

Lemma load_ok h o b i bl v :
  block_at h b = Some bl -> bl !! i = Some (Some v) ->
  load (Ptr b i) (mkState h o) = Ok v (mkState h o).
Proof.
  intros Hb Hi. unfold load, bind, block_of. simpl. by rewrite Hb, Hi.
Qed.

Lemma construct_at_ok h o b i bl v :
  block_at h b = Some bl -> i < length bl ->
  construct_at (Ptr b i) v (mkState h o)
  = Ok tt (mkState (set_block h b (<[i := Some v]> bl)) o).
Proof.
  intros Hb Hi. unfold construct_at, bind, block_of. simpl. rewrite Hb.
  by destruct (Nat.ltb_spec i (length bl)); [|lia].
Qed.

Lemma store_ok h o b i bl v w :
  block_at h b = Some bl -> bl !! i = Some (Some w) ->
  store (Ptr b i) v (mkState h o)
  = Ok tt (mkState (set_block h b (<[i := Some v]> bl)) o).
Proof.
  intros Hb Hi. unfold store.
  rewrite (bind_ok _ _ _ _ _ (load_ok _ _ _ _ _ _ Hb Hi)).
  apply construct_at_ok; [done|]. by eapply lookup_lt_Some.
Qed.

Lemma destroy_at_ok h o b i bl v :
  block_at h b = Some bl -> bl !! i = Some (Some v) ->
  destroy_at (Ptr b i) (mkState h o)
  = Ok tt (mkState (set_block h b (<[i := None]> bl)) o).
Proof.
  intros Hb Hi. unfold destroy_at.
  rewrite (bind_ok _ _ _ _ _ (load_ok _ _ _ _ _ _ Hb Hi)).
  unfold bind, block_of. simpl. by rewrite Hb.
Qed.

(** ** Segments of a block *)

Lemma insert_segment {A} (l1 l2 : list A) x y i :
  i = length l1 -> <[i := y]> (l1 ++ x :: l2) = l1 ++ y :: l2.
Proof.
  intros ->. replace (length l1) with (length l1 + 0) by lia.
  by rewrite insert_app_r.
Qed.

Lemma lookup_segment {A} (l1 l2 : list A) x i :
  i = length l1 -> (l1 ++ x :: l2) !! i = Some x.
Proof. intros ->. apply list_lookup_middle. done. Qed.

Lemma snoc_app {A} (l1 l2 : list A) x : (l1 ++ [x]) ++ l2 = l1 ++ x :: l2.
Proof. by rewrite <- app_assoc. Qed.

(** ** [destroy_n] *)

Lemma destroy_n_ok xs : forall pre post h o b i n,
  block_at h b = Some (pre ++ (Some <$> xs) ++ post) ->
  i = length pre -> n = length xs ->
  destroy_n (Ptr b i) n (mkState h o)
  = Ok tt (mkState (set_block h b (pre ++ replicate n None ++ post)) o).
Proof.
  induction xs as [|x xs IH]; intros pre post h o b i n Hb -> ->; simpl.
  - simpl in Hb. unfold ret. by rewrite (set_block_id _ _ _ Hb).
  - simpl in Hb.
    erewrite bind_ok; [|eapply destroy_at_ok; [exact Hb|by apply lookup_segment]].
    rewrite insert_segment by done. norm.
    erewrite (IH (pre ++ [None]) post); cycle 1.
    + erewrite block_at_set_block by exact Hb. by rewrite snoc_app.
    + by rewrite length_app.
    + done.
    + by rewrite set_block_set_block, snoc_app.
Qed.

(** ** [uninitialized_copy_n] *)

Lemma copy_construct_at_ref_ok h o bs bd si di sbl dbl x :
  block_at h bs = Some sbl -> sbl !! si = Some (Some x) ->
  block_at h bd = Some dbl -> di < length dbl ->
  copy_throws x = false ->
  copy_construct_at (Ptr bd di) (Ref (Ptr bs si)) (mkState h o)
  = Ok tt (mkState (set_block h bd (<[di := Some x]> dbl)) o).
Proof.
  intros Hs Hx Hd Hi Hc. unfold copy_construct_at, read_arg.
  erewrite bind_ok by (eapply load_ok; eauto). rewrite Hc.
  by apply construct_at_ok.
Qed.

Lemma copy_construct_at_ref_throw h o bs p si sbl x :
  block_at h bs = Some sbl -> sbl !! si = Some (Some x) ->
  copy_throws x = true ->
  copy_construct_at p (Ref (Ptr bs si)) (mkState h o) = Throw (mkState h o).
Proof.
  intros Hs Hx Hc. unfold copy_construct_at, read_arg.
  erewrite bind_ok by (eapply load_ok; eauto). by rewrite Hc.
Qed.

Lemma uninitialized_copy_loop_ok xs : forall spre spost dpre ys junk dpost h o bs bd si di k n,
  bs <> bd ->
  block_at h bs = Some (spre ++ (Some <$> xs) ++ spost) ->
  block_at h bd = Some (dpre ++ (Some <$> ys) ++ junk ++ dpost) ->
  length junk = length xs -> no_copy_throw xs ->
  si = length spre -> di = length dpre -> k = length ys -> n = length xs ->
  uninitialized_copy_loop (Ptr bs si) n (Ptr bd di) k (mkState h o)
  = Ok tt (mkState (set_block h bd (dpre ++ (Some <$> ys ++ xs) ++ dpost)) o).
Proof.
  induction xs as [|x xs IH];
    intros spre spost dpre ys junk dpost h o bs bd si di k n
           Hne Hs Hd Hj Hc -> -> -> ->; simpl.
  - destruct junk; [|done]. simpl in Hd. rewrite app_nil_r.
    unfold ret. by rewrite (set_block_id _ _ _ Hd).
  - destruct junk as [|j junk]; [done|]. simpl in Hs, Hd, Hj.
    inversion Hc as [|? ? Hx Hc']; subst.
    erewrite bind_ok; cycle 1.
    { apply on_throw_ok. norm.
      eapply copy_construct_at_ref_ok; [exact Hs|by apply lookup_segment|exact Hd| |done].
      rewrite !length_app, length_fmap. simpl. lia. }
    norm. rewrite (app_assoc dpre (Some <$> ys)), insert_segment
      by (by rewrite length_app, length_fmap).
    erewrite (IH (spre ++ [Some x]) spost dpre (ys ++ [x]) junk dpost); cycle 1.
    + done.
    + rewrite block_at_set_block_ne by done. rewrite Hs. by rewrite snoc_app.
    + erewrite block_at_set_block by exact Hd.
      by rewrite fmap_app, <- !app_assoc.
    + lia.
    + done.
    + by rewrite length_app.
    + done.
    + rewrite length_app. simpl. lia.
    + done.
    + by rewrite set_block_set_block, <- app_assoc.
Qed.

Lemma uninitialized_copy_loop_throw xs1 : forall x xs2 spre spost dpre ys junk dpost h o bs bd si di k n,
  bs <> bd ->
  block_at h bs = Some (spre ++ (Some <$> xs1 ++ x :: xs2) ++ spost) ->
  block_at h bd = Some (dpre ++ (Some <$> ys) ++ junk ++ dpost) ->
  length junk = length (xs1 ++ x :: xs2) ->
  no_copy_throw xs1 -> copy_throws x = true ->
  si = length spre -> di = length dpre -> k = length ys ->
  n = length (xs1 ++ x :: xs2) ->
  uninitialized_copy_loop (Ptr bs si) n (Ptr bd di) k (mkState h o)
  = Throw (mkState (set_block h bd
             (dpre ++ replicate (length ys + length xs1) None
                   ++ drop (length xs1) junk ++ dpost)) o).
Proof.
  induction xs1 as [|x1 xs1 IH];
    intros x xs2 spre spost dpre ys junk dpost h o bs bd si di k n
           Hne Hs Hd Hj Hc Hx -> -> -> ->; simpl.
  - simpl in Hs.
    erewrite bind_throw; [done|].
    eapply on_throw_throw.
    + norm. eapply copy_construct_at_ref_throw; [exact Hs|by apply lookup_segment|done].
    + erewrite destroy_n_ok; [|exact Hd|done|done].
      by rewrite Nat.add_0_r.
  - destruct junk as [|j junk]; [done|]. simpl in Hs, Hd, Hj.
    inversion Hc as [|? ? Hx1 Hc']; subst.
    erewrite bind_ok; cycle 1.
    { apply on_throw_ok. norm.
      eapply copy_construct_at_ref_ok; [exact Hs|by apply lookup_segment|exact Hd| |done].
      rewrite !length_app, length_fmap. simpl. lia. }
    norm. rewrite (app_assoc dpre (Some <$> ys)), insert_segment
      by (by rewrite length_app, length_fmap).
    erewrite (IH x xs2 (spre ++ [Some x1]) spost dpre (ys ++ [x1]) junk dpost); cycle 1.
    + done.
    + rewrite block_at_set_block_ne by done. rewrite Hs. by rewrite snoc_app.
    + erewrite block_at_set_block by exact Hd.
      by rewrite fmap_app, <- !app_assoc.
    + lia.
    + done.
    + done.
    + by rewrite length_app.
    + done.
    + rewrite length_app. simpl. lia.
    + done.
    + rewrite set_block_set_block, length_app. simpl.
      by replace (length ys + 1 + length xs1) with (length ys + S (length xs1)) by lia.
Qed.

(** ** [uninitialized_move_n] *)

Lemma set_block_comm h b b' bl bl' :
  b <> b' ->
  set_block (set_block h b bl) b' bl' = set_block (set_block h b' bl') b bl.
Proof.
  intros Hne. destruct b as [|i], b' as [|j]; simpl; try done.
  apply list_insert_insert_ne. congruence.
Qed.

Lemma move_construct_at_ref_ok h o bs bd si di sbl dbl x :
  bs <> bd ->
  block_at h bs = Some sbl -> sbl !! si = Some (Some x) ->
  block_at h bd = Some dbl -> di < length dbl ->
  move_throws x = false ->
  move_construct_at (Ptr bd di) (Ref (Ptr bs si)) (mkState h o)
  = Ok tt (mkState (set_block (set_block h bs (<[si := Some (moved x)]> sbl))
                              bd (<[di := Some x]> dbl)) o).
Proof.
  intros Hne Hs Hx Hd Hi Hc. unfold move_construct_at, read_arg.
  erewrite bind_ok by (eapply load_ok; eauto). rewrite Hc.
  erewrite bind_ok by (by apply construct_at_ok).
  erewrite store_ok; [|by rewrite block_at_set_block_ne|exact Hx].
  by rewrite set_block_comm.
Qed.

Lemma uninitialized_move_loop_ok xs : forall spre spost dpre ys junk dpost h o bs bd si di k n,
  bs <> bd ->
  block_at h bs = Some (spre ++ (Some <$> xs) ++ spost) ->
  block_at h bd = Some (dpre ++ (Some <$> ys) ++ junk ++ dpost) ->
  length junk = length xs -> no_move_throw xs ->
  si = length spre -> di = length dpre -> k = length ys -> n = length xs ->
  uninitialized_move_loop (Ptr bs si) n (Ptr bd di) k (mkState h o)
  = Ok tt (mkState
      (set_block (set_block h bs (spre ++ (Some <$> (moved <$> xs)) ++ spost))
                 bd (dpre ++ (Some <$> ys ++ xs) ++ dpost)) o).
Proof.
  induction xs as [|x xs IH];
    intros spre spost dpre ys junk dpost h o bs bd si di k n
           Hne Hs Hd Hj Hc -> -> -> ->; simpl.
  - destruct junk; [|done]. simpl in Hs, Hd. rewrite app_nil_r.
    unfold ret. rewrite (set_block_id _ _ _ Hs). by rewrite (set_block_id _ _ _ Hd).
  - destruct junk as [|j junk]; [done|]. simpl in Hs, Hd, Hj.
    inversion Hc as [|? ? Hx Hc']; subst.
    erewrite bind_ok; cycle 1.
    { apply on_throw_ok. norm.
      eapply move_construct_at_ref_ok;
        [done|exact Hs|by apply lookup_segment|exact Hd| |done].
      rewrite !length_app, length_fmap. simpl. lia. }
    norm. rewrite insert_segment by done.
    rewrite (app_assoc dpre), insert_segment
      by (by rewrite length_app, length_fmap).
    erewrite (IH (spre ++ [Some (moved x)]) spost dpre (ys ++ [x]) junk dpost); cycle 1.
    + done.
    + rewrite block_at_set_block_ne by done.
      erewrite block_at_set_block by exact Hs. by rewrite snoc_app.
    + erewrite block_at_set_block
        by (by rewrite block_at_set_block_ne by done).
      by rewrite fmap_app, <- !app_assoc.
    + lia.
    + done.
    + by rewrite length_app.
    + done.
    + rewrite length_app. simpl. lia.
    + done.
    + rewrite (set_block_comm _ bd bs) by done.
      rewrite !set_block_set_block.
      by rewrite snoc_app, <- app_assoc.
Qed.

(** ** [uninitialized_value_construct_n] *)

Lemma uninitialized_value_construct_loop_ok junk : forall v dpre ys dpost h o bd di k n,
  value_init = Some v ->
  block_at h bd = Some (dpre ++ (Some <$> ys) ++ junk ++ dpost) ->
  di = length dpre -> k = length ys -> n = length junk ->
  uninitialized_value_construct_loop (Ptr bd di) k n (mkState h o)
  = Ok tt (mkState (set_block h bd (dpre ++ (Some <$> ys ++ replicate n v) ++ dpost)) o).
Proof.
  induction junk as [|j junk IH];
    intros v dpre ys dpost h o bd di k n Hv Hd -> -> ->; simpl.
  - simpl in Hd. rewrite app_nil_r. unfold ret. by rewrite (set_block_id _ _ _ Hd).
  - simpl in Hd. erewrite bind_ok; cycle 1.
    { apply on_throw_ok. norm. rewrite Hv. simpl.
      eapply construct_at_ok; [exact Hd|].
      rewrite !length_app, length_fmap. simpl. lia. }
    norm. rewrite (app_assoc dpre (Some <$> ys)), insert_segment
      by (by rewrite length_app, length_fmap).
    erewrite (IH v dpre (ys ++ [v]) dpost); cycle 1.
    + done.
    + erewrite block_at_set_block by exact Hd.
      by rewrite fmap_app, <- !app_assoc.
    + done.
    + rewrite length_app. simpl. lia.
    + done.
    + rewrite set_block_set_block. by rewrite <- app_assoc.
Qed.

Lemma uninitialized_value_construct_loop_throw dpre ys junk dpost h o bd di k n :
  value_init = None ->
  block_at h bd = Some (dpre ++ (Some <$> ys) ++ junk ++ dpost) ->
  di = length dpre -> k = length ys -> n <> 0 ->
  uninitialized_value_construct_loop (Ptr bd di) k n (mkState h o)
  = Throw (mkState (set_block h bd (dpre ++ replicate k None ++ junk ++ dpost)) o).
Proof.
  intros Hv Hd -> -> Hn. destruct n as [|n]; [done|]. simpl.
  erewrite bind_throw; [done|].
  eapply on_throw_throw.
  - by rewrite Hv.
  - by erewrite destroy_n_ok.
Qed.

(** ** [copy_n] between two blocks *)

Lemma copy_n_ok xs : forall zs spre spost dpre dpost h o bs bd si di n,
  bs <> bd ->
  block_at h bs = Some (spre ++ (Some <$> xs) ++ spost) ->
  block_at h bd = Some (dpre ++ (Some <$> zs) ++ dpost) ->
  length zs = length xs -> no_copy_throw xs ->
  si = length spre -> di = length dpre -> n = length xs ->
  copy_n (Ptr bs si) n (Ptr bd di) (mkState h o)
  = Ok tt (mkState (set_block h bd (dpre ++ (Some <$> xs) ++ dpost)) o).
Proof.
  induction xs as [|x xs IH];
    intros zs spre spost dpre dpost h o bs bd si di n
           Hne Hs Hd Hz Hc -> -> ->; simpl.
  - destruct zs; [|done]. simpl in Hd. unfold ret. by rewrite (set_block_id _ _ _ Hd).
  - destruct zs as [|z zs]; [done|]. simpl in Hs, Hd, Hz.
    inversion Hc as [|? ? Hx Hc']; subst.
    erewrite bind_ok; cycle 1.
    { unfold copy_assign_at.
      erewrite bind_ok by (eapply load_ok; [exact Hs|by apply lookup_segment]).
      erewrite bind_ok by (eapply load_ok; [exact Hd|by apply lookup_segment]).
      rewrite Hx. eapply store_ok; [exact Hd|by apply lookup_segment]. }
    norm. rewrite insert_segment by done.
    erewrite (IH zs (spre ++ [Some x]) spost (dpre ++ [Some x]) dpost); cycle 1.
    + done.
    + rewrite block_at_set_block_ne by done. rewrite Hs. by rewrite snoc_app.
    + erewrite block_at_set_block by exact Hd. by rewrite snoc_app.
    + lia.
    + done.
    + by rewrite length_app.
    + by rewrite length_app.
    + done.
    + by rewrite set_block_set_block, snoc_app.
Qed.

Lemma copy_n_throw xs1 : forall x xs2 zs spre spost dpre dpost h o bs bd si di n,
  bs <> bd ->
  block_at h bs = Some (spre ++ (Some <$> xs1 ++ x :: xs2) ++ spost) ->
  block_at h bd = Some (dpre ++ (Some <$> zs) ++ dpost) ->
  length zs = length (xs1 ++ x :: xs2) ->
  no_copy_throw xs1 -> copy_throws x = true ->
  si = length spre -> di = length dpre -> n = length (xs1 ++ x :: xs2) ->
  copy_n (Ptr bs si) n (Ptr bd di) (mkState h o)
  = Throw (mkState (set_block h bd
             (dpre ++ (Some <$> xs1 ++ drop (length xs1) zs) ++ dpost)) o).
Proof.
  induction xs1 as [|x1 xs1 IH];
    intros x xs2 zs spre spost dpre dpost h o bs bd si di n
           Hne Hs Hd Hz Hc Hx -> -> ->; simpl.
  - destruct zs as [|z zs]; [done|]. simpl in Hs, Hd.
    erewrite bind_throw; cycle 1.
    { unfold copy_assign_at.
      erewrite bind_ok by (eapply load_ok; [exact Hs|by apply lookup_segment]).
      erewrite bind_ok by (eapply load_ok; [exact Hd|by apply lookup_segment]).
      by rewrite Hx. }
    do 2 f_equal. symmetry. apply set_block_id. exact Hd.
  - destruct zs as [|z zs]; [done|]. simpl in Hs, Hd, Hz.
    inversion Hc as [|? ? Hx1 Hc']; subst.
    erewrite bind_ok; cycle 1.
    { unfold copy_assign_at.
      erewrite bind_ok by (eapply load_ok; [exact Hs|by apply lookup_segment]).
      erewrite bind_ok by (eapply load_ok; [exact Hd|by apply lookup_segment]).
      rewrite Hx1. eapply store_ok; [exact Hd|by apply lookup_segment]. }
    norm. rewrite insert_segment by done.
    erewrite (IH x xs2 zs (spre ++ [Some x1]) spost (dpre ++ [Some x1]) dpost); cycle 1.
    + done.
    + rewrite block_at_set_block_ne by done. rewrite Hs. by rewrite snoc_app.
    + erewrite block_at_set_block by exact Hd. by rewrite snoc_app.
    + lia.
    + done.
    + done.
    + by rewrite length_app.
    + by rewrite length_app.
    + done.
    + by rewrite set_block_set_block, snoc_app.
Qed.

(** ** [std::move] and [std::move_backward] inside one block *)

Lemma move_assign_at_ok h o b i j bl x z :
  block_at h b = Some bl ->
  bl !! j = Some (Some x) -> bl !! i = Some (Some z) -> i <> j ->
  move_throws x = false ->
  move_assign_at (Ptr b i) (Ptr b j) (mkState h o)
  = Ok tt (mkState (set_block h b (<[j := Some (moved x)]> (<[i := Some x]> bl))) o).
Proof.
  intros Hb Hj Hi Hne Hx. unfold move_assign_at.
  erewrite bind_ok by (eapply load_ok; eauto).
  erewrite bind_ok by (eapply load_ok; eauto). rewrite Hx.
  erewrite bind_ok by (eapply store_ok; eauto).
  erewrite store_ok;
    [|by erewrite block_at_set_block|by rewrite list_lookup_insert_ne].
  by rewrite set_block_set_block.
Qed.

Lemma residue_of_last_cons z x xs :
  residue_of_last z (x :: xs) = residue_of_last (moved x) xs.
Proof.
  unfold residue_of_last. destruct xs as [|y xs]; [done|].
  rewrite last_cons_cons. destruct (last (y :: xs)) eqn:E; [done|].
  by apply last_None in E.
Qed.

Lemma lookup_segment2 {A} (l1 l2 : list A) x y i :
  i = length l1 -> (l1 ++ x :: y :: l2) !! S i = Some y.
Proof.
  intros ->. rewrite <- snoc_app. apply lookup_segment.
  rewrite length_app. simpl. lia.
Qed.

Lemma insert_segment2 {A} (l1 l2 : list A) x y w i :
  i = length l1 -> <[S i := w]> (l1 ++ x :: y :: l2) = l1 ++ x :: w :: l2.
Proof.
  intros ->. rewrite <- snoc_app, insert_segment, snoc_app; [done|].
  rewrite length_app. simpl. lia.
Qed.

Lemma move_n_ok xs : forall pre z post h o b i n,
  block_at h b = Some (pre ++ Some z :: (Some <$> xs) ++ post) ->
  no_move_throw xs -> i = length pre -> n = length xs ->
  move_n (Ptr b (S i)) n (Ptr b i) (mkState h o)
  = Ok tt (mkState (set_block h b
             (pre ++ (Some <$> xs) ++ Some (residue_of_last z xs) :: post)) o).
Proof.
  induction xs as [|x xs IH]; intros pre z post h o b i n Hb Hc -> ->; simpl.
  - same_heap Hb.
  - simpl in Hb. inversion Hc as [|? ? Hx Hc']; subst.
    erewrite bind_ok; cycle 1.
    { eapply move_assign_at_ok; [exact Hb| | |lia|exact Hx].
      - by apply lookup_segment2.
      - by apply lookup_segment. }
    rewrite insert_segment by done. rewrite insert_segment2 by done.
    norm. simpl.
    erewrite (IH (pre ++ [Some x]) (moved x) post); cycle 1.
    + erewrite block_at_set_block by exact Hb. by rewrite snoc_app.
    + done.
    + by rewrite length_app.
    + done.
    + rewrite set_block_set_block, snoc_app. by rewrite residue_of_last_cons.
Qed.

Lemma ptr_sub_S b i : Ptr b (S i) .- 1 = Ptr b i.
Proof. unfold ptr_sub. simpl. by rewrite Nat.sub_0_r. Qed.

Lemma residue_of_first_snoc z xs x :
  residue_of_first z (xs ++ [x]) = residue_of_first (moved x) xs.
Proof. by destruct xs. Qed.

Lemma move_backward_n_ok xs : forall pre w post h o b i n,
  block_at h b = Some (pre ++ (Some <$> xs) ++ Some w :: post) ->
  no_move_throw xs -> i = length pre + length xs -> n = length xs ->
  move_backward_n n (Ptr b i) (Ptr b (S i)) (mkState h o)
  = Ok tt (mkState (set_block h b
             (pre ++ Some (residue_of_first w xs) :: (Some <$> xs) ++ post)) o).
Proof.
  induction xs as [|x xs IH] using rev_ind;
    intros pre w post h o b i n Hb Hc -> ->.
  - simpl. same_heap Hb.
  - apply Forall_app in Hc as [Hc Hx]. inversion Hx as [|? ? Hx' _]; subst.
    rewrite length_app. simpl length.
    replace (length pre + (length xs + 1)) with (S (length pre + length xs)) by lia.
    replace (length xs + 1) with (S (length xs)) by lia.
    simpl. rewrite !ptr_sub_S.
    rewrite fmap_app in Hb. simpl in Hb. rewrite <- app_assoc in Hb. simpl in Hb.
    rewrite (app_assoc pre) in Hb.
    erewrite bind_ok; cycle 1.
    { eapply move_assign_at_ok; [exact Hb| | |lia|exact Hx'].
      - apply lookup_segment. by rewrite length_app, length_fmap.
      - apply lookup_segment2. by rewrite length_app, length_fmap. }
    rewrite insert_segment2 by (by rewrite length_app, length_fmap).
    rewrite insert_segment by (by rewrite length_app, length_fmap).
    erewrite (IH pre (moved x) (Some x :: post)); cycle 1.
    + erewrite block_at_set_block by exact Hb. by rewrite <- app_assoc.
    + done.
    + done.
    + done.
    + rewrite set_block_set_block, residue_of_first_snoc.
      rewrite fmap_app. simpl. by rewrite <- app_assoc.
Qed.

(** ** The store *)

Lemma get_vec_ok h o this v :
  o !! this = Some (Some v) -> get_vec this (mkState h o) = Ok v (mkState h o).
Proof. intros Hv. unfold get_vec. simpl. by rewrite Hv. Qed.

Lemma set_vec_ok h o this v v' :
  o !! this = Some (Some v) ->
  set_vec this v' (mkState h o) = Ok tt (mkState h (<[this := Some v']> o)).
Proof. intros Hv. unfold set_vec. by erewrite bind_ok by by apply get_vec_ok. Qed.

Lemma set_data_ok h o this v d :
  o !! this = Some (Some v) ->
  set_data this d (mkState h o)
  = Ok tt (mkState h (<[this := Some (mkVector d (size_ v))]> o)).
Proof.
  intros Hv. unfold set_data. erewrite bind_ok by by apply get_vec_ok.
  by eapply set_vec_ok.
Qed.

Lemma set_size_ok h o this v n :
  o !! this = Some (Some v) ->
  set_size this n (mkState h o)
  = Ok tt (mkState h (<[this := Some (mkVector (data_ v) n)]> o)).
Proof.
  intros Hv. unfold set_size. erewrite bind_ok by by apply get_vec_ok.
  by eapply set_vec_ok.
Qed.

Lemma incr_size_ok h o this v :
  o !! this = Some (Some v) ->
  incr_size this (mkState h o)
  = Ok tt (mkState h (<[this := Some (mkVector (data_ v) (size_ v + 1))]> o)).
Proof.
  intros Hv. unfold incr_size. erewrite bind_ok by by apply get_vec_ok.
  by eapply set_size_ok.
Qed.

(** ** The invariant, block by block *)

Lemma holds_inv h v xs :
  holds h v xs ->
  (data_ v = RawMemory_default /\ xs = [] /\ size_ v = 0) \/
  (exists b, buffer_ (data_ v) = Ptr (S b) 0 /\ capacity_ (data_ v) <> 0 /\
             block_at h (S b) = Some (layout xs (capacity_ (data_ v))) /\
             size_ v = length xs /\ length xs <= capacity_ (data_ v)).
Proof.
  intros (Hsz & Hle & Hb). unfold backing in Hb.
  destruct v as [[buf cap] sz]; simpl in *.
  destruct (decide (buf = nullptr)) as [->|Hnn].
  - destruct (Nat.eqb_spec cap 0) as [->|]; [|done]. left.
    destruct xs; [done|simpl in Hle; lia].
  - destruct buf as [b i]. simpl in Hb.
    destruct (Nat.eqb_spec i 0) as [->|]; [|done].
    destruct (Nat.eqb_spec cap 0); [done|]. simpl in Hb.
    destruct (block_at h b) as [bl|] eqn:E; [|done].
    destruct (Nat.eqb_spec (length bl) cap); [|done].
    injection Hb as ->. right.
    destruct b as [|b]; [done|]. by exists b.
Qed.

Lemma holds_null h xs v :
  data_ v = RawMemory_default -> size_ v = 0 -> xs = [] -> holds h v xs.
Proof. destruct v as [d sz]. simpl. by intros -> -> ->. Qed.

Lemma length_layout xs cap : length xs <= cap -> length (layout xs cap) = cap.
Proof.
  intros Hle. unfold layout. rewrite length_app, length_fmap, length_replicate. lia.
Qed.

Lemma holds_block h b cap sz xs :
  cap <> 0 -> sz = length xs -> length xs <= cap ->
  block_at h (S b) = Some (layout xs cap) ->
  holds h (mkVector (mkRawMemory (Ptr (S b) 0) cap) sz) xs.
Proof.
  intros Hc -> Hle Hb. repeat split; [done|]. unfold backing. simpl.
  destruct (Nat.eqb_spec cap 0); [done|]. simpl in *. rewrite Hb.
  rewrite length_layout by done. by rewrite Nat.eqb_refl.
Qed.

Lemma omap_id_Some xs : omap id (Some <$> xs) = xs.
Proof. induction xs as [|x xs IH]; [done|]. simpl. f_equal. apply IH. Qed.

Lemma take_layout xs cap : take (length xs) (layout xs cap) = Some <$> xs.
Proof. unfold layout. apply take_app_length'. by rewrite length_fmap. Qed.

Lemma drop_layout xs cap :
  drop (length xs) (layout xs cap) = replicate (cap - length xs) None.
Proof. unfold layout. apply drop_app_length'. by rewrite length_fmap. Qed.

Lemma holds_valid st v xs :
  holds (heap st) v xs -> valid st v = true /\ elements st v = xs.
Proof.
  intros (Hsz & Hle & Hb). unfold valid, elements. rewrite Hb, Hsz.
  split.
  - apply andb_true_intro. split; [by apply Nat.leb_le|].
    unfold partitioned. rewrite take_layout, drop_layout.
    apply andb_true_intro. split.
    + apply forallb_forall. intros s' Hin. apply in_map_iff in Hin as (? & <- & _). done.
    + apply forallb_forall. intros s' Hin.
      by apply list_elem_of_In, elem_of_replicate in Hin as [-> _].
  - by rewrite take_layout, omap_id_Some.
Qed.

Lemma all_live bl : forallb live bl = true -> bl = Some <$> omap id bl.
Proof.
  induction bl as [|[x|] bl IH]; simpl; [done| |done].
  intros Hl. f_equal. by apply IH.
Qed.

Lemma all_raw bl : forallb raw bl = true -> bl = replicate (length bl) None.
Proof.
  induction bl as [|[x|] bl IH]; simpl; [done|done|].
  intros Hl. f_equal. by apply IH.
Qed.

Lemma valid_holds st v : valid st v = true -> holds (heap st) v (elements st v).
Proof.
  unfold valid, elements, holds. intros Hv.
  apply andb_prop in Hv as [Hle Hv]. apply Nat.leb_le in Hle.
  destruct (backing (heap st) (data_ v)) as [bl|] eqn:Hb; [|done].
  apply andb_prop in Hv as [Hl Hr].
  assert (length bl = capacity_ (data_ v)) as Hlen.
  { unfold backing in Hb. case_decide.
    - destruct (Nat.eqb_spec (capacity_ (data_ v)) 0) as [->|]; [|done].
      by injection Hb as <-.
    - destruct (_ && _); [|done].
      destruct (block_at _ _); [|done].
      destruct (Nat.eqb_spec (length l) (capacity_ (data_ v))); [|done].
      by injection Hb as <-. }
  apply all_live in Hl. apply all_raw in Hr.
  assert (length (omap id (take (size_ v) bl)) = size_ v) as Hn.
  { rewrite <- (length_fmap Some), <- Hl, length_take. lia. }
  rewrite Hn. repeat split; [done|]. f_equal.
  rewrite <- (take_drop (size_ v) bl) at 1. unfold layout.
  rewrite <- Hl, Hn. f_equal. rewrite Hr at 1. by rewrite length_drop, Hlen.
Qed.

(** ** The invariant of the store, object by object *)

Lemma owns_none_spec b o :
  owns_none b o = true <->
  forall j w, o !! j = Some (Some w) -> blk (buffer_ (data_ w)) <> b.
Proof.
  unfold owns_none. induction o as [|ov o IH]; simpl.
  - split; [by intros _ j w|done].
  - rewrite andb_true_iff, IH. split.
    + intros [Hov Ho] [|j] w; simpl.
      * intros [= ->]. by apply Nat.eqb_neq, negb_true_iff.
      * apply Ho.
    + intros Hall. split.
      * destruct ov as [w|]; [|done].
        apply negb_true_iff, Nat.eqb_neq. by apply (Hall 0).
      * intros j w. apply (Hall (S j)).
Qed.

Lemma distinct_blocks_spec o :
  distinct_blocks o = true <->
  forall i j v w, i <> j -> o !! i = Some (Some v) -> o !! j = Some (Some w) ->
                  blk (buffer_ (data_ v)) <> 0 ->
                  blk (buffer_ (data_ v)) <> blk (buffer_ (data_ w)).
Proof.
  induction o as [|ov o IH]; simpl.
  - split; [by intros _ i j v w|done].
  - assert ((forall i j v w, i <> j -> (ov :: o) !! i = Some (Some v) ->
               (ov :: o) !! j = Some (Some w) ->
               blk (buffer_ (data_ v)) <> 0 ->
               blk (buffer_ (data_ v)) <> blk (buffer_ (data_ w)))
            <-> (match ov with
                 | Some v => blk (buffer_ (data_ v)) = 0 \/
                             forall j w, o !! j = Some (Some w) ->
                                         blk (buffer_ (data_ w)) <> blk (buffer_ (data_ v))
                 | None => True
                 end /\
                 forall i j v w, i <> j -> o !! i = Some (Some v) ->
                   o !! j = Some (Some w) ->
                   blk (buffer_ (data_ v)) <> 0 ->
                   blk (buffer_ (data_ v)) <> blk (buffer_ (data_ w)))) as Hstep.
    { split.
      - intros Hall. split.
        + destruct ov as [v|]; [|done].
          destruct (decide (blk (buffer_ (data_ v)) = 0)) as [|Hnz]; [by left|right].
          intros j w Hw Heq. by apply (Hall 0 (S j) v w).
        + intros i j v w Hij. apply (Hall (S i) (S j)). lia.
      - intros [Hhd Htl] [|i] [|j] v w Hij; simpl; try done.
        + intros [= ->] Hw Hnz. destruct Hhd as [|Hhd]; [done|].
          intros Heq. by apply (Hhd j w).
        + intros Hv [= ->] Hnz. destruct Hhd as [Hz|Hhd]; [congruence|].
          by apply (Hhd i v).
        + apply Htl. lia. }
    rewrite Hstep, <- IH. destruct ov as [v|]; [|tauto].
    rewrite andb_true_iff, orb_true_iff, owns_none_spec, Nat.eqb_eq. tauto.
Qed.

Lemma wf_spec st :
  wf st = true <->
  (forall i v, objs st !! i = Some (Some v) -> valid st v = true) /\
  (forall i j v w, i <> j -> objs st !! i = Some (Some v) ->
                   objs st !! j = Some (Some w) ->
                   blk (buffer_ (data_ v)) <> 0 ->
                   blk (buffer_ (data_ v)) <> blk (buffer_ (data_ w))).
Proof.
  unfold wf. rewrite andb_true_iff, distinct_blocks_spec.
  rewrite forallb_forall. split; intros [Hv Hd]; (split; [|done]).
  - intros i v Hi. apply (Hv (Some v)). apply list_elem_of_In.
    by eapply list_elem_of_lookup_2.
  - intros [v|] Hin; [|done].
    apply list_elem_of_In, list_elem_of_lookup in Hin as [i Hi]. by apply (Hv i).
Qed.

(** ** Allocation and release *)

Lemma Allocate_ok h o n :
  n <> 0 -> new_ok (length h) n = true ->
  Allocate new_ok n (mkState h o)
  = Ok (Ptr (S (length h)) 0) (mkState (h ++ [Some (replicate n None)]) o).
Proof.
  intros Hn Hok. unfold Allocate. destruct (Nat.eqb_spec n 0); [done|].
  simpl. by rewrite Hok.
Qed.

Lemma Allocate_throw h o n :
  n <> 0 -> new_ok (length h) n = false ->
  Allocate new_ok n (mkState h o) = Throw (mkState h o).
Proof.
  intros Hn Hok. unfold Allocate. destruct (Nat.eqb_spec n 0); [done|].
  simpl. by rewrite Hok.
Qed.

Lemma RawMemory_ctor_ok h o n :
  n <> 0 -> new_ok (length h) n = true ->
  RawMemory_ctor new_ok n (mkState h o)
  = Ok (mkRawMemory (Ptr (S (length h)) 0) n)
       (mkState (h ++ [Some (replicate n None)]) o).
Proof.
  intros Hn Hok. unfold RawMemory_ctor.
  by erewrite bind_ok by by apply Allocate_ok.
Qed.

Lemma RawMemory_ctor_throw h o n :
  n <> 0 -> new_ok (length h) n = false ->
  RawMemory_ctor new_ok n (mkState h o) = Throw (mkState h o).
Proof.
  intros Hn Hok. unfold RawMemory_ctor.
  by erewrite bind_throw by by apply Allocate_throw.
Qed.

Lemma RawMemory_ctor_zero st :
  RawMemory_ctor new_ok 0 st = Ok RawMemory_default st.
Proof. done. Qed.

Lemma Deallocate_ok h o b bl :
  block_at h (S b) = Some bl ->
  Deallocate (Ptr (S b) 0) (mkState h o) = Ok tt (mkState (<[b := None]> h) o).
Proof.
  intros Hb. unfold Deallocate. case_decide; [done|].
  unfold bind, block_of. cbn [blk off heap]. by rewrite Hb.
Qed.

Lemma RawMemory_dtor_ok h o r :
  releasable h r ->
  RawMemory_dtor r (mkState h o) = Ok tt (mkState (release r h) o).
Proof.
  unfold RawMemory_dtor, release. intros [Hn|(b & bl & Hb & Hbl)].
  - rewrite Hn. unfold Deallocate. by case_decide.
  - rewrite Hb. case_decide; [done|]. by eapply Deallocate_ok.
Qed.

Lemma holds_releasable h v xs : holds h v xs -> releasable h (data_ v).
Proof.
  intros Hh. apply holds_inv in Hh as [(Hd & _)|(b & Hb & _ & Hbl & _)].
  - left. by rewrite Hd.
  - right. eauto.
Qed.

Lemma adopt_ok h o this t nd :
  o !! this = Some (Some t) -> releasable h (data_ t) ->
  adopt this nd (mkState h o)
  = Ok tt (mkState (release (data_ t) h)
                   (<[this := Some (mkVector nd (size_ t))]> o)).
Proof.
  intros Ht Hr. unfold adopt.
  erewrite bind_ok by by apply get_vec_ok.
  unfold RawMemory_Swap.
  erewrite bind_ok by by eapply set_data_ok.
  destruct nd as [nb nc], t as [[tb tc] ts]. simpl.
  by erewrite RawMemory_dtor_ok.
Qed.

(** ** Relocation *)

Lemma first_throw (P : T -> bool) xs :
  Forall (fun x => P x = false) xs \/
  exists xs1 x xs2, xs = xs1 ++ x :: xs2 /\
                    Forall (fun x => P x = false) xs1 /\ P x = true.
Proof.
  induction xs as [|x xs IH]; [by left|].
  destruct (P x) eqn:Hx.
  - right. by exists [], x, xs.
  - destruct IH as [IH|(xs1 & y & xs2 & -> & H1 & Hy)].
    + left. by constructor.
    + right. exists (x :: xs1), y, xs2. repeat split; [|done]. by constructor.
Qed.

Lemma uninitialized_move_loop_throw xs1 : forall x xs2 spre spost dpre ys junk dpost h o bs bd si di k n,
  bs <> bd ->
  block_at h bs = Some (spre ++ (Some <$> xs1 ++ x :: xs2) ++ spost) ->
  block_at h bd = Some (dpre ++ (Some <$> ys) ++ junk ++ dpost) ->
  length junk = length (xs1 ++ x :: xs2) ->
  no_move_throw xs1 -> move_throws x = true ->
  si = length spre -> di = length dpre -> k = length ys ->
  n = length (xs1 ++ x :: xs2) ->
  uninitialized_move_loop (Ptr bs si) n (Ptr bd di) k (mkState h o)
  = Throw (mkState
      (set_block
         (set_block h bs (spre ++ (Some <$> (moved <$> xs1) ++ x :: xs2) ++ spost))
         bd (dpre ++ replicate (length ys + length xs1) None
                  ++ drop (length xs1) junk ++ dpost)) o).
Proof.
  induction xs1 as [|x1 xs1 IH];
    intros x xs2 spre spost dpre ys junk dpost h o bs bd si di k n
           Hne Hs Hd Hj Hc Hx -> -> -> ->; simpl.
  - simpl in Hs.
    erewrite bind_throw; [done|].
    eapply on_throw_throw.
    + norm. unfold move_construct_at, read_arg.
      erewrite bind_ok by (eapply load_ok; [exact Hs|by apply lookup_segment]).
      by rewrite Hx.
    + erewrite destroy_n_ok; [|exact Hd|done|done].
      rewrite Nat.add_0_r. do 2 f_equal.
      by rewrite (set_block_id _ _ _ Hs).
  - destruct junk as [|j junk]; [done|]. simpl in Hs, Hd, Hj.
    inversion Hc as [|? ? Hx1 Hc']; subst.
    erewrite bind_ok; cycle 1.
    { apply on_throw_ok. norm.
      eapply move_construct_at_ref_ok;
        [done|exact Hs|by apply lookup_segment|exact Hd| |done].
      rewrite !length_app, length_fmap. simpl. lia. }
    norm. rewrite insert_segment by done.
    rewrite (app_assoc dpre), insert_segment
      by (by rewrite length_app, length_fmap).
    erewrite (IH x xs2 (spre ++ [Some (moved x1)]) spost dpre (ys ++ [x1]) junk dpost); cycle 1.
    + done.
    + rewrite block_at_set_block_ne by done.
      erewrite block_at_set_block by exact Hs. by rewrite snoc_app.
    + erewrite block_at_set_block
        by (by rewrite block_at_set_block_ne by done).
      by rewrite fmap_app, <- !app_assoc.
    + lia.
    + done.
    + done.
    + by rewrite length_app.
    + done.
    + rewrite length_app. simpl. lia.
    + done.
    + rewrite (set_block_comm _ bd bs) by done.
      rewrite !set_block_set_block.
      rewrite snoc_app, length_app. simpl.
      by replace (length ys + 1 + length xs1) with (length ys + S (length xs1)) by lia.
Qed.

Lemma relocated_nil : relocated [] = [].
Proof. unfold relocated. by destruct relocate_by_move. Qed.

Lemma length_relocated xs : length (relocated xs) = length xs.
Proof. unfold relocated. destruct relocate_by_move; [apply length_fmap|done]. Qed.

Lemma relocate_n_ok xs spre spost dpre junk dpost h o bs bd si di n :
  bs <> bd ->
  block_at h bs = Some (spre ++ (Some <$> xs) ++ spost) ->
  block_at h bd = Some (dpre ++ junk ++ dpost) ->
  length junk = length xs -> no_relocate_throw xs ->
  si = length spre -> di = length dpre -> n = length xs ->
  relocate_n (Ptr bs si) n (Ptr bd di) (mkState h o)
  = Ok tt (mkState
      (set_block (set_block h bs (spre ++ (Some <$> relocated xs) ++ spost))
                 bd (dpre ++ (Some <$> xs) ++ dpost)) o).
Proof.
  intros Hne Hs Hd Hj Hc -> -> ->.
  unfold relocate_n, relocated, no_relocate_throw in *.
  destruct relocate_by_move.
  - unfold uninitialized_move_n.
    by erewrite (uninitialized_move_loop_ok xs spre spost dpre [] junk dpost).
  - unfold uninitialized_copy_n.
    erewrite (uninitialized_copy_loop_ok xs spre spost dpre [] junk dpost); try done.
    by rewrite (set_block_id _ _ _ Hs).
Qed.

Lemma relocate_cases xs :
  no_relocate_throw xs \/
  exists xs1 x xs2, xs = xs1 ++ x :: xs2 /\ relocate_throws_at xs1 x.
Proof.
  unfold no_relocate_throw, relocate_throws_at.
  destruct relocate_by_move.
  - destruct (first_throw move_throws xs) as [?|(xs1 & x & xs2 & ? & ? & ?)];
      [by left|right; by exists xs1, x, xs2].
  - destruct (first_throw copy_throws xs) as [?|(xs1 & x & xs2 & ? & ? & ?)];
      [by left|right; by exists xs1, x, xs2].
Qed.

Lemma relocate_n_throw xs1 x xs2 spre spost dpre junk dpost h o bs bd si di n :
  bs <> bd ->
  block_at h bs = Some (spre ++ (Some <$> xs1 ++ x :: xs2) ++ spost) ->
  block_at h bd = Some (dpre ++ junk ++ dpost) ->
  length junk = length (xs1 ++ x :: xs2) -> relocate_throws_at xs1 x ->
  si = length spre -> di = length dpre -> n = length (xs1 ++ x :: xs2) ->
  relocate_n (Ptr bs si) n (Ptr bd di) (mkState h o)
  = Throw (mkState
      (set_block
         (set_block h bs (spre ++ (Some <$> relocated xs1 ++ x :: xs2) ++ spost))
         bd (dpre ++ replicate (length xs1) None
                  ++ drop (length xs1) junk ++ dpost)) o).
Proof.
  intros Hne Hs Hd Hj Hc -> -> ->.
  unfold relocate_n, relocated, relocate_throws_at in *.
  destruct relocate_by_move; destruct Hc as [Hc Hx].
  - unfold uninitialized_move_n.
    by erewrite (uninitialized_move_loop_throw xs1 x xs2 spre spost dpre [] junk dpost).
  - unfold uninitialized_copy_n.
    erewrite (uninitialized_copy_loop_throw xs1 x xs2 spre spost dpre [] junk dpost);
      try done.
    by rewrite (set_block_id _ _ _ Hs).
Qed.

(** ** The old block and the new one *)

Lemma holds_app h v xs x : holds h v xs -> holds (h ++ x) v xs.
Proof.
  intros Hh. pose proof Hh as (Hsz & Hle & _).
  apply holds_inv in Hh as [(Hd & -> & Hz)|(b & Hb & Hc & Hbl & _)].
  - by apply holds_null.
  - destruct v as [[buf cap] sz]. simpl in *. subst buf.
    apply holds_block; [done|done|done|]. by apply block_at_app.
Qed.

Lemma holds_blk_le h v xs : holds h v xs -> blk (buffer_ (data_ v)) <= length h.
Proof.
  intros Hh. apply holds_inv in Hh as [(Hd & _)|(b & Hb & _ & Hbl & _)].
  - rewrite Hd. simpl. lia.
  - rewrite Hb. simpl. by apply block_at_lt in Hbl as [? _].
Qed.

Lemma set_block_new h bl bl' :
  set_block (h ++ [Some bl]) (S (length h)) bl' = h ++ [Some bl'].
Proof. simpl. by apply insert_segment. Qed.

Lemma set_block_app h b bl x :
  b <= length h -> set_block (h ++ x) b bl = set_block h b bl ++ x.
Proof.
  intros Hb. destruct b as [|i]; simpl; [done|]. apply insert_app_l. lia.
Qed.

Lemma release_set_block h r bl :
  releasable h r ->
  release r (set_block h (blk (buffer_ r)) bl) = release r h.
Proof.
  unfold release. intros [Hn|(b & bl' & Hb & Hbl)].
  - by rewrite Hn.
  - rewrite Hb. simpl. apply list_insert_insert_eq.
Qed.

Lemma release_app h r x :
  releasable h r -> release r (h ++ x) = release r h ++ x.
Proof.
  unfold release. intros [Hn|(b & bl' & Hb & Hbl)].
  - by rewrite Hn.
  - rewrite Hb. simpl. apply insert_app_l.
    apply block_at_lt in Hbl. lia.
Qed.

Lemma releasable_set_block h r b bl :
  releasable h r -> releasable (set_block h b bl) r.
Proof.
  intros [Hn|(b' & bl' & Hb & Hbl)]; [by left|right].
  destruct (decide (b = S b')) as [->|Hne].
  - exists b', bl. split; [done|]. by erewrite block_at_set_block.
  - exists b', bl'. split; [done|]. by rewrite block_at_set_block_ne.
Qed.

Lemma releasable_app h r x : releasable h r -> releasable (h ++ x) r.
Proof.
  intros [Hn|(b' & bl' & Hb & Hbl)]; [by left|right].
  exists b', bl'. split; [done|]. by apply block_at_app.
Qed.

Lemma heap_after_transfer h b Z nb Y :
  b <= length h ->
  set_block (set_block (h ++ [Some nb]) b Z) (S (length h)) Y
  = set_block h b Z ++ [Some Y].
Proof.
  intros Hb. rewrite set_block_app by done.
  rewrite <- (length_set_block h b Z). apply set_block_new.
Qed.

Lemma release_after_transfer h t xs Z nb Y :
  holds h t xs ->
  release (data_ t)
    (set_block (set_block (h ++ [Some nb]) (blk (buffer_ (data_ t))) Z)
               (S (length h)) Y)
  = release (data_ t) h ++ [Some Y].
Proof.
  intros Hh. rewrite heap_after_transfer by by eapply holds_blk_le.
  rewrite release_app by by eapply releasable_set_block, holds_releasable.
  rewrite release_set_block by by eapply holds_releasable. done.
Qed.

Lemma replicate_split {A} (x : A) n m :
  n <= m -> replicate m x = replicate n x ++ replicate (m - n) x.
Proof. intros Hle. rewrite <- replicate_add. f_equal. lia. Qed.

Lemma transfer_all_ok h o t xs bd junk dpost :
  holds h t xs -> blk (buffer_ (data_ t)) <> bd ->
  block_at h bd = Some (junk ++ dpost) -> length junk = length xs ->
  no_relocate_throw xs ->
  (relocate_n (GetAddress (data_ t)) (size_ t) (Ptr bd 0);;
   destroy_n (GetAddress (data_ t)) (size_ t)) (mkState h o)
  = Ok tt (mkState
      (set_block (set_block h (blk (buffer_ (data_ t)))
                            (replicate (capacity_ (data_ t)) None))
                 bd ((Some <$> xs) ++ dpost)) o).
Proof.
  intros Hh Hne Hd Hj Hc.
  apply holds_inv in Hh as [(Hdt & -> & Hz)|(b & Hb & Hcap & Hbl & Hsz & Hle)].
  - rewrite Hdt, Hz. destruct junk; [|done]. simpl in Hd.
    unfold relocate_n. destruct relocate_by_move; same_heap Hd.
  - unfold GetAddress. rewrite Hb in *. simpl in Hne. rewrite Hsz.
    erewrite bind_ok; cycle 1.
    { eapply (relocate_n_ok xs [] _ [] junk dpost); try done. }
    simpl app.
    erewrite (destroy_n_ok (relocated xs) []); cycle 1.
    + rewrite block_at_set_block_ne by done. by erewrite block_at_set_block.
    + done.
    + by rewrite length_relocated.
    + simpl app. rewrite (set_block_comm _ bd (S b)) by done.
      rewrite set_block_set_block.
      simpl blk. do 4 f_equal. symmetry. by apply replicate_split.
Qed.

Lemma transfer_all_throw h o t xs1 x xs2 bd junk dpost :
  holds h t (xs1 ++ x :: xs2) -> blk (buffer_ (data_ t)) <> bd ->
  block_at h bd = Some (junk ++ dpost) ->
  length junk = length (xs1 ++ x :: xs2) ->
  relocate_throws_at xs1 x ->
  (relocate_n (GetAddress (data_ t)) (size_ t) (Ptr bd 0);;
   destroy_n (GetAddress (data_ t)) (size_ t)) (mkState h o)
  = Throw (mkState
      (set_block (set_block h (blk (buffer_ (data_ t)))
                   (layout (relocated xs1 ++ x :: xs2) (capacity_ (data_ t))))
                 bd (replicate (length xs1) None ++ drop (length xs1) junk ++ dpost))
      o).
Proof.
  intros Hh Hne Hd Hj Hc.
  apply holds_inv in Hh as [(Hdt & Hnil & Hz)|(b & Hb & Hcap & Hbl & Hsz & Hle)].
  - by destruct xs1.
  - unfold GetAddress. rewrite Hb in *. simpl in Hne. rewrite Hsz.
    erewrite bind_throw; cycle 1.
    { eapply (relocate_n_throw xs1 x xs2 [] _ [] junk dpost); try done. }
    simpl app. simpl blk. do 4 f_equal. unfold layout.
    by rewrite !length_app, length_relocated.
Qed.

(** ** [Reserve] *)

Lemma Reserve_noop h o this t c :
  o !! this = Some (Some t) -> c <= capacity_ (data_ t) ->
  Vector_Reserve new_ok this c (mkState h o) = Ok tt (mkState h o).
Proof.
  intros Ht Hc. unfold Vector_Reserve.
  erewrite bind_ok by by apply get_vec_ok.
  unfold RawMemory_Capacity. by destruct (Nat.leb_spec c (capacity_ (data_ t))); [|lia].
Qed.

Lemma Reserve_bad_alloc h o this t c :
  o !! this = Some (Some t) -> capacity_ (data_ t) < c ->
  new_ok (length h) c = false ->
  Vector_Reserve new_ok this c (mkState h o) = Throw (mkState h o).
Proof.
  intros Ht Hc Hn. unfold Vector_Reserve.
  erewrite bind_ok by by apply get_vec_ok.
  unfold RawMemory_Capacity. destruct (Nat.leb_spec c (capacity_ (data_ t))); [lia|].
  erewrite bind_throw; [done|]. apply RawMemory_ctor_throw; [lia|done].
Qed.

Lemma Reserve_ok h o this t xs c :
  o !! this = Some (Some t) -> holds h t xs -> capacity_ (data_ t) < c ->
  new_ok (length h) c = true -> no_relocate_throw xs ->
  Vector_Reserve new_ok this c (mkState h o)
  = Ok tt (mkState (release (data_ t) h ++ [Some (layout xs c)])
                   (<[this := Some (mkVector (mkRawMemory (Ptr (S (length h)) 0) c)
                                             (size_ t))]> o)).
Proof.
  intros Ht Hh Hc Hn Hx. pose proof Hh as (Hsz & Hle & _).
  unfold Vector_Reserve.
  erewrite bind_ok by by apply get_vec_ok.
  unfold RawMemory_Capacity. destruct (Nat.leb_spec c (capacity_ (data_ t))); [lia|].
  erewrite bind_ok by (apply RawMemory_ctor_ok; [lia|done]).
  cbv beta. unfold GetAddress at 2. cbn [buffer_].
  erewrite bind_ok; cycle 1.
  { apply on_throw_ok.
    eapply (transfer_all_ok _ _ _ xs _ (replicate (length xs) None)
                            (replicate (c - length xs) None)).
    - by apply holds_app.
    - apply holds_blk_le in Hh. lia.
    - rewrite block_at_new. f_equal. apply replicate_split. lia.
    - by rewrite length_replicate.
    - done. }
  erewrite adopt_ok; [|done|].
  - by erewrite release_after_transfer.
  - do 2 apply releasable_set_block. eapply releasable_app, holds_releasable. done.
Qed.

Lemma Reserve_throw h o this t xs1 x xs2 c :
  o !! this = Some (Some t) -> holds h t (xs1 ++ x :: xs2) ->
  capacity_ (data_ t) < c -> new_ok (length h) c = true ->
  relocate_throws_at xs1 x ->
  Vector_Reserve new_ok this c (mkState h o)
  = Throw (mkState
      (set_block h (blk (buffer_ (data_ t)))
                 (layout (relocated xs1 ++ x :: xs2) (capacity_ (data_ t)))
       ++ [None]) o).
Proof.
  intros Ht Hh Hc Hn Hx. pose proof Hh as (Hsz & Hle & _).
  unfold Vector_Reserve.
  erewrite bind_ok by by apply get_vec_ok.
  unfold RawMemory_Capacity. destruct (Nat.leb_spec c (capacity_ (data_ t))); [lia|].
  erewrite bind_ok by (apply RawMemory_ctor_ok; [lia|done]).
  cbv beta. unfold GetAddress at 2. cbn [buffer_].
  erewrite bind_throw; [done|].
  eapply on_throw_throw.
  - eapply (transfer_all_throw _ _ _ xs1 x xs2 _
              (replicate (length (xs1 ++ x :: xs2)) None)
              (replicate (c - length (xs1 ++ x :: xs2)) None)).
    + by apply holds_app.
    + apply holds_blk_le in Hh. lia.
    + rewrite block_at_new. f_equal. apply replicate_split. lia.
    + by rewrite length_replicate.
    + done.
  - unfold RawMemory_dtor. cbn [buffer_].
    rewrite heap_after_transfer by by eapply holds_blk_le.
    erewrite Deallocate_ok.
    + do 2 f_equal. rewrite <- (length_set_block h (blk (buffer_ (data_ t)))
        (layout (relocated xs1 ++ x :: xs2) (capacity_ (data_ t)))).
      by apply insert_segment.
    + rewrite <- (length_set_block h (blk (buffer_ (data_ t)))
        (layout (relocated xs1 ++ x :: xs2) (capacity_ (data_ t)))) at 1.
      apply block_at_new.
Qed.

(** ** Construction from arguments outside the heap *)

Lemma emplace_at_ok h o b i bl args x :
  external args = true -> built args = Some x ->
  block_at h b = Some bl -> i < length bl ->
  emplace_at (Ptr b i) args (mkState h o)
  = Ok tt (mkState (set_block h b (<[i := Some x]> bl)) o).
Proof.
  intros He Hx Hb Hi.
  destruct args as [[y|q]|[y|q]|[y|]]; simpl in *; try done.
  - unfold copy_construct_at, read_arg, bind, ret.
    destruct (copy_throws y); [done|]. injection Hx as ->.
    by apply construct_at_ok.
  - unfold move_construct_at, read_arg, bind, ret.
    destruct (move_throws y); [done|]. injection Hx as ->.
    by erewrite construct_at_ok.
  - injection Hx as ->. by apply construct_at_ok.
Qed.

Lemma emplace_at_throw st p args :
  external args = true -> built args = None ->
  emplace_at p args st = Throw st.
Proof.
  intros He Hx.
  destruct args as [[y|q]|[y|q]|[y|]]; simpl in *; try done.
  - unfold copy_construct_at, read_arg, bind, ret.
    by destruct (copy_throws y).
  - unfold move_construct_at, read_arg, bind, ret.
    by destruct (move_throws y).
Qed.

(** ** [PopBack] *)

Lemma layout_snoc xs x cap :
  layout (xs ++ [x]) cap
  = (Some <$> xs) ++ Some x :: replicate (cap - S (length xs)) None.
Proof.
  unfold layout. rewrite fmap_app, length_app, <- app_assoc. simpl.
  by replace (cap - (length xs + 1)) with (cap - S (length xs)) by lia.
Qed.

Lemma layout_raw xs cap :
  length xs < cap ->
  layout xs cap = (Some <$> xs) ++ None :: replicate (cap - S (length xs)) None.
Proof.
  intros Hlt. unfold layout. f_equal.
  by replace (cap - length xs) with (S (cap - S (length xs))) by lia.
Qed.

Lemma PopBack_empty h o this t :
  o !! this = Some (Some t) -> size_ t = 0 ->
  Vector_PopBack this (mkState h o) = Ok tt (mkState h o).
Proof.
  intros Ht Hz. unfold Vector_PopBack.
  erewrite bind_ok by by apply get_vec_ok. by rewrite Hz.
Qed.

Lemma PopBack_ok h o this t xs x :
  o !! this = Some (Some t) -> holds h t (xs ++ [x]) ->
  Vector_PopBack this (mkState h o)
  = Ok tt (mkState
      (set_block h (blk (buffer_ (data_ t))) (layout xs (capacity_ (data_ t))))
      (<[this := Some (mkVector (data_ t) (length xs))]> o)).
Proof.
  intros Ht Hh. unfold Vector_PopBack.
  erewrite bind_ok by by apply get_vec_ok.
  apply holds_inv in Hh as [(_ & Hnil & _)|(b & Hb & Hcap & Hbl & Hsz & Hle)].
  { by destruct xs. }
  rewrite length_app in Hsz, Hle. simpl in Hsz, Hle.
  rewrite Hsz. replace (length xs + 1) with (S (length xs)) by lia.
  change (0 <? S (length xs)) with true. cbv iota.
  unfold GetAddress. rewrite Hb. norm.
  change (0 + S (length xs)) with (S (length xs)).
  rewrite ptr_sub_S. rewrite layout_snoc in Hbl.
  erewrite bind_ok; cycle 1.
  { eapply destroy_at_ok; [exact Hbl|]. apply lookup_segment. by rewrite length_fmap. }
  rewrite insert_segment by by rewrite length_fmap.
  erewrite set_size_ok by done. simpl Nat.sub. rewrite Nat.sub_0_r.
  do 3 f_equal. rewrite layout_raw by lia. done.
Qed.

(** ** Appending: [EmplaceBack] and the two [PushBack] *)

Lemma grown_gt n : n < grown n.
Proof. unfold grown. destruct (Nat.eqb_spec n 0); lia. Qed.


Lemma insert_replicate_at {A} (x y : A) n g :
  n < g ->
  <[n := y]> (replicate g x) = replicate n x ++ y :: replicate (g - S n) x.
Proof.
  intros Hlt. rewrite (replicate_split x n g) by lia.
  replace (g - n) with (S (g - S n)) by lia. simpl.
  apply insert_segment. by rewrite length_replicate.
Qed.

(** The heap once the new element is in its slot of the new block. *)
Lemma new_slot_heap h n x g :
  n < g ->
  set_block (h ++ [Some (replicate g None)]) (S (length h))
            (<[n := Some x]> (replicate g None))
  = h ++ [Some (replicate n None ++ Some x :: replicate (g - S n) (@None T))].
Proof. intros Hlt. rewrite set_block_new. by rewrite insert_replicate_at. Qed.

(** The clean-up of a reallocating branch: the new block goes back. *)
Lemma drop_new_block h o b Z Y g :
  b <= length h ->
  RawMemory_dtor (mkRawMemory (Ptr (S (length h)) 0) g)
    (mkState (set_block h b Z ++ [Some Y]) o)
  = Ok tt (mkState (set_block h b Z ++ [None]) o).
Proof.
  intros Hb. unfold RawMemory_dtor. cbn [buffer_].
  erewrite Deallocate_ok.
  - do 2 f_equal. rewrite <- (length_set_block h b Z). by apply insert_segment.
  - rewrite <- (length_set_block h b Z) at 1. apply block_at_new.
Qed.

Lemma drop_new_block' h o Y g :
  RawMemory_dtor (mkRawMemory (Ptr (S (length h)) 0) g)
    (mkState (h ++ [Some Y]) o)
  = Ok tt (mkState (h ++ [None]) o).
Proof. apply (drop_new_block h o 0 []). lia. Qed.

Lemma EmplaceBack_realloc_ok h o this t xs args x :
  o !! this = Some (Some t) -> holds h t xs ->
  size_ t = capacity_ (data_ t) ->
  new_ok (length h) (grown (size_ t)) = true ->
  external args = true -> built args = Some x ->
  no_relocate_throw xs ->
  Vector_EmplaceBack new_ok this args (mkState h o)
  = Ok (Ptr (S (length h)) (size_ t))
       (mkState
          (release (data_ t) h ++ [Some (layout (xs ++ [x]) (grown (size_ t)))])
          (<[this := Some (mkVector (mkRawMemory (Ptr (S (length h)) 0)
                                                 (grown (size_ t)))
                                    (size_ t + 1))]> o)).
Proof.
  intros Ht Hh Hfull Hn He Hx Hr. pose proof Hh as (Hsz & Hle & _).
  pose proof (grown_gt (size_ t)) as Hg.
  unfold Vector_EmplaceBack.
  erewrite bind_ok by by apply get_vec_ok.
  unfold RawMemory_Capacity. rewrite <- Hfull, Nat.eqb_refl.
  erewrite bind_ok; cycle 1.
  { erewrite bind_ok by (apply RawMemory_ctor_ok; [lia|done]).
    erewrite bind_ok; cycle 1.
    { apply on_throw_ok. unfold RawMemory_plus. cbn [capacity_ buffer_].
      destruct (Nat.leb_spec (size_ t) (grown (size_ t))); [|lia].
      erewrite bind_ok by done. norm.
      erewrite bind_ok; cycle 1.
      { eapply emplace_at_ok; [done|done|apply block_at_new|].
        rewrite length_replicate. lia. }
      cbn [GetAddress buffer_]. change (0 + size_ t) with (size_ t).
      rewrite new_slot_heap by lia.
      rewrite bind_assoc. erewrite bind_ok; [reflexivity|].
      eapply (transfer_all_ok _ _ _ xs _ (replicate (size_ t) None)).
      - by apply holds_app.
      - apply holds_blk_le in Hh. lia.
      - by rewrite block_at_new.
      - by rewrite length_replicate.
      - done. }
    erewrite bind_ok; [reflexivity|].
    eapply adopt_ok; [done|].
    do 2 apply releasable_set_block. eapply releasable_app, holds_releasable. done. }
  erewrite bind_ok; cycle 1.
  { apply incr_size_ok. apply list_lookup_insert_eq. by eapply lookup_lt_Some. }
  rewrite list_insert_insert_eq. cbn [data_ size_]. unfold ret.
  erewrite release_after_transfer by done. by rewrite layout_snoc, <- Hsz.
Qed.


Lemma EmplaceBack_bad_alloc h o this t args :
  o !! this = Some (Some t) -> size_ t = capacity_ (data_ t) ->
  new_ok (length h) (grown (size_ t)) = false ->
  Vector_EmplaceBack new_ok this args (mkState h o) = Throw (mkState h o).
Proof.
  intros Ht Hfull Hn. pose proof (grown_gt (size_ t)) as Hg.
  unfold Vector_EmplaceBack.
  erewrite bind_ok by by apply get_vec_ok.
  unfold RawMemory_Capacity. rewrite <- Hfull, Nat.eqb_refl.
  erewrite bind_throw; [done|].
  erewrite bind_throw; [done|]. apply RawMemory_ctor_throw; [lia|done].
Qed.

Lemma EmplaceBack_realloc_ctor_throw h o this t args :
  o !! this = Some (Some t) -> size_ t = capacity_ (data_ t) ->
  new_ok (length h) (grown (size_ t)) = true ->
  external args = true -> built args = None ->
  Vector_EmplaceBack new_ok this args (mkState h o) = Throw (mkState (h ++ [None]) o).
Proof.
  intros Ht Hfull Hn He Hx. pose proof (grown_gt (size_ t)) as Hg.
  unfold Vector_EmplaceBack.
  erewrite bind_ok by by apply get_vec_ok.
  unfold RawMemory_Capacity. rewrite <- Hfull, Nat.eqb_refl.
  erewrite bind_throw; [done|].
  erewrite bind_ok by (apply RawMemory_ctor_ok; [lia|done]).
  erewrite bind_throw; [done|].
  eapply on_throw_throw; [|apply drop_new_block'].
  unfold RawMemory_plus. cbn [capacity_ buffer_].
  destruct (Nat.leb_spec (size_ t) (grown (size_ t))); [|lia].
  erewrite bind_ok by done.
  erewrite bind_throw; [done|]. by apply emplace_at_throw.
Qed.

Lemma EmplaceBack_realloc_relocate_throw h o this t xs1 y xs2 args x :
  o !! this = Some (Some t) -> holds h t (xs1 ++ y :: xs2) ->
  size_ t = capacity_ (data_ t) ->
  new_ok (length h) (grown (size_ t)) = true ->
  external args = true -> built args = Some x ->
  relocate_throws_at xs1 y ->
  Vector_EmplaceBack new_ok this args (mkState h o)
  = Throw (mkState
      (set_block h (blk (buffer_ (data_ t)))
                 (layout (relocated xs1 ++ y :: xs2) (capacity_ (data_ t)))
       ++ [None]) o).
Proof.
  intros Ht Hh Hfull Hn He Hx Hr. pose proof Hh as (Hsz & Hle & _).
  pose proof (grown_gt (size_ t)) as Hg.
  unfold Vector_EmplaceBack.
  erewrite bind_ok by by apply get_vec_ok.
  unfold RawMemory_Capacity.
  destruct (Nat.eqb_spec (size_ t) (capacity_ (data_ t))); [|done].
  erewrite bind_throw; [done|].
  erewrite bind_ok by (apply RawMemory_ctor_ok; [lia|done]).
  erewrite bind_throw; [done|].
  eapply on_throw_throw.
  - unfold RawMemory_plus. cbn [capacity_ buffer_].
    destruct (Nat.leb_spec (size_ t) (grown (size_ t))); [|lia].
    erewrite bind_ok by done. norm.
    erewrite bind_ok; cycle 1.
    { eapply emplace_at_ok; [done|done|apply block_at_new|].
      rewrite length_replicate. lia. }
    cbn [GetAddress buffer_]. change (0 + size_ t) with (size_ t).
    rewrite new_slot_heap by lia.
    rewrite bind_assoc. erewrite bind_throw; [reflexivity|].
    eapply (transfer_all_throw _ _ _ xs1 y xs2 _ (replicate (size_ t) None)).
    + by apply holds_app.
    + apply holds_blk_le in Hh. lia.
    + by rewrite block_at_new.
    + by rewrite length_replicate.
    + done.
  - rewrite heap_after_transfer by by eapply holds_blk_le.
    apply drop_new_block. by eapply holds_blk_le.
Qed.

Lemma EmplaceBack_inplace_ok h o this t xs args x :
  o !! this = Some (Some t) -> holds h t xs ->
  size_ t <> capacity_ (data_ t) ->
  external args = true -> built args = Some x ->
  Vector_EmplaceBack new_ok this args (mkState h o)
  = Ok (buffer_ (data_ t) .+ size_ t)
       (mkState
          (set_block h (blk (buffer_ (data_ t)))
                     (layout (xs ++ [x]) (capacity_ (data_ t))))
          (<[this := Some (mkVector (data_ t) (size_ t + 1))]> o)).
Proof.
  intros Ht Hh Hfull He Hx.
  apply holds_inv in Hh as [(Hdt & _ & Hz)|(b & Hb & Hcap & Hbl & Hsz & Hle)].
  { rewrite Hdt in Hfull. simpl in Hfull. lia. }
  unfold Vector_EmplaceBack.
  erewrite bind_ok by by apply get_vec_ok.
  unfold RawMemory_Capacity. destruct (Nat.eqb_spec (size_ t) (capacity_ (data_ t))); [done|].
  erewrite bind_ok; cycle 1.
  { unfold RawMemory_plus.
    destruct (Nat.leb_spec (size_ t) (capacity_ (data_ t))); [|lia].
    erewrite bind_ok by done. rewrite Hb. norm.
    erewrite bind_ok; [reflexivity|].
    eapply emplace_at_ok; [done|done|exact Hbl|].
    rewrite length_layout by done. simpl. lia. }
  erewrite bind_ok by by apply incr_size_ok.
  unfold ret. rewrite Hb. simpl blk. do 4 f_equal.
  rewrite layout_raw by lia. rewrite layout_snoc.
  apply insert_segment. rewrite length_fmap. simpl. lia.
Qed.

Lemma EmplaceBack_inplace_throw h o this t xs args :
  o !! this = Some (Some t) -> holds h t xs ->
  size_ t <> capacity_ (data_ t) ->
  external args = true -> built args = None ->
  Vector_EmplaceBack new_ok this args (mkState h o) = Throw (mkState h o).
Proof.
  intros Ht Hh Hfull He Hx. pose proof Hh as (Hsz & Hle & _).
  unfold Vector_EmplaceBack.
  erewrite bind_ok by by apply get_vec_ok.
  unfold RawMemory_Capacity. destruct (Nat.eqb_spec (size_ t) (capacity_ (data_ t))); [done|].
  erewrite bind_throw; [done|].
  unfold RawMemory_plus.
  destruct (Nat.leb_spec (size_ t) (capacity_ (data_ t))); [|lia].
  erewrite bind_ok by done.
  erewrite bind_throw; [done|]. by apply emplace_at_throw.
Qed.

(** The two [PushBack] are [EmplaceBack] with one argument. *)

Lemma PushBack_EmplaceBack this value st :
  Vector_PushBack new_ok this value st
  = (Vector_EmplaceBack new_ok this (CopyArg value);; ret tt) st.
Proof.
  unfold Vector_PushBack, Vector_EmplaceBack.
  unfold RawMemory_ctor, bind, on_throw, RawMemory_plus, ret.
  destruct (get_vec this st) as [t st1| |]; [|done|done].
  destruct (size_ t =? RawMemory_Capacity (data_ t)).
  - destruct (Allocate new_ok (grown (size_ t)) st1) as [buf st2| |]; [|done|done].
    cbn [capacity_ buffer_ GetAddress].
    pose proof (grown_gt (size_ t)).
    destruct (Nat.leb_spec (size_ t) (grown (size_ t))); [|lia].
    cbn [emplace_at].
    destruct (copy_construct_at _ _ _); [| |done].
    + destruct (relocate_n _ _ _ _); [| |done].
      * destruct (destroy_n _ _ _); [| |done].
        -- destruct (adopt _ _ _); [|done|done].
           by destruct (incr_size _ _) as [[]| |].
        -- by destruct (RawMemory_dtor _ _) as [[]| |].
      * by destruct (RawMemory_dtor _ _) as [[]| |].
    + by destruct (RawMemory_dtor _ _) as [[]| |].
  - destruct (size_ t <=? capacity_ (data_ t)); [|done].
    cbn [emplace_at].
    destruct (copy_construct_at _ _ _); [|done|done].
    by destruct (incr_size _ _) as [[]| |].
Qed.

Lemma PushBack_move_EmplaceBack this value st :
  Vector_PushBack_move new_ok this value st
  = (Vector_EmplaceBack new_ok this (MoveArg value);; ret tt) st.
Proof.
  unfold Vector_PushBack_move, Vector_EmplaceBack.
  unfold RawMemory_ctor, bind, on_throw, RawMemory_plus, ret.
  destruct (get_vec this st) as [t st1| |]; [|done|done].
  destruct (size_ t =? RawMemory_Capacity (data_ t)).
  - destruct (Allocate new_ok (grown (size_ t)) st1) as [buf st2| |]; [|done|done].
    cbn [capacity_ buffer_ GetAddress].
    pose proof (grown_gt (size_ t)).
    destruct (Nat.leb_spec (size_ t) (grown (size_ t))); [|lia].
    cbn [emplace_at].
    destruct (move_construct_at _ _ _); [| |done].
    + destruct (relocate_n _ _ _ _); [| |done].
      * destruct (destroy_n _ _ _); [| |done].
        -- destruct (adopt _ _ _); [|done|done].
           by destruct (incr_size _ _) as [[]| |].
        -- by destruct (RawMemory_dtor _ _) as [[]| |].
      * by destruct (RawMemory_dtor _ _) as [[]| |].
    + by destruct (RawMemory_dtor _ _) as [[]| |].
  - destruct (size_ t <=? capacity_ (data_ t)); [|done].
    cbn [emplace_at].
    destruct (move_construct_at _ _ _); [|done|done].
    by destruct (incr_size _ _) as [[]| |].
Qed.

(** ** [Emplace], the branch that reallocates *)

Lemma ptr_diff_add q n : ptr_diff (q .+ n) q = Some n.
Proof.
  unfold ptr_diff, ptr_add. cbn [blk off]. rewrite Nat.eqb_refl.
  destruct (Nat.leb_spec (off q) (off q + n)); [|lia]. simpl. f_equal. lia.
Qed.

Lemma relocated_app xs ys : relocated (xs ++ ys) = relocated xs ++ relocated ys.
Proof. unfold relocated. destruct relocate_by_move; [apply fmap_app|done]. Qed.

Lemma no_relocate_throw_app xs ys :
  no_relocate_throw (xs ++ ys) <-> no_relocate_throw xs /\ no_relocate_throw ys.
Proof.
  unfold no_relocate_throw, no_move_throw, no_copy_throw.
  destruct relocate_by_move; apply Forall_app.
Qed.

(** The elements before and after the new one go to their slots of the
    new block, and the old block is emptied. *)
Lemma transfer_split_ok h o t xs1 xs2 x bd g :
  holds h t (xs1 ++ xs2) -> blk (buffer_ (data_ t)) <> bd ->
  block_at h bd = Some (replicate (length xs1) None
                        ++ Some x :: replicate (g - S (length xs1)) None) ->
  length (xs1 ++ xs2) < g ->
  no_relocate_throw (xs1 ++ xs2) ->
  (relocate_n (GetAddress (data_ t)) (length xs1) (Ptr bd 0);;
   relocate_n (GetAddress (data_ t) .+ length xs1) (size_ t - length xs1)
              (Ptr bd 0 .+ length xs1 .+ 1);;
   destroy_n (GetAddress (data_ t)) (size_ t)) (mkState h o)
  = Ok tt (mkState
      (set_block (set_block h (blk (buffer_ (data_ t)))
                            (replicate (capacity_ (data_ t)) None))
                 bd (layout (xs1 ++ x :: xs2) g)) o).
Proof.
  intros Hh Hne Hd Hg Hc. apply no_relocate_throw_app in Hc as [Hc1 Hc2].
  rewrite length_app in Hg.
  assert (layout (xs1 ++ x :: xs2) g
          = (Some <$> xs1) ++ Some x :: (Some <$> xs2)
            ++ replicate (g - S (length xs1) - length xs2) None) as Hlay.
  { unfold layout. rewrite fmap_app, length_app, <- app_assoc. simpl.
    by replace (g - (length xs1 + S (length xs2)))
      with (g - S (length xs1) - length xs2) by lia. }
  apply holds_inv in Hh as [(Hdt & Hnil & Hz)|(b & Hb & Hcap & Hbl & Hsz & Hle)].
  - apply app_eq_nil in Hnil as [-> ->]. rewrite Hdt, Hz. simpl in *.
    unfold relocate_n. destruct relocate_by_move; simpl;
      unfold bind, ret; do 2 f_equal; symmetry; apply set_block_id;
      rewrite Hd, Hlay; simpl; by rewrite Nat.sub_0_r.
  - unfold GetAddress. rewrite Hb in *. simpl in Hne. rewrite Hsz.
    rewrite length_app in Hle |- *.
    replace (length xs1 + length xs2 - length xs1) with (length xs2) by lia.
    unfold layout in Hbl. rewrite fmap_app, <- app_assoc in Hbl.
    erewrite bind_ok; cycle 1.
    { eapply (relocate_n_ok xs1 [] _ [] (replicate (length xs1) None));
        try done. by rewrite length_replicate. }
    simpl app. norm. simpl Nat.add.
    erewrite bind_ok; cycle 1.
    { eapply (relocate_n_ok xs2 (Some <$> relocated xs1) _
                ((Some <$> xs1) ++ [Some x]) (replicate (length xs2) None)
                (replicate (g - S (length xs1) - length xs2) None)).
      - done.
      - rewrite block_at_set_block_ne by done. by erewrite block_at_set_block.
      - erewrite block_at_set_block
          by (by rewrite block_at_set_block_ne by done).
        rewrite <- app_assoc. simpl. do 3 f_equal.
        rewrite <- replicate_add. f_equal. lia.
      - by rewrite length_replicate.
      - done.
      - by rewrite length_fmap, length_relocated.
      - rewrite length_app, length_fmap. simpl. lia.
      - done. }
    erewrite (destroy_n_ok (relocated xs1 ++ relocated xs2) []); cycle 1.
    + rewrite block_at_set_block_ne by done. erewrite block_at_set_block; cycle 1.
      { rewrite block_at_set_block_ne by done. by erewrite block_at_set_block. }
      simpl. by rewrite fmap_app, <- app_assoc.
    + done.
    + by rewrite length_app, !length_relocated.
    + simpl app.
      repeat first [rewrite set_block_set_block
                   |rewrite (set_block_comm _ bd (S b)) by done].
      simpl blk. rewrite Hlay, <- !app_assoc. simpl.
      rewrite <- replicate_add, length_app.
      by replace (length xs1 + length xs2
                  + (capacity_ (data_ t) - (length xs1 + length xs2)))
        with (capacity_ (data_ t)) by lia.
Qed.

Lemma relocate_throws_at_app xs1 a y :
  relocate_throws_at (xs1 ++ a) y <->
  no_relocate_throw xs1 /\ relocate_throws_at a y.
Proof.
  unfold relocate_throws_at, no_relocate_throw, no_move_throw, no_copy_throw.
  destruct relocate_by_move; rewrite Forall_app; tauto.
Qed.

Lemma transfer_split_throw h o t ys1 y ys2 x bd g k :
  holds h t (ys1 ++ y :: ys2) -> blk (buffer_ (data_ t)) <> bd ->
  block_at h bd = Some (replicate k None
                        ++ Some x :: replicate (g - S k) None) ->
  k <= length (ys1 ++ y :: ys2) -> length (ys1 ++ y :: ys2) < g ->
  relocate_throws_at ys1 y ->
  exists Y,
  (relocate_n (GetAddress (data_ t)) k (Ptr bd 0);;
   relocate_n (GetAddress (data_ t) .+ k) (size_ t - k) (Ptr bd 0 .+ k .+ 1);;
   destroy_n (GetAddress (data_ t)) (size_ t)) (mkState h o)
  = Throw (mkState
      (set_block (set_block h (blk (buffer_ (data_ t)))
                   (layout (relocated ys1 ++ y :: ys2) (capacity_ (data_ t))))
                 bd Y) o).
Proof.
  intros Hh Hne Hd Hp Hg Hc.
  apply holds_inv in Hh as [(Hdt & Hnil & Hz)|(b & Hb & Hcap & Hbl & Hsz & Hle)].
  { by destruct ys1. }
  unfold GetAddress. rewrite Hb in *. simpl in Hne. rewrite Hsz.
  destruct (decide (k <= length ys1)) as [Hle1|Hgt].
  - rewrite <- (take_drop k ys1) in Hbl, Hc, Hsz, Hle, Hg, Hp |- *.
    set (xs1 := take k ys1) in *. set (a := drop k ys1) in *.
    assert (length xs1 = k) as Hp1 by (by apply length_take_le).
    apply relocate_throws_at_app in Hc as [Hc1 Hc2].
    rewrite <- app_assoc in Hbl, Hsz, Hle, Hg, Hp |- *.
    rewrite (length_app xs1) in Hg, Hle, Hp |- *.
    unfold layout in Hbl. rewrite fmap_app, <- app_assoc in Hbl.
    erewrite bind_ok; cycle 1.
    { eapply (relocate_n_ok xs1 [] _ [] (replicate k None));
        try done. by rewrite length_replicate. }
    simpl app. norm. simpl Nat.add.
    replace (length xs1 + length (a ++ y :: ys2) - k)
      with (length (a ++ y :: ys2)) by lia.
    eexists. erewrite bind_throw; [reflexivity|].
    erewrite (relocate_n_throw a y ys2 (Some <$> relocated xs1) _
                ((Some <$> xs1) ++ [Some x])
                (replicate (length (a ++ y :: ys2)) None)
                (replicate (g - S k - length (a ++ y :: ys2)) None)); cycle 1.
    + done.
    + rewrite block_at_set_block_ne by done. by erewrite block_at_set_block.
    + erewrite block_at_set_block
        by (by rewrite block_at_set_block_ne by done).
      rewrite <- app_assoc. simpl. do 3 f_equal.
      rewrite <- replicate_add. f_equal. lia.
    + by rewrite length_replicate.
    + done.
    + by rewrite length_fmap, length_relocated.
    + rewrite length_app, length_fmap. simpl. lia.
    + done.
    + repeat first [rewrite set_block_set_block
                   |rewrite (set_block_comm _ bd (S b)) by done].
      simpl blk. do 4 f_equal. unfold layout.
      rewrite ?relocated_app, ?fmap_app, <- ?app_assoc.
      rewrite ?length_app, ?length_relocated. seg_eq.
  - rewrite <- (take_drop (k - S (length ys1)) ys2) in Hbl, Hsz, Hle, Hg, Hp.
    set (b1 := take (k - S (length ys1)) ys2) in *.
    set (b2 := drop (k - S (length ys1)) ys2) in *.
    rewrite !length_app in Hp. simpl in Hp. rewrite length_app in Hp.
    assert (length b1 = k - S (length ys1)) as Hb1.
    { unfold b1. apply length_take_le.
      rewrite <- (take_drop (k - S (length ys1)) ys2), length_app.
      fold b1 b2. lia. }
    assert (length (ys1 ++ y :: b1) = k) as Hp1.
    { rewrite length_app. simpl. lia. }
    unfold layout in Hbl.
    rewrite (app_comm_cons b1 b2 y), (app_assoc ys1), fmap_app, <- app_assoc in Hbl.
    eexists. erewrite bind_throw; [reflexivity|].
    erewrite (relocate_n_throw ys1 y b1 [] _ [] (replicate k None)); cycle 1.
    + done.
    + exact Hbl.
    + exact Hd.
    + by rewrite length_replicate.
    + done.
    + done.
    + done.
    + done.
    + simpl app. simpl blk. do 3 f_equal.
      apply (f_equal (fun bl => <[b := Some bl]> h)). unfold layout.
      rewrite <- (take_drop (k - S (length ys1)) ys2). fold b1 b2.
      rewrite (app_comm_cons b1 b2 y), (app_assoc (relocated ys1)).
      rewrite (fmap_app _ (relocated ys1 ++ y :: b1)), <- ?app_assoc.
      rewrite ?length_app, ?length_relocated. simpl.
      rewrite ?length_app, ?length_relocated. seg_eq.
Qed.

Lemma Emplace_realloc_ok h o this t xs1 xs2 args x :
  o !! this = Some (Some t) -> holds h t (xs1 ++ xs2) ->
  size_ t = capacity_ (data_ t) ->
  new_ok (length h) (grown (size_ t)) = true ->
  external args = true -> built args = Some x ->
  no_relocate_throw (xs1 ++ xs2) ->
  Vector_Emplace new_ok this (buffer_ (data_ t) .+ length xs1) args (mkState h o)
  = Ok (Ptr (S (length h)) (length xs1))
       (mkState
          (release (data_ t) h
           ++ [Some (layout (xs1 ++ x :: xs2) (grown (size_ t)))])
          (<[this := Some (mkVector (mkRawMemory (Ptr (S (length h)) 0)
                                                 (grown (size_ t)))
                                    (size_ t + 1))]> o)).
Proof.
  intros Ht Hh Hfull Hn He Hx Hr. pose proof Hh as (Hsz & Hle & _).
  pose proof (grown_gt (size_ t)) as Hg. rewrite length_app in Hsz.
  unfold Vector_Emplace, Vector_begin.
  erewrite bind_ok by by apply get_vec_ok.
  erewrite bind_ok by (by erewrite bind_ok by by apply get_vec_ok).
  unfold GetAddress. rewrite ptr_diff_add. erewrite bind_ok by done.
  unfold RawMemory_Capacity.
  destruct (Nat.eqb_spec (size_ t) (capacity_ (data_ t))); [|done].
  erewrite bind_ok; cycle 1.
  { erewrite bind_ok by (apply RawMemory_ctor_ok; [lia|done]).
    erewrite bind_ok; cycle 1.
    { apply on_throw_ok. unfold RawMemory_plus. cbn [capacity_ buffer_].
      destruct (Nat.leb_spec (length xs1) (grown (size_ t))); [|lia].
      erewrite bind_ok by done. norm.
      erewrite bind_ok; cycle 1.
      { eapply emplace_at_ok; [done|done|apply block_at_new|].
        rewrite length_replicate. lia. }
      cbn [GetAddress buffer_]. change (0 + length xs1) with (length xs1).
      rewrite new_slot_heap by lia.
      rewrite bind_assoc. rewrite bind_assoc.
      erewrite bind_ok; [reflexivity|].
      rewrite <- bind_assoc.
      eapply (transfer_split_ok _ _ _ xs1 xs2 x).
      - by apply holds_app.
      - apply holds_blk_le in Hh. lia.
      - by rewrite block_at_new.
      - rewrite length_app. lia.
      - done. }
    erewrite bind_ok; [reflexivity|].
    eapply adopt_ok; [done|].
    do 2 apply releasable_set_block. eapply releasable_app, holds_releasable. done. }
  erewrite bind_ok; cycle 1.
  { apply incr_size_ok. apply list_lookup_insert_eq. by eapply lookup_lt_Some. }
  rewrite list_insert_insert_eq. cbn [data_ size_]. unfold ret.
  by erewrite release_after_transfer by done.
Qed.

Lemma Emplace_bad_alloc h o this t k args :
  o !! this = Some (Some t) -> size_ t = capacity_ (data_ t) ->
  new_ok (length h) (grown (size_ t)) = false ->
  Vector_Emplace new_ok this (buffer_ (data_ t) .+ k) args (mkState h o)
  = Throw (mkState h o).
Proof.
  intros Ht Hfull Hn. pose proof (grown_gt (size_ t)) as Hg.
  unfold Vector_Emplace, Vector_begin.
  erewrite bind_ok by by apply get_vec_ok.
  erewrite bind_ok by (by erewrite bind_ok by by apply get_vec_ok).
  unfold GetAddress. rewrite ptr_diff_add. erewrite bind_ok by done.
  unfold RawMemory_Capacity.
  destruct (Nat.eqb_spec (size_ t) (capacity_ (data_ t))); [|done].
  erewrite bind_throw; [done|].
  erewrite bind_throw; [done|]. apply RawMemory_ctor_throw; [lia|done].
Qed.

Lemma Emplace_realloc_ctor_throw h o this t k args :
  o !! this = Some (Some t) -> size_ t = capacity_ (data_ t) ->
  k <= size_ t ->
  new_ok (length h) (grown (size_ t)) = true ->
  external args = true -> built args = None ->
  Vector_Emplace new_ok this (buffer_ (data_ t) .+ k) args (mkState h o)
  = Throw (mkState (h ++ [None]) o).
Proof.
  intros Ht Hfull Hk Hn He Hx. pose proof (grown_gt (size_ t)) as Hg.
  unfold Vector_Emplace, Vector_begin.
  erewrite bind_ok by by apply get_vec_ok.
  erewrite bind_ok by (by erewrite bind_ok by by apply get_vec_ok).
  unfold GetAddress. rewrite ptr_diff_add. erewrite bind_ok by done.
  unfold RawMemory_Capacity.
  destruct (Nat.eqb_spec (size_ t) (capacity_ (data_ t))); [|done].
  erewrite bind_throw; [done|].
  erewrite bind_ok by (apply RawMemory_ctor_ok; [lia|done]).
  erewrite bind_throw; [done|].
  eapply on_throw_throw; [|apply drop_new_block'].
  unfold RawMemory_plus. cbn [capacity_ buffer_].
  destruct (Nat.leb_spec k (grown (size_ t))); [|lia].
  erewrite bind_ok by done.
  erewrite bind_throw; [done|]. by apply emplace_at_throw.
Qed.

Lemma Emplace_realloc_relocate_throw h o this t ys1 y ys2 k args x :
  o !! this = Some (Some t) -> holds h t (ys1 ++ y :: ys2) ->
  size_ t = capacity_ (data_ t) -> k <= size_ t ->
  new_ok (length h) (grown (size_ t)) = true ->
  external args = true -> built args = Some x ->
  relocate_throws_at ys1 y ->
  Vector_Emplace new_ok this (buffer_ (data_ t) .+ k) args (mkState h o)
  = Throw (mkState
      (set_block h (blk (buffer_ (data_ t)))
                 (layout (relocated ys1 ++ y :: ys2) (capacity_ (data_ t)))
       ++ [None]) o).
Proof.
  intros Ht Hh Hfull Hk Hn He Hx Hr. pose proof Hh as (Hsz & Hle & _).
  pose proof (grown_gt (size_ t)) as Hg.
  unfold Vector_Emplace, Vector_begin.
  erewrite bind_ok by by apply get_vec_ok.
  erewrite bind_ok by (by erewrite bind_ok by by apply get_vec_ok).
  unfold GetAddress. rewrite ptr_diff_add. erewrite bind_ok by done.
  unfold RawMemory_Capacity.
  destruct (Nat.eqb_spec (size_ t) (capacity_ (data_ t))); [|done].
  erewrite bind_throw; [done|].
  erewrite bind_ok by (apply RawMemory_ctor_ok; [lia|done]).
  erewrite bind_throw; [done|].
  destruct (transfer_split_throw
              (h ++ [Some (replicate k None
                           ++ Some x :: replicate (grown (size_ t) - S k) None)])
              o t ys1 y ys2 x (S (length h)) (grown (size_ t)) k) as [Y HY].
  { by apply holds_app. }
  { apply holds_blk_le in Hh. lia. }
  { by rewrite block_at_new. }
  { lia. }
  { lia. }
  { done. }
  eapply on_throw_throw.
  - unfold RawMemory_plus. cbn [capacity_ buffer_].
    destruct (Nat.leb_spec k (grown (size_ t))); [|lia].
    erewrite bind_ok by done. norm.
    erewrite bind_ok; cycle 1.
    { eapply emplace_at_ok; [done|done|apply block_at_new|].
      rewrite length_replicate. lia. }
    cbn [GetAddress buffer_]. change (0 + k) with k.
    rewrite new_slot_heap by lia.
    rewrite bind_assoc. rewrite bind_assoc.
    erewrite bind_throw; [reflexivity|].
    rewrite <- bind_assoc. exact HY.
  - rewrite heap_after_transfer by by eapply holds_blk_le.
    apply drop_new_block. by eapply holds_blk_le.
Qed.

(** ** [Emplace], the branch that works in place *)

Lemma move_construct_at_same_ok h o b i j bl x :
  block_at h b = Some bl -> bl !! j = Some (Some x) -> i < length bl -> i <> j ->
  move_throws x = false ->
  move_construct_at (Ptr b i) (Ref (Ptr b j)) (mkState h o)
  = Ok tt (mkState (set_block h b (<[j := Some (moved x)]> (<[i := Some x]> bl))) o).
Proof.
  intros Hb Hj Hi Hne Hx. unfold move_construct_at, read_arg.
  erewrite bind_ok by (eapply load_ok; eauto). rewrite Hx.
  erewrite bind_ok by (by apply construct_at_ok).
  erewrite store_ok;
    [|by erewrite block_at_set_block|by rewrite list_lookup_insert_ne].
  by rewrite set_block_set_block.
Qed.

Lemma Emplace_inplace_ok h o this t ys z c1 c2 args x :
  o !! this = Some (Some t) -> holds h t (ys ++ [z]) ->
  size_ t <> capacity_ (data_ t) ->
  ys ++ [moved z] = c1 ++ c2 ->
  external args = true -> built args = Some x ->
  move_throws z = false -> no_move_throw c2 ->
  Vector_Emplace new_ok this (buffer_ (data_ t) .+ length c1) args (mkState h o)
  = Ok (buffer_ (data_ t) .+ length c1)
       (mkState
          (set_block h (blk (buffer_ (data_ t)))
                     (layout (c1 ++ x :: c2) (capacity_ (data_ t))))
          (<[this := Some (mkVector (data_ t) (size_ t + 1))]> o)).
Proof.
  intros Ht Hh Hfull Hcur He Hx Hz Hc2.
  apply holds_inv in Hh as [(_ & Hnil & _)|(b & Hb & Hcap & Hbl & Hsz & Hle)].
  { by destruct ys. }
  rewrite length_app in Hsz, Hle. simpl in Hsz, Hle.
  assert (length c1 + length c2 = S (length ys)) as Hlen.
  { rewrite <- length_app, <- Hcur, length_app. simpl. lia. }
  unfold Vector_Emplace, Vector_begin.
  erewrite bind_ok by by apply get_vec_ok.
  erewrite bind_ok by (by erewrite bind_ok by by apply get_vec_ok).
  unfold GetAddress. rewrite ptr_diff_add. erewrite bind_ok by done.
  unfold RawMemory_Capacity.
  destruct (Nat.eqb_spec (size_ t) (capacity_ (data_ t))); [done|].
  destruct (Nat.eqb_spec (size_ t) 0); [lia|]. cbn [negb].
  rewrite Hb. norm. change (0 + length c1) with (length c1).
  unfold RawMemory_plus. rewrite Hb.
  destruct (Nat.leb_spec (size_ t) (capacity_ (data_ t))); [|lia].
  destruct (Nat.leb_spec (length c1) (capacity_ (data_ t))); [|lia].
  rewrite Hsz. replace (length ys + 1) with (S (length ys)) by lia.
  norm. change (0 + S (length ys)) with (S (length ys)).
  rewrite ptr_sub_S.
  replace (layout (ys ++ [z]) (capacity_ (data_ t)))
    with ((Some <$> ys) ++ Some z :: None
          :: replicate (capacity_ (data_ t) - S (S (length ys))) None) in Hbl.
  2:{ rewrite layout_snoc.
      by replace (capacity_ (data_ t) - S (length ys))
        with (S (capacity_ (data_ t) - S (S (length ys)))) by lia. }
  erewrite bind_ok; cycle 1.
  { erewrite bind_ok; cycle 1.
    { erewrite bind_ok by done.
      erewrite bind_ok; cycle 1.
      { eapply move_construct_at_same_ok; [exact Hbl| | |lia|done].
        - apply lookup_segment. by rewrite length_fmap.
        - rewrite length_app, length_fmap. simpl. lia. }
      rewrite insert_segment2 by (by rewrite length_fmap).
      rewrite insert_segment by (by rewrite length_fmap).
      rewrite <- snoc_app.
      change ((Some <$> ys) ++ [Some (moved z)]) with
        ((Some <$> ys) ++ (Some <$> [moved z])).
      rewrite <- fmap_app, Hcur, fmap_app, <- app_assoc.
      unfold move_backward. unfold ptr_diff. cbn [blk off].
      rewrite Nat.eqb_refl.
      destruct (Nat.leb_spec (length c1) (S (length ys))); [|lia].
      simpl andb. cbv iota.
      erewrite bind_ok; cycle 1.
      { erewrite bind_ok by done.
        replace (S (length ys) - length c1) with (length c2) by lia.
        replace (S (length ys) + 1) with (S (S (length ys))) by lia.
        eapply (move_backward_n_ok c2 (Some <$> c1) z).
        - by erewrite block_at_set_block.
        - done.
        - rewrite length_fmap. lia.
        - done. }
      rewrite set_block_set_block.
      eapply destroy_at_ok; [by erewrite block_at_set_block|].
      apply lookup_segment. by rewrite length_fmap. }
    rewrite set_block_set_block.
    rewrite insert_segment by (by rewrite length_fmap).
    erewrite bind_ok by done.
    erewrite bind_ok; [reflexivity|].
    eapply emplace_at_ok; [done|done|by erewrite block_at_set_block|].
    rewrite !length_app, !length_fmap. simpl. rewrite length_app, length_fmap. lia. }
  erewrite bind_ok by by apply incr_size_ok.
  unfold ret. rewrite set_block_set_block. simpl blk.
  rewrite insert_segment by (by rewrite length_fmap).
  rewrite Hsz. do 4 f_equal. unfold layout.
  rewrite fmap_app, <- app_assoc, length_app. simpl. seg_eq.
  all: f_equal; lia.
Qed.

Lemma Emplace_empty_inplace_ok h o this t args x :
  o !! this = Some (Some t) -> holds h t [] ->
  size_ t <> capacity_ (data_ t) ->
  external args = true -> built args = Some x ->
  Vector_Emplace new_ok this (buffer_ (data_ t) .+ 0) args (mkState h o)
  = Ok (buffer_ (data_ t) .+ 0)
       (mkState
          (set_block h (blk (buffer_ (data_ t)))
                     (layout [x] (capacity_ (data_ t))))
          (<[this := Some (mkVector (data_ t) (size_ t + 1))]> o)).
Proof.
  intros Ht Hh Hfull He Hx.
  apply holds_inv in Hh as [(Hdt & _ & Hz)|(b & Hb & Hcap & Hbl & Hsz & Hle)].
  { rewrite Hdt in Hfull. simpl in Hfull. lia. }
  simpl in Hsz.
  unfold Vector_Emplace, Vector_begin.
  erewrite bind_ok by by apply get_vec_ok.
  erewrite bind_ok by (by erewrite bind_ok by by apply get_vec_ok).
  unfold GetAddress. rewrite ptr_diff_add. erewrite bind_ok by done.
  unfold RawMemory_Capacity.
  destruct (Nat.eqb_spec (size_ t) (capacity_ (data_ t))); [done|].
  rewrite Hsz. cbn [Nat.eqb negb].
  erewrite bind_ok; cycle 1.
  { erewrite bind_ok by done.
    unfold RawMemory_plus. cbn [Nat.leb]. erewrite bind_ok by done.
    rewrite Hb. norm.
    erewrite bind_ok; [reflexivity|].
    eapply emplace_at_ok; [done|done|exact Hbl|].
    rewrite length_layout by (simpl; lia). lia. }
  erewrite bind_ok by by apply incr_size_ok.
  unfold ret. rewrite Hb, Hsz. simpl blk. do 4 f_equal.
  unfold layout. simpl.
  by replace (capacity_ (data_ t) - 0) with (S (capacity_ (data_ t) - 1)) by lia.
Qed.

(** ** [Swap] and the moves of a vector *)

Lemma Swap_ok h o this other t v :
  this <> other ->
  o !! this = Some (Some t) -> o !! other = Some (Some v) ->
  Vector_Swap this other (mkState h o)
  = Ok tt (mkState h (<[other := Some t]> (<[this := Some v]> o))).
Proof.
  intros Hne Ht Hv.
  pose proof (lookup_lt_Some _ _ _ Ht) as Hlt.
  pose proof (lookup_lt_Some _ _ _ Hv) as Hlv.
  unfold Vector_Swap.
  erewrite bind_ok by by apply get_vec_ok.
  erewrite bind_ok by by apply get_vec_ok.
  unfold RawMemory_Swap.
  erewrite bind_ok by by eapply set_data_ok.
  erewrite bind_ok.
  2:{ eapply set_data_ok. by rewrite list_lookup_insert_ne. }
  erewrite bind_ok.
  2:{ apply get_vec_ok. apply list_lookup_insert_eq. by rewrite length_insert. }
  erewrite bind_ok.
  2:{ apply get_vec_ok. rewrite list_lookup_insert_ne by done.
      by apply list_lookup_insert_eq. }
  erewrite bind_ok.
  2:{ eapply set_size_ok. apply list_lookup_insert_eq. by rewrite length_insert. }
  erewrite set_size_ok.
  2:{ rewrite list_lookup_insert_ne by done. rewrite list_lookup_insert_ne by done.
      by apply list_lookup_insert_eq. }
  cbn [data_ size_]. destruct t as [[tb tc] ts], v as [[vb vc] vs]. cbn.
  do 2 f_equal.
  rewrite list_insert_insert_eq.
  rewrite (list_insert_insert_ne _ other this) by done.
  rewrite list_insert_insert_eq.
  by rewrite (list_insert_insert_ne _ this other) by done.
Qed.

Lemma Swap_self h o this t :
  o !! this = Some (Some t) ->
  Vector_Swap this this (mkState h o) = Ok tt (mkState h o).
Proof.
  intros Ht. pose proof (lookup_lt_Some _ _ _ Ht) as Hlt.
  unfold Vector_Swap.
  erewrite bind_ok by by apply get_vec_ok.
  erewrite bind_ok by by apply get_vec_ok.
  unfold RawMemory_Swap.
  erewrite bind_ok by by eapply set_data_ok.
  erewrite bind_ok.
  2:{ eapply set_data_ok. by apply list_lookup_insert_eq. }
  erewrite bind_ok.
  2:{ apply get_vec_ok. apply list_lookup_insert_eq. by rewrite length_insert. }
  erewrite bind_ok.
  2:{ apply get_vec_ok. apply list_lookup_insert_eq. by rewrite length_insert. }
  erewrite bind_ok.
  2:{ eapply set_size_ok. apply list_lookup_insert_eq. by rewrite length_insert. }
  erewrite set_size_ok.
  2:{ apply list_lookup_insert_eq. by rewrite !length_insert. }
  cbn [data_ size_]. destruct t as [[tb tc] ts]. cbn.
  do 2 f_equal. rewrite !list_insert_insert_eq. by apply list_insert_id.
Qed.

Lemma obj_lookup st this v : obj st this = Some v <-> objs st !! this = Some (Some v).
Proof.
  unfold obj. destruct (objs st !! this) as [[w|]|]; split; congruence.
Qed.

Lemma elements_same_heap st st' v : heap st' = heap st -> elements st' v = elements st v.
Proof. unfold elements. by intros ->. Qed.

Lemma valid_same_heap st st' v : heap st' = heap st -> valid st' v = valid st v.
Proof. unfold valid. by intros ->. Qed.

Lemma move_ctor_ok h o other v :
  o !! other = Some (Some v) ->
  Vector_move_ctor other (mkState h o)
  = Ok (length o)
       (mkState h (<[other := Some (mkVector RawMemory_default 0)]>
                     (o ++ [Some v]))).
Proof.
  intros Hv. pose proof (lookup_lt_Some _ _ _ Hv) as Hlt.
  unfold Vector_move_ctor, Vector_default.
  erewrite bind_ok by done. cbn [objs heap with_objs].
  erewrite bind_ok.
  2:{ eapply Swap_ok.
      - lia.
      - by apply list_lookup_middle.
      - by apply lookup_app_l_Some. }
  unfold ret. do 3 f_equal. by apply insert_segment.
Qed.

(** ** The vector after an operation *)

Lemma holds_update h t xs ys :
  holds h t xs -> length ys <= capacity_ (data_ t) ->
  holds (set_block h (blk (buffer_ (data_ t))) (layout ys (capacity_ (data_ t))))
        (mkVector (data_ t) (length ys)) ys.
Proof.
  intros Hh Hle.
  apply holds_inv in Hh as [(Hdt & _ & _)|(b & Hb & Hcap & Hbl & _)].
  - rewrite Hdt in *. simpl in *. apply holds_null; [done|simpl|].
    + by destruct ys; [|simpl in Hle; lia].
    + by destruct ys; [|simpl in Hle; lia].
  - destruct t as [[buf cap] sz]. cbn [data_ buffer_ capacity_ size_] in *.
    subst buf. cbn [blk].
    apply holds_block; [done|done|done|].
    by erewrite (block_at_set_block _ (S b)).
Qed.

Lemma length_release r h : length (release r h) = length h.
Proof. unfold release. case_decide; [done|]. apply length_insert. Qed.

Lemma holds_fresh h r ys g n :
  length ys <= g -> g <> 0 -> n = length ys ->
  holds (release r h ++ [Some (layout ys g)])
        (mkVector (mkRawMemory (Ptr (S (length h)) 0) g) n) ys.
Proof.
  intros Hle Hg ->. apply holds_block; [done|done|done|].
  rewrite <- (length_release r h). apply block_at_new.
Qed.

Lemma is_vector_intro h o this t ys :
  o !! this = Some (Some t) -> holds h t ys ->
  is_vector (mkState h o) this (capacity_ (data_ t)) ys.
Proof.
  intros Ht Hh. exists t. pose proof Hh as (Hsz & _).
  apply (holds_valid (mkState h o)) in Hh as [Hv He].
  split; [by apply obj_lookup|]. done.
Qed.

Lemma is_vector_holds st this c xs :
  is_vector st this c xs ->
  exists t, objs st !! this = Some (Some t) /\ holds (heap st) t xs /\
            capacity_ (data_ t) = c.
Proof.
  intros (t & Ht & Hv & Hc & Hsz & He). exists t.
  split; [by apply obj_lookup|]. split; [|done].
  rewrite <- He. by apply valid_holds.
Qed.

(** ** The destructor and the copy constructor *)

Lemma delete_obj_ok h o this v :
  o !! this = Some (Some v) ->
  delete_obj this (mkState h o) = Ok tt (mkState h (<[this := None]> o)).
Proof. intros Hv. unfold delete_obj. by erewrite bind_ok by by apply get_vec_ok. Qed.

Lemma destroy_all_ok h o t xs :
  holds h t xs ->
  destroy_n (GetAddress (data_ t)) (size_ t) (mkState h o)
  = Ok tt (mkState (set_block h (blk (buffer_ (data_ t)))
                              (replicate (capacity_ (data_ t)) None)) o).
Proof.
  intros Hh.
  apply holds_inv in Hh as [(Hdt & -> & Hz)|(b & Hb & Hcap & Hbl & Hsz & Hle)].
  - by rewrite Hdt, Hz.
  - unfold GetAddress. rewrite Hb, Hsz.
    erewrite (destroy_n_ok xs []); [|exact Hbl|done|done].
    simpl app. simpl blk. do 3 f_equal. symmetry. by apply replicate_split.
Qed.

Lemma dtor_ok h o this t xs :
  o !! this = Some (Some t) -> holds h t xs ->
  Vector_dtor this (mkState h o)
  = Ok tt (mkState (release (data_ t) h) (<[this := None]> o)).
Proof.
  intros Ht Hh. unfold Vector_dtor.
  erewrite bind_ok by by apply get_vec_ok.
  erewrite bind_ok by by eapply destroy_all_ok.
  erewrite bind_ok.
  2:{ apply RawMemory_dtor_ok. by eapply releasable_set_block, holds_releasable. }
  rewrite release_set_block by by eapply holds_releasable.
  by erewrite delete_obj_ok.
Qed.

Lemma new_obj_ok h o v :
  new_obj v (mkState h o) = Ok (length o) (mkState h (o ++ [Some v])).
Proof. done. Qed.

Lemma layout_full xs : layout xs (length xs) = Some <$> xs.
Proof. unfold layout. by rewrite Nat.sub_diag, app_nil_r. Qed.

Lemma copy_ctor_empty h o other v :
  o !! other = Some (Some v) -> size_ v = 0 ->
  Vector_copy_ctor new_ok other (mkState h o)
  = Ok (length o) (mkState h (o ++ [Some (mkVector RawMemory_default 0)])).
Proof.
  intros Hv Hz. unfold Vector_copy_ctor.
  erewrite bind_ok by by apply get_vec_ok. by rewrite Hz.
Qed.

Lemma copy_ctor_bad_alloc h o other v :
  o !! other = Some (Some v) -> size_ v <> 0 ->
  new_ok (length h) (size_ v) = false ->
  Vector_copy_ctor new_ok other (mkState h o) = Throw (mkState h o).
Proof.
  intros Hv Hz Hn. unfold Vector_copy_ctor.
  erewrite bind_ok by by apply get_vec_ok.
  erewrite bind_throw; [done|]. by apply RawMemory_ctor_throw.
Qed.

Lemma copy_ctor_ok h o other v xs :
  o !! other = Some (Some v) -> holds h v xs -> size_ v <> 0 ->
  new_ok (length h) (size_ v) = true -> no_copy_throw xs ->
  Vector_copy_ctor new_ok other (mkState h o)
  = Ok (length o)
       (mkState (h ++ [Some (layout xs (length xs))])
                (o ++ [Some (mkVector (mkRawMemory (Ptr (S (length h)) 0) (length xs))
                                      (length xs))])).
Proof.
  intros Hv Hh Hz Hn Hc. unfold Vector_copy_ctor.
  erewrite bind_ok by by apply get_vec_ok.
  erewrite bind_ok by by apply RawMemory_ctor_ok.
  apply holds_inv in Hh as [(_ & _ & ?)|(b & Hb & Hcap & Hbl & Hsz & Hle)]; [done|].
  unfold GetAddress. cbn [buffer_]. rewrite Hb, Hsz.
  erewrite bind_ok.
  2:{ apply on_throw_ok. unfold uninitialized_copy_n.
      eapply (uninitialized_copy_loop_ok xs [] _ [] [] (replicate (length xs) None) []);
        try done.
      - apply block_at_lt in Hbl. lia.
      - by apply block_at_app.
      - rewrite block_at_new. simpl. by rewrite app_nil_r.
      - by rewrite length_replicate. }
  rewrite new_obj_ok. simpl app. rewrite app_nil_r, set_block_new.
  by rewrite layout_full.
Qed.

Lemma copy_ctor_throw h o other v xs1 x xs2 :
  o !! other = Some (Some v) -> holds h v (xs1 ++ x :: xs2) ->
  new_ok (length h) (size_ v) = true ->
  no_copy_throw xs1 -> copy_throws x = true ->
  Vector_copy_ctor new_ok other (mkState h o) = Throw (mkState (h ++ [None]) o).
Proof.
  intros Hv Hh Hn Hc Hx. unfold Vector_copy_ctor.
  erewrite bind_ok by by apply get_vec_ok.
  apply holds_inv in Hh as [(_ & ? & _)|(b & Hb & Hcap & Hbl & Hsz & Hle)].
  { by destruct xs1. }
  erewrite bind_ok.
  2:{ apply RawMemory_ctor_ok; [|done]. rewrite Hsz, length_app. simpl. lia. }
  unfold GetAddress. cbn [buffer_]. rewrite Hb, Hsz.
  erewrite bind_throw; [done|].
  eapply on_throw_throw.
  - unfold uninitialized_copy_n.
    eapply (uninitialized_copy_loop_throw xs1 x xs2 [] _ [] []
              (replicate (length (xs1 ++ x :: xs2)) None) []); try done.
    + apply block_at_lt in Hbl. lia.
    + by apply block_at_app.
    + rewrite block_at_new. simpl. by rewrite app_nil_r.
    + by rewrite length_replicate.
  - rewrite set_block_new. apply drop_new_block'.
Qed.

(** ** Copy assignment *)

Lemma copy_assign_realloc_ok h o this rhs t r xs ys :
  this <> rhs ->
  o !! this = Some (Some t) -> o !! rhs = Some (Some r) ->
  holds h t xs -> holds h r ys ->
  capacity_ (data_ t) < size_ r ->
  new_ok (length h) (size_ r) = true -> no_copy_throw ys ->
  Vector_copy_assign new_ok this rhs (mkState h o)
  = Ok tt (mkState
      (release (data_ t) h ++ [Some (layout ys (length ys))])
      (<[this := Some (mkVector (mkRawMemory (Ptr (S (length h)) 0) (length ys))
                                (length ys))]> o ++ [None])).
Proof.
  intros Hne Ht Hr Hh Hhr Hcap Hn Hc.
  pose proof (lookup_lt_Some _ _ _ Ht) as Hlt.
  unfold Vector_copy_assign. case_decide; [|done].
  erewrite bind_ok by by apply get_vec_ok.
  erewrite bind_ok by by apply get_vec_ok.
  unfold RawMemory_Capacity.
  destruct (Nat.ltb_spec (capacity_ (data_ t)) (size_ r)); [|lia].
  erewrite bind_ok by (eapply copy_ctor_ok; [done|done|lia|done|done]).
  erewrite bind_ok.
  2:{ eapply Swap_ok.
      - lia.
      - by apply lookup_app_l_Some.
      - by apply list_lookup_middle. }
  erewrite dtor_ok.
  2:{ apply list_lookup_insert_eq. rewrite length_insert, length_app. simpl. lia. }
  2:{ by apply holds_app. }
  rewrite release_app by by eapply holds_releasable.
  do 2 f_equal.
  rewrite list_insert_insert_eq.
  rewrite list_insert_insert_ne by lia.
  rewrite (insert_segment o []) by done.
  by rewrite insert_app_l by done.
Qed.

Lemma copy_assign_realloc_bad_alloc h o this rhs t r :
  this <> rhs ->
  o !! this = Some (Some t) -> o !! rhs = Some (Some r) ->
  capacity_ (data_ t) < size_ r ->
  new_ok (length h) (size_ r) = false ->
  Vector_copy_assign new_ok this rhs (mkState h o) = Throw (mkState h o).
Proof.
  intros Hne Ht Hr Hcap Hn.
  unfold Vector_copy_assign. case_decide; [|done].
  erewrite bind_ok by by apply get_vec_ok.
  erewrite bind_ok by by apply get_vec_ok.
  unfold RawMemory_Capacity.
  destruct (Nat.ltb_spec (capacity_ (data_ t)) (size_ r)); [|lia].
  erewrite bind_throw; [done|]. eapply copy_ctor_bad_alloc; [done|lia|done].
Qed.

Lemma copy_assign_realloc_throw h o this rhs t r ys1 y ys2 :
  this <> rhs ->
  o !! this = Some (Some t) -> o !! rhs = Some (Some r) ->
  holds h r (ys1 ++ y :: ys2) ->
  capacity_ (data_ t) < size_ r ->
  new_ok (length h) (size_ r) = true ->
  no_copy_throw ys1 -> copy_throws y = true ->
  Vector_copy_assign new_ok this rhs (mkState h o)
  = Throw (mkState (h ++ [None]) o).
Proof.
  intros Hne Ht Hr Hhr Hcap Hn Hc Hy.
  unfold Vector_copy_assign. case_decide; [|done].
  erewrite bind_ok by by apply get_vec_ok.
  erewrite bind_ok by by apply get_vec_ok.
  unfold RawMemory_Capacity.
  destruct (Nat.ltb_spec (capacity_ (data_ t)) (size_ r)); [|lia].
  erewrite bind_throw; [done|]. by eapply copy_ctor_throw.
Qed.

Lemma layout_app xs ys cap :
  layout (xs ++ ys) cap
  = (Some <$> xs) ++ (Some <$> ys) ++ replicate (cap - length xs - length ys) None.
Proof.
  unfold layout. rewrite fmap_app, length_app, <- app_assoc.
  by replace (cap - (length xs + length ys)) with (cap - length xs - length ys) by lia.
Qed.

(** The first [n] elements of [r] are copy-assigned over those of [t]. *)
Lemma copy_into_ok h o t r xs ys n :
  holds h t xs -> holds h r ys -> n <= length xs -> n <= length ys ->
  blk (buffer_ (data_ r)) <> blk (buffer_ (data_ t)) \/ n = 0 ->
  no_copy_throw (take n ys) ->
  copy_n (GetAddress (data_ r)) n (GetAddress (data_ t)) (mkState h o)
  = Ok tt (mkState
      (set_block h (blk (buffer_ (data_ t)))
                 (layout (take n ys ++ drop n xs) (capacity_ (data_ t)))) o).
Proof.
  intros Hh Hhr Hnx Hny Hne Hc.
  destruct (decide (n = 0)) as [->|Hn].
  { simpl. unfold ret. do 2 f_equal. symmetry.
    apply holds_inv in Hh as [(Hdt & _ & _)|(b & Hb & Hcap & Hbl & _)].
    - by rewrite Hdt.
    - rewrite Hb. by apply set_block_id. }
  destruct Hne as [Hne|?]; [|done].
  apply holds_inv in Hh as [(_ & -> & _)|(b & Hb & Hcap & Hbl & Hsz & Hle)].
  { simpl in Hnx. lia. }
  apply holds_inv in Hhr as [(_ & -> & _)|(b' & Hb' & Hcap' & Hbl' & Hsz' & Hle')].
  { simpl in Hny. lia. }
  unfold GetAddress. rewrite Hb, Hb' in *. simpl in Hne.
  rewrite <- (take_drop n ys), layout_app in Hbl'.
  rewrite <- (take_drop n xs), layout_app in Hbl.
  erewrite (copy_n_ok (take n ys) (take n xs) [] _ []); cycle 1.
  - done.
  - exact Hbl'.
  - exact Hbl.
  - rewrite !length_take. lia.
  - done.
  - done.
  - done.
  - rewrite length_take. lia.
  - simpl app. simpl blk. do 4 f_equal. rewrite layout_app.
    rewrite !length_take. seg_eq.
Qed.

Lemma copy_into_throw h o t r xs ys n ys1 y ys2 :
  holds h t xs -> holds h r ys -> n <= length xs -> n <= length ys ->
  blk (buffer_ (data_ r)) <> blk (buffer_ (data_ t)) ->
  take n ys = ys1 ++ y :: ys2 ->
  no_copy_throw ys1 -> copy_throws y = true ->
  copy_n (GetAddress (data_ r)) n (GetAddress (data_ t)) (mkState h o)
  = Throw (mkState
      (set_block h (blk (buffer_ (data_ t)))
                 (layout (ys1 ++ drop (length ys1) xs) (capacity_ (data_ t)))) o).
Proof.
  intros Hh Hhr Hnx Hny Hne Hsplit Hc Hy.
  assert (length ys1 < n) as Hl1.
  { apply (f_equal length) in Hsplit. rewrite length_take, length_app in Hsplit.
    simpl in Hsplit. lia. }
  apply holds_inv in Hh as [(_ & -> & _)|(b & Hb & Hcap & Hbl & Hsz & Hle)].
  { simpl in Hnx. lia. }
  apply holds_inv in Hhr as [(_ & -> & _)|(b' & Hb' & Hcap' & Hbl' & Hsz' & Hle')].
  { simpl in Hny. lia. }
  unfold GetAddress. rewrite Hb, Hb' in *. simpl in Hne.
  rewrite <- (take_drop n ys), layout_app, Hsplit in Hbl'.
  rewrite <- (take_drop n xs), layout_app in Hbl.
  erewrite (copy_n_throw ys1 y ys2 (take n xs) [] _ []); cycle 1.
  - done.
  - exact Hbl'.
  - exact Hbl.
  - rewrite <- Hsplit, !length_take. lia.
  - done.
  - done.
  - done.
  - done.
  - rewrite <- Hsplit, length_take. lia.
  - simpl app. simpl blk. do 4 f_equal. rewrite layout_app.
    rewrite fmap_app, <- app_assoc.
    assert (drop (length ys1) xs
            = drop (length ys1) (take n xs) ++ drop n xs) as ->.
    { rewrite <- (take_drop n xs) at 1.
      by rewrite drop_app_le by (rewrite length_take; lia). }
    rewrite fmap_app, <- app_assoc.
    rewrite ?length_app, ?length_take, ?length_drop, ?length_take. seg_eq.
Qed.

Lemma copy_ok h o t r xs ys :
  holds h t xs -> holds h r ys -> length ys <= length xs ->
  blk (buffer_ (data_ r)) <> blk (buffer_ (data_ t)) \/ ys = [] ->
  no_copy_throw ys ->
  copy (GetAddress (data_ r)) (GetAddress (data_ r) .+ size_ r)
       (GetAddress (data_ t)) (mkState h o)
  = Ok tt (mkState
      (set_block h (blk (buffer_ (data_ t)))
                 (layout (ys ++ drop (length ys) xs) (capacity_ (data_ t)))) o).
Proof.
  intros Hh Hhr Hle Hne Hc. unfold copy.
  rewrite ptr_diff_add. erewrite bind_ok by done.
  pose proof Hhr as (Hsz & _). rewrite Hsz.
  erewrite copy_into_ok; try done.
  - by rewrite take_ge by done.
  - destruct Hne as [?| ->]; [by left|by right].
  - by rewrite take_ge by done.
Qed.

Lemma copy_throw h o t r xs ys1 y ys2 :
  holds h t xs -> holds h r (ys1 ++ y :: ys2) ->
  length (ys1 ++ y :: ys2) <= length xs ->
  blk (buffer_ (data_ r)) <> blk (buffer_ (data_ t)) ->
  no_copy_throw ys1 -> copy_throws y = true ->
  copy (GetAddress (data_ r)) (GetAddress (data_ r) .+ size_ r)
       (GetAddress (data_ t)) (mkState h o)
  = Throw (mkState
      (set_block h (blk (buffer_ (data_ t)))
                 (layout (ys1 ++ drop (length ys1) xs) (capacity_ (data_ t)))) o).
Proof.
  intros Hh Hhr Hle Hne Hc Hy. unfold copy.
  rewrite ptr_diff_add. erewrite bind_ok by done.
  pose proof Hhr as (Hsz & _). rewrite Hsz.
  erewrite copy_into_throw; try done.
  by rewrite take_ge by done.
Qed.

Lemma copy_assign_shrink_ok h o this rhs t r xs ys :
  this <> rhs ->
  o !! this = Some (Some t) -> o !! rhs = Some (Some r) ->
  holds h t xs -> holds h r ys -> length ys < length xs ->
  blk (buffer_ (data_ r)) <> blk (buffer_ (data_ t)) \/ ys = [] ->
  no_copy_throw ys ->
  Vector_copy_assign new_ok this rhs (mkState h o)
  = Ok tt (mkState
      (set_block h (blk (buffer_ (data_ t))) (layout ys (capacity_ (data_ t))))
      (<[this := Some (mkVector (data_ t) (length ys))]> o)).
Proof.
  intros Hne Ht Hr Hh Hhr Hlt Hd Hc.
  pose proof Hh as (Hsz & Hle & _). pose proof Hhr as (Hsz' & Hle' & _).
  unfold Vector_copy_assign. case_decide; [|done].
  erewrite bind_ok by by apply get_vec_ok.
  erewrite bind_ok by by apply get_vec_ok.
  unfold RawMemory_Capacity.
  destruct (Nat.ltb_spec (capacity_ (data_ t)) (size_ r)); [lia|].
  destruct (Nat.ltb_spec (size_ r) (size_ t)); [|lia].
  erewrite bind_ok by (eapply copy_ok; [done|done|lia|done|done]).
  apply holds_inv in Hh as [(_ & -> & _)|(b & Hb & Hcap & Hbl & _)].
  { simpl in Hlt. lia. }
  unfold GetAddress. rewrite Hb. norm. simpl Nat.add.
  rewrite Hsz, Hsz'.
  erewrite bind_ok.
  2:{ eapply (destroy_n_ok (drop (length ys) xs) (Some <$> ys)).
      - erewrite block_at_set_block by done. by rewrite layout_app.
      - by rewrite length_fmap.
      - rewrite length_drop. done. }
  rewrite set_block_set_block.
  erewrite set_size_ok by done.
  do 3 f_equal. unfold layout. rewrite length_drop. seg_eq.
  rewrite <- replicate_add. f_equal. lia.
Qed.

Lemma copy_assign_shrink_throw h o this rhs t r xs ys1 y ys2 :
  this <> rhs ->
  o !! this = Some (Some t) -> o !! rhs = Some (Some r) ->
  holds h t xs -> holds h r (ys1 ++ y :: ys2) ->
  length (ys1 ++ y :: ys2) < length xs ->
  blk (buffer_ (data_ r)) <> blk (buffer_ (data_ t)) ->
  no_copy_throw ys1 -> copy_throws y = true ->
  Vector_copy_assign new_ok this rhs (mkState h o)
  = Throw (mkState
      (set_block h (blk (buffer_ (data_ t)))
                 (layout (ys1 ++ drop (length ys1) xs) (capacity_ (data_ t)))) o).
Proof.
  intros Hne Ht Hr Hh Hhr Hlt Hd Hc Hy.
  pose proof Hh as (Hsz & Hle & _). pose proof Hhr as (Hsz' & Hle' & _).
  unfold Vector_copy_assign. case_decide; [|done].
  erewrite bind_ok by by apply get_vec_ok.
  erewrite bind_ok by by apply get_vec_ok.
  unfold RawMemory_Capacity.
  destruct (Nat.ltb_spec (capacity_ (data_ t)) (size_ r)); [lia|].
  destruct (Nat.ltb_spec (size_ r) (size_ t)); [|lia].
  erewrite bind_throw; [done|].
  eapply copy_throw; try done. lia.
Qed.

Lemma copy_assign_same_ok h o this rhs t r xs ys :
  this <> rhs ->
  o !! this = Some (Some t) -> o !! rhs = Some (Some r) ->
  holds h t xs -> holds h r ys -> length ys = length xs ->
  blk (buffer_ (data_ r)) <> blk (buffer_ (data_ t)) \/ ys = [] ->
  no_copy_throw ys ->
  Vector_copy_assign new_ok this rhs (mkState h o)
  = Ok tt (mkState
      (set_block h (blk (buffer_ (data_ t))) (layout ys (capacity_ (data_ t))))
      (<[this := Some (mkVector (data_ t) (length ys))]> o)).
Proof.
  intros Hne Ht Hr Hh Hhr Hlt Hd Hc.
  pose proof Hh as (Hsz & Hle & _). pose proof Hhr as (Hsz' & Hle' & _).
  unfold Vector_copy_assign. case_decide; [|done].
  erewrite bind_ok by by apply get_vec_ok.
  erewrite bind_ok by by apply get_vec_ok.
  unfold RawMemory_Capacity.
  destruct (Nat.ltb_spec (capacity_ (data_ t)) (size_ r)); [lia|].
  destruct (Nat.ltb_spec (size_ r) (size_ t)); [lia|].
  destruct (Nat.leb_spec (size_ t) (size_ r)); [|lia].
  replace (size_ r - size_ t) with 0 by lia. cbn [Nat.eqb Nat.ltb Nat.leb].
  erewrite bind_ok by (eapply copy_ok; [done|done|lia|done|done]).
  unfold ret. rewrite drop_ge, app_nil_r by lia.
  do 2 f_equal. symmetry. apply list_insert_id.
  rewrite Ht. do 2 f_equal. destruct t. simpl in *. f_equal. lia.
Qed.

Lemma copy_assign_same_throw h o this rhs t r xs ys1 y ys2 :
  this <> rhs ->
  o !! this = Some (Some t) -> o !! rhs = Some (Some r) ->
  holds h t xs -> holds h r (ys1 ++ y :: ys2) ->
  length (ys1 ++ y :: ys2) = length xs ->
  blk (buffer_ (data_ r)) <> blk (buffer_ (data_ t)) ->
  no_copy_throw ys1 -> copy_throws y = true ->
  Vector_copy_assign new_ok this rhs (mkState h o)
  = Throw (mkState
      (set_block h (blk (buffer_ (data_ t)))
                 (layout (ys1 ++ drop (length ys1) xs) (capacity_ (data_ t)))) o).
Proof.
  intros Hne Ht Hr Hh Hhr Hlt Hd Hc Hy.
  pose proof Hh as (Hsz & Hle & _). pose proof Hhr as (Hsz' & Hle' & _).
  unfold Vector_copy_assign. case_decide; [|done].
  erewrite bind_ok by by apply get_vec_ok.
  erewrite bind_ok by by apply get_vec_ok.
  unfold RawMemory_Capacity.
  destruct (Nat.ltb_spec (capacity_ (data_ t)) (size_ r)); [lia|].
  destruct (Nat.ltb_spec (size_ r) (size_ t)); [lia|].
  destruct (Nat.leb_spec (size_ t) (size_ r)); [|lia].
  replace (size_ r - size_ t) with 0 by lia. cbn [Nat.eqb Nat.ltb Nat.leb].
  erewrite bind_throw; [done|].
  eapply copy_throw; try done. lia.
Qed.

Lemma copy_assign_grow_ok h o this rhs t r xs ys :
  this <> rhs ->
  o !! this = Some (Some t) -> o !! rhs = Some (Some r) ->
  holds h t xs -> holds h r ys ->
  length xs < length ys -> length ys <= capacity_ (data_ t) ->
  blk (buffer_ (data_ r)) <> blk (buffer_ (data_ t)) ->
  no_copy_throw ys ->
  Vector_copy_assign new_ok this rhs (mkState h o)
  = Ok tt (mkState
      (set_block h (blk (buffer_ (data_ t))) (layout ys (capacity_ (data_ t))))
      (<[this := Some (mkVector (data_ t) (length ys))]> o)).
Proof.
  intros Hne Ht Hr Hh Hhr Hlt Hfit Hd Hc.
  pose proof Hh as (Hsz & Hle & _). pose proof Hhr as (Hsz' & Hle' & _).
  unfold Vector_copy_assign. case_decide; [|done].
  erewrite bind_ok by by apply get_vec_ok.
  erewrite bind_ok by by apply get_vec_ok.
  unfold RawMemory_Capacity.
  destruct (Nat.ltb_spec (capacity_ (data_ t)) (size_ r)); [lia|].
  destruct (Nat.ltb_spec (size_ r) (size_ t)); [lia|].
  destruct (Nat.leb_spec (size_ t) (size_ r)); [|lia].
  destruct (Nat.eqb_spec (size_ r - size_ t) 0); [lia|].
  destruct (Nat.ltb_spec 0 (size_ r - size_ t)); [|lia].
  erewrite bind_ok by done.
  rewrite <- (take_drop (length xs) ys) in Hc.
  apply Forall_app in Hc as [Hc1 Hc2].
  erewrite bind_ok.
  2:{ rewrite Hsz. eapply copy_into_ok; try done; [lia|by left]. }
  rewrite drop_all, app_nil_r.
  apply holds_inv in Hh as [(Hdt & _ & _)|(b & Hb & Hcap & Hbl & _)].
  { rewrite Hdt in Hfit. simpl in Hfit. lia. }
  apply holds_inv in Hhr as [(_ & -> & _)|(b' & Hb' & Hcap' & Hbl' & _)].
  { simpl in Hlt. lia. }
  unfold GetAddress. rewrite Hb, Hb' in *. simpl in Hd. norm. simpl Nat.add.
  rewrite Hsz, Hsz'.
  rewrite <- (take_drop (length xs) ys), layout_app in Hbl'.
  assert (length (take (length xs) ys) = length xs) as Hlt1
    by (rewrite length_take; lia).
  erewrite bind_ok.
  2:{ unfold uninitialized_copy_n.
      eapply (uninitialized_copy_loop_ok (drop (length xs) ys)
                (Some <$> take (length xs) ys) _
                (Some <$> take (length xs) ys) []
                (replicate (length ys - length xs) None)
                (replicate (capacity_ (data_ t) - length ys) None)).
      - done.
      - rewrite block_at_set_block_ne by done. exact Hbl'.
      - erewrite block_at_set_block by done. unfold layout. simpl.
        rewrite Hlt1. f_equal. f_equal. rewrite <- replicate_add. f_equal. lia.
      - by rewrite length_replicate, length_drop.
      - done.
      - by rewrite length_fmap.
      - by rewrite length_fmap.
      - done.
      - by rewrite length_drop. }
  rewrite set_block_set_block. simpl app.
  erewrite set_size_ok by done.
  do 3 f_equal. unfold layout.
  by rewrite app_assoc, <- fmap_app, take_drop.
Qed.

Lemma copy_assign_grow_throw_assign h o this rhs t r xs ys ys1 y ys2 :
  this <> rhs ->
  o !! this = Some (Some t) -> o !! rhs = Some (Some r) ->
  holds h t xs -> holds h r ys ->
  length xs < length ys -> length ys <= capacity_ (data_ t) ->
  blk (buffer_ (data_ r)) <> blk (buffer_ (data_ t)) ->
  take (length xs) ys = ys1 ++ y :: ys2 ->
  no_copy_throw ys1 -> copy_throws y = true ->
  Vector_copy_assign new_ok this rhs (mkState h o)
  = Throw (mkState
      (set_block h (blk (buffer_ (data_ t)))
                 (layout (ys1 ++ drop (length ys1) xs) (capacity_ (data_ t)))) o).
Proof.
  intros Hne Ht Hr Hh Hhr Hlt Hfit Hd Hsplit Hc Hy.
  pose proof Hh as (Hsz & Hle & _). pose proof Hhr as (Hsz' & Hle' & _).
  unfold Vector_copy_assign. case_decide; [|done].
  erewrite bind_ok by by apply get_vec_ok.
  erewrite bind_ok by by apply get_vec_ok.
  unfold RawMemory_Capacity.
  destruct (Nat.ltb_spec (capacity_ (data_ t)) (size_ r)); [lia|].
  destruct (Nat.ltb_spec (size_ r) (size_ t)); [lia|].
  destruct (Nat.leb_spec (size_ t) (size_ r)); [|lia].
  destruct (Nat.eqb_spec (size_ r - size_ t) 0); [lia|].
  destruct (Nat.ltb_spec 0 (size_ r - size_ t)); [|lia].
  erewrite bind_ok by done.
  erewrite bind_throw; [done|].
  rewrite Hsz. eapply copy_into_throw; try done. lia.
Qed.

Lemma copy_assign_grow_throw_construct h o this rhs t r xs ys ys1 y ys2 :
  this <> rhs ->
  o !! this = Some (Some t) -> o !! rhs = Some (Some r) ->
  holds h t xs -> holds h r ys ->
  length xs < length ys -> length ys <= capacity_ (data_ t) ->
  blk (buffer_ (data_ r)) <> blk (buffer_ (data_ t)) ->
  no_copy_throw (take (length xs) ys) ->
  drop (length xs) ys = ys1 ++ y :: ys2 ->
  no_copy_throw ys1 -> copy_throws y = true ->
  Vector_copy_assign new_ok this rhs (mkState h o)
  = Throw (mkState
      (set_block h (blk (buffer_ (data_ t)))
                 (layout (take (length xs) ys) (capacity_ (data_ t)))) o).
Proof.
  intros Hne Ht Hr Hh Hhr Hlt Hfit Hd Hc1 Hsplit Hc Hy.
  pose proof Hh as (Hsz & Hle & _). pose proof Hhr as (Hsz' & Hle' & _).
  unfold Vector_copy_assign. case_decide; [|done].
  erewrite bind_ok by by apply get_vec_ok.
  erewrite bind_ok by by apply get_vec_ok.
  unfold RawMemory_Capacity.
  destruct (Nat.ltb_spec (capacity_ (data_ t)) (size_ r)); [lia|].
  destruct (Nat.ltb_spec (size_ r) (size_ t)); [lia|].
  destruct (Nat.leb_spec (size_ t) (size_ r)); [|lia].
  destruct (Nat.eqb_spec (size_ r - size_ t) 0); [lia|].
  destruct (Nat.ltb_spec 0 (size_ r - size_ t)); [|lia].
  erewrite bind_ok by done.
  erewrite bind_ok.
  2:{ rewrite Hsz. eapply copy_into_ok; try done; [lia|by left]. }
  rewrite drop_all, app_nil_r.
  apply holds_inv in Hh as [(Hdt & _ & _)|(b & Hb & Hcap & Hbl & _)].
  { rewrite Hdt in Hfit. simpl in Hfit. lia. }
  apply holds_inv in Hhr as [(_ & -> & _)|(b' & Hb' & Hcap' & Hbl' & _)].
  { simpl in Hlt. lia. }
  unfold GetAddress. rewrite Hb, Hb' in *. simpl in Hd. norm. simpl Nat.add.
  rewrite Hsz, Hsz'.
  rewrite <- (take_drop (length xs) ys), layout_app, Hsplit in Hbl'.
  assert (length (take (length xs) ys) = length xs) as Hlt1
    by (rewrite length_take; lia).
  assert (length (ys1 ++ y :: ys2) = length ys - length xs) as Hld
    by (by rewrite <- Hsplit, length_drop).
  erewrite bind_throw; [done|].
  unfold uninitialized_copy_n.
  erewrite (uninitialized_copy_loop_throw ys1 y ys2
              (Some <$> take (length xs) ys) _
              (Some <$> take (length xs) ys) []
              (replicate (length ys - length xs) None)
              (replicate (capacity_ (data_ t) - length ys) None)); cycle 1.
  - done.
  - rewrite block_at_set_block_ne by done. exact Hbl'.
  - erewrite block_at_set_block by done. unfold layout. simpl.
    rewrite Hlt1. f_equal. f_equal. rewrite <- replicate_add. f_equal. lia.
  - by rewrite length_replicate.
  - done.
  - done.
  - by rewrite length_fmap.
  - by rewrite length_fmap.
  - done.
  - done.
  - rewrite set_block_set_block. simpl. do 4 f_equal. unfold layout.
    rewrite Hlt1, drop_replicate, <- !replicate_add.
    rewrite length_app in Hld. simpl in Hld. seg_eq.
Qed.

Lemma wf_distinct st this rhs t r ys :
  wf st = true -> this <> rhs ->
  obj st this = Some t -> obj st rhs = Some r -> holds (heap st) r ys ->
  blk (buffer_ (data_ r)) <> blk (buffer_ (data_ t)) \/ ys = [].
Proof.
  intros Hwf Hne Ht Hr Hh.
  apply wf_spec in Hwf as [_ Hd]. apply obj_lookup in Ht, Hr.
  apply holds_inv in Hh as [(_ & -> & _)|(b & Hb & _)]; [by right|left].
  eapply (Hd rhs this); try done. by rewrite Hb.
Qed.

(** ** [Resize] and the sized constructor *)

Lemma value_fill_ok h o t xs n :
  holds h t xs -> length xs <= n -> n <= capacity_ (data_ t) ->
  value_init <> None \/ n = length xs ->
  uninitialized_value_construct_n (GetAddress (data_ t) .+ size_ t) (n - size_ t)
    (mkState h o)
  = Ok tt (mkState
      (set_block h (blk (buffer_ (data_ t)))
                 (layout (xs ++ value_fill (n - length xs)) (capacity_ (data_ t))))
      o).
Proof.
  intros Hh Hn Hcap Hv. pose proof Hh as (Hsz & Hle & _). rewrite Hsz.
  unfold uninitialized_value_construct_n.
  destruct (decide (n = length xs)) as [->|Hne].
  { rewrite Nat.sub_diag. simpl. unfold ret. do 2 f_equal. symmetry.
    unfold value_fill. assert (xs ++ match value_init with
                                     | Some v => replicate 0 v | None => [] end = xs)
      as -> by (destruct value_init; simpl; apply app_nil_r).
    apply holds_inv in Hh as [(Hdt & _ & _)|(b & Hb & _ & Hbl & _)].
    - by rewrite Hdt.
    - rewrite Hb. by apply set_block_id. }
  destruct Hv as [Hv|?]; [|done].
  unfold value_fill. destruct value_init as [v|] eqn:Hvi; [|done].
  apply holds_inv in Hh as [(Hdt & _ & _)|(b & Hb & _ & Hbl & _)].
  { rewrite Hdt in Hcap. simpl in Hcap. lia. }
  unfold GetAddress. rewrite Hb. norm. simpl Nat.add.
  erewrite (uninitialized_value_construct_loop_ok
              (replicate (n - length xs) None) v (Some <$> xs) []
              (replicate (capacity_ (data_ t) - n) None)); cycle 1.
  - done.
  - rewrite Hbl. unfold layout. simpl. f_equal. f_equal.
    rewrite <- replicate_add. f_equal. lia.
  - by rewrite length_fmap.
  - done.
  - by rewrite length_replicate.
  - simpl. do 3 f_equal. unfold layout.
    rewrite fmap_app, <- app_assoc, length_app, length_replicate. seg_eq.
Qed.

Lemma value_fill_throw h o t xs n :
  holds h t xs -> length xs < n -> n <= capacity_ (data_ t) ->
  value_init = None ->
  uninitialized_value_construct_n (GetAddress (data_ t) .+ size_ t) (n - size_ t)
    (mkState h o)
  = Throw (mkState h o).
Proof.
  intros Hh Hn Hcap Hv. pose proof Hh as (Hsz & Hle & _). rewrite Hsz.
  unfold uninitialized_value_construct_n.
  apply holds_inv in Hh as [(Hdt & _ & _)|(b & Hb & _ & Hbl & _)].
  { rewrite Hdt in Hcap. simpl in Hcap. lia. }
  unfold GetAddress. rewrite Hb. norm. simpl Nat.add.
  erewrite (uninitialized_value_construct_loop_throw (Some <$> xs) []
              (replicate (n - length xs) None)
              (replicate (capacity_ (data_ t) - n) None)); cycle 1.
  - done.
  - rewrite Hbl. unfold layout. simpl. f_equal. f_equal.
    rewrite <- replicate_add. f_equal. lia.
  - by rewrite length_fmap.
  - done.
  - lia.
  - simpl app. simpl length. do 2 f_equal. apply set_block_id. rewrite Hbl. f_equal.
    unfold layout. f_equal. rewrite <- replicate_add. f_equal. lia.
Qed.

Lemma Resize_shrink_ok h o this t xs n :
  o !! this = Some (Some t) -> holds h t xs -> n < length xs ->
  Vector_Resize new_ok this n (mkState h o)
  = Ok tt (mkState
      (set_block h (blk (buffer_ (data_ t)))
                 (layout (take n xs) (capacity_ (data_ t))))
      (<[this := Some (mkVector (data_ t) n)]> o)).
Proof.
  intros Ht Hh Hn. pose proof Hh as (Hsz & Hle & _).
  unfold Vector_Resize.
  erewrite bind_ok by by apply get_vec_ok.
  destruct (Nat.ltb_spec n (size_ t)); [|lia].
  apply holds_inv in Hh as [(_ & -> & _)|(b & Hb & _ & Hbl & _)].
  { simpl in Hn. lia. }
  unfold GetAddress. rewrite Hb, Hsz. norm. simpl Nat.add.
  rewrite <- (take_drop n xs), layout_app in Hbl.
  assert (length (take n xs) = n) as Hl by (rewrite length_take; lia).
  erewrite bind_ok.
  2:{ eapply (destroy_n_ok (drop n xs) (Some <$> take n xs)); [exact Hbl| |].
      - by rewrite length_fmap.
      - by rewrite length_drop. }
  erewrite set_size_ok by done.
  do 3 f_equal. unfold layout. rewrite Hl, length_drop. seg_eq.
  rewrite <- replicate_add. f_equal. lia.
Qed.

Lemma Resize_inplace_ok h o this t xs n :
  o !! this = Some (Some t) -> holds h t xs ->
  length xs <= n -> n <= capacity_ (data_ t) ->
  value_init <> None \/ n = length xs ->
  Vector_Resize new_ok this n (mkState h o)
  = Ok tt (mkState
      (set_block h (blk (buffer_ (data_ t)))
                 (layout (xs ++ value_fill (n - length xs)) (capacity_ (data_ t))))
      (<[this := Some (mkVector (data_ t) n)]> o)).
Proof.
  intros Ht Hh Hn Hcap Hv. pose proof Hh as (Hsz & Hle & _).
  unfold Vector_Resize.
  erewrite bind_ok by by apply get_vec_ok.
  destruct (Nat.ltb_spec n (size_ t)); [lia|].
  erewrite bind_ok by by eapply Reserve_noop.
  erewrite bind_ok by by apply get_vec_ok.
  erewrite bind_ok by by eapply value_fill_ok.
  by erewrite set_size_ok.
Qed.

Lemma Resize_inplace_throw h o this t xs n :
  o !! this = Some (Some t) -> holds h t xs ->
  length xs < n -> n <= capacity_ (data_ t) -> value_init = None ->
  Vector_Resize new_ok this n (mkState h o) = Throw (mkState h o).
Proof.
  intros Ht Hh Hn Hcap Hv. pose proof Hh as (Hsz & Hle & _).
  unfold Vector_Resize.
  erewrite bind_ok by by apply get_vec_ok.
  destruct (Nat.ltb_spec n (size_ t)); [lia|].
  erewrite bind_ok by by eapply Reserve_noop.
  erewrite bind_ok by by apply get_vec_ok.
  erewrite bind_throw; [done|]. by eapply value_fill_throw.
Qed.

Lemma Resize_bad_alloc h o this t xs n :
  o !! this = Some (Some t) -> holds h t xs ->
  capacity_ (data_ t) < n -> new_ok (length h) n = false ->
  Vector_Resize new_ok this n (mkState h o) = Throw (mkState h o).
Proof.
  intros Ht Hh Hcap Hn. pose proof Hh as (Hsz & Hle & _).
  unfold Vector_Resize.
  erewrite bind_ok by by apply get_vec_ok.
  destruct (Nat.ltb_spec n (size_ t)); [lia|].
  erewrite bind_throw; [done|]. by eapply Reserve_bad_alloc.
Qed.

Lemma Resize_relocate_throw h o this t xs1 x xs2 n :
  o !! this = Some (Some t) -> holds h t (xs1 ++ x :: xs2) ->
  capacity_ (data_ t) < n -> new_ok (length h) n = true ->
  relocate_throws_at xs1 x ->
  Vector_Resize new_ok this n (mkState h o)
  = Throw (mkState
      (set_block h (blk (buffer_ (data_ t)))
                 (layout (relocated xs1 ++ x :: xs2) (capacity_ (data_ t)))
       ++ [None]) o).
Proof.
  intros Ht Hh Hcap Hn Hx. pose proof Hh as (Hsz & Hle & _).
  unfold Vector_Resize.
  erewrite bind_ok by by apply get_vec_ok.
  destruct (Nat.ltb_spec n (size_ t)); [lia|].
  erewrite bind_throw; [done|]. by eapply Reserve_throw.
Qed.

Lemma Resize_realloc_ok h o this t xs n :
  o !! this = Some (Some t) -> holds h t xs ->
  capacity_ (data_ t) < n -> new_ok (length h) n = true ->
  no_relocate_throw xs -> value_init <> None ->
  Vector_Resize new_ok this n (mkState h o)
  = Ok tt (mkState
      (release (data_ t) h ++ [Some (layout (xs ++ value_fill (n - length xs)) n)])
      (<[this := Some (mkVector (mkRawMemory (Ptr (S (length h)) 0) n) n)]> o)).
Proof.
  intros Ht Hh Hcap Hn Hx Hv. pose proof Hh as (Hsz & Hle & _).
  pose proof (lookup_lt_Some _ _ _ Ht) as Hlt.
  unfold Vector_Resize.
  erewrite bind_ok by by apply get_vec_ok.
  destruct (Nat.ltb_spec n (size_ t)); [lia|].
  erewrite bind_ok by by eapply Reserve_ok.
  erewrite bind_ok by (by apply get_vec_ok, list_lookup_insert_eq).
  erewrite bind_ok.
  2:{ eapply (value_fill_ok _ _ _ xs n).
      - apply holds_fresh; [lia|lia|done].
      - lia.
      - done.
      - by left. }
  erewrite set_size_ok by by apply list_lookup_insert_eq.
  cbn [data_ size_ buffer_ blk capacity_]. rewrite list_insert_insert_eq.
  do 2 f_equal. rewrite <- (length_release (data_ t) h). apply set_block_new.
Qed.

Lemma Resize_realloc_throw h o this t xs n :
  o !! this = Some (Some t) -> holds h t xs ->
  capacity_ (data_ t) < n -> new_ok (length h) n = true ->
  no_relocate_throw xs -> value_init = None ->
  Vector_Resize new_ok this n (mkState h o)
  = Throw (mkState
      (release (data_ t) h ++ [Some (layout xs n)])
      (<[this := Some (mkVector (mkRawMemory (Ptr (S (length h)) 0) n)
                                (size_ t))]> o)).
Proof.
  intros Ht Hh Hcap Hn Hx Hv. pose proof Hh as (Hsz & Hle & _).
  pose proof (lookup_lt_Some _ _ _ Ht) as Hlt.
  unfold Vector_Resize.
  erewrite bind_ok by by apply get_vec_ok.
  destruct (Nat.ltb_spec n (size_ t)); [lia|].
  erewrite bind_ok by by eapply Reserve_ok.
  erewrite bind_ok by (by apply get_vec_ok, list_lookup_insert_eq).
  erewrite bind_throw; [done|].
  eapply (value_fill_throw _ _ _ xs n).
  - apply holds_fresh; [lia|lia|done].
  - lia.
  - done.
  - done.
Qed.

(** ** More operations *)

Lemma move_assign_at_throw h o b i j bl x z :
  block_at h b = Some bl ->
  bl !! j = Some (Some x) -> bl !! i = Some (Some z) ->
  move_throws x = true ->
  move_assign_at (Ptr b i) (Ptr b j) (mkState h o) = Throw (mkState h o).
Proof.
  intros Hb Hj Hi Hx. unfold move_assign_at.
  erewrite bind_ok by (eapply load_ok; eauto).
  erewrite bind_ok by (eapply load_ok; eauto). by rewrite Hx.
Qed.

Lemma move_n_throw a : forall y rest z pre post h o b i n,
  block_at h b = Some (pre ++ Some z :: (Some <$> a ++ y :: rest) ++ post) ->
  no_move_throw a -> move_throws y = true ->
  i = length pre -> n = length (a ++ y :: rest) ->
  move_n (Ptr b (S i)) n (Ptr b i) (mkState h o)
  = Throw (mkState (set_block h b
             (pre ++ (Some <$> a) ++ Some (residue_of_last z a)
                  :: (Some <$> y :: rest) ++ post)) o).
Proof.
  induction a as [|x a IH]; intros y rest z pre post h o b i n Hb Hc Hy -> ->; simpl.
  - simpl in Hb. erewrite bind_throw; cycle 1.
    { eapply move_assign_at_throw; [exact Hb| | |exact Hy].
      - by apply lookup_segment2.
      - by apply lookup_segment. }
    do 2 f_equal. symmetry. apply set_block_id. exact Hb.
  - simpl in Hb. inversion Hc as [|? ? Hx Hc']; subst.
    erewrite bind_ok; cycle 1.
    { eapply move_assign_at_ok; [exact Hb| | |lia|exact Hx].
      - by apply lookup_segment2.
      - by apply lookup_segment. }
    rewrite insert_segment by done. rewrite insert_segment2 by done.
    norm. simpl.
    erewrite (IH y rest (moved x) (pre ++ [Some x]) post); cycle 1.
    + erewrite block_at_set_block by exact Hb. by rewrite snoc_app.
    + done.
    + done.
    + by rewrite length_app.
    + done.
    + rewrite set_block_set_block, snoc_app. by rewrite residue_of_last_cons.
Qed.

Lemma move_backward_n_throw rest : forall a y pre w post h o b i n,
  block_at h b = Some (pre ++ (Some <$> a ++ y :: rest) ++ Some w :: post) ->
  no_move_throw rest -> move_throws y = true ->
  i = length pre + length (a ++ y :: rest) -> n = length (a ++ y :: rest) ->
  move_backward_n n (Ptr b i) (Ptr b (S i)) (mkState h o)
  = Throw (mkState (set_block h b
             (pre ++ (Some <$> a ++ [y]) ++ Some (residue_of_first w rest)
                  :: (Some <$> rest) ++ post)) o).
Proof.
  induction rest as [|x rest IH] using rev_ind;
    intros a y pre w post h o b i n Hb Hc Hy -> ->.
  - rewrite length_app. simpl length.
    replace (length pre + (length a + 1)) with (S (length pre + length a)) by lia.
    replace (length a + 1) with (S (length a)) by lia.
    simpl. rewrite !ptr_sub_S.
    rewrite fmap_app in Hb. simpl in Hb. rewrite <- app_assoc in Hb. simpl in Hb.
    rewrite (app_assoc pre) in Hb.
    erewrite bind_throw; cycle 1.
    { eapply move_assign_at_throw; [exact Hb| | |exact Hy].
      - apply lookup_segment. by rewrite length_app, length_fmap.
      - apply lookup_segment2. by rewrite length_app, length_fmap. }
    do 2 f_equal. symmetry. apply set_block_id. rewrite Hb. f_equal.
    rewrite fmap_app, <- !app_assoc. done.
  - apply Forall_app in Hc as [Hc Hx]. inversion Hx as [|? ? Hx' _]; subst.
    rewrite (app_comm_cons rest [x] y), (app_assoc a) in Hb |- *.
    set (l := a ++ y :: rest) in *.
    rewrite (length_app l). simpl length.
    replace (length pre + (length l + 1)) with (S (length pre + length l)) by lia.
    replace (length l + 1) with (S (length l)) by lia.
    simpl. rewrite !ptr_sub_S.
    rewrite fmap_app in Hb. simpl in Hb. rewrite <- app_assoc in Hb. simpl in Hb.
    rewrite (app_assoc pre) in Hb.
    erewrite bind_ok; cycle 1.
    { eapply move_assign_at_ok; [exact Hb| | |lia|exact Hx'].
      - apply lookup_segment. by rewrite length_app, length_fmap.
      - apply lookup_segment2. by rewrite length_app, length_fmap. }
    rewrite insert_segment2 by (by rewrite length_app, length_fmap).
    rewrite insert_segment by (by rewrite length_app, length_fmap).
    subst l.
    erewrite (IH a y pre (moved x) (Some x :: post)); cycle 1.
    + erewrite block_at_set_block by exact Hb. by rewrite <- app_assoc.
    + done.
    + done.
    + done.
    + done.
    + rewrite set_block_set_block, residue_of_first_snoc.
      do 3 f_equal. rewrite (fmap_app _ rest). simpl. by rewrite <- !app_assoc.
Qed.

Lemma last_throw (P : T -> bool) xs :
  Forall (fun x => P x = false) xs \/
  exists a y rest, xs = a ++ y :: rest /\
                Forall (fun x => P x = false) rest /\ P y = true.
Proof.
  induction xs as [|x xs IH] using rev_ind; [by left|].
  destruct (P x) eqn:Hx.
  - right. by exists xs, x, [].
  - destruct IH as [IH|(a & y & rest & -> & Hrest & Hy)].
    + left. apply Forall_app. split; [done|]. by constructor.
    + right. exists a, y, (rest ++ [x]). rewrite <- app_assoc. simpl.
      repeat split; [|done]. apply Forall_app. split; [done|]. by constructor.
Qed.


(** ** [Erase] *)

Lemma holds_same_size h t xs ys :
  holds h t xs -> length ys = length xs ->
  holds (set_block h (blk (buffer_ (data_ t))) (layout ys (capacity_ (data_ t))))
        t ys.
Proof.
  intros Hh Hl. pose proof Hh as (Hsz & Hle & _).
  assert (mkVector (data_ t) (length ys) = t) as E.
  { destruct t. simpl in *. f_equal. lia. }
  pose proof (holds_update h t xs ys Hh ltac:(lia)) as Hu.
  by rewrite E in Hu.
Qed.

Lemma Erase_move_ok h o t xs1 z xs2 :
  holds h t (xs1 ++ z :: xs2) -> no_move_throw xs2 ->
  move (buffer_ (data_ t) .+ length xs1 .+ 1) (GetAddress (data_ t) .+ size_ t)
       (buffer_ (data_ t) .+ length xs1) (mkState h o)
  = Ok tt (mkState
      (set_block h (blk (buffer_ (data_ t)))
                 (layout ((xs1 ++ xs2) ++ [residue_of_last z xs2])
                         (capacity_ (data_ t)))) o).
Proof.
  intros Hh Hc.
  apply holds_inv in Hh as [(_ & ? & _)|(b & Hb & Hcap & Hbl & Hsz & Hle)].
  { by destruct xs1. }
  rewrite length_app in Hsz, Hle. simpl in Hsz, Hle.
  unfold GetAddress. rewrite Hb, Hsz. unfold move, ptr_diff. norm.
  rewrite Nat.eqb_refl.
  destruct (Nat.leb_spec (0 + length xs1 + 1) (0 + (length xs1 + S (length xs2))));
    [|lia].
  simpl andb. cbv iota. erewrite bind_ok by done.
  replace (0 + (length xs1 + S (length xs2)) - (0 + length xs1 + 1))
    with (length xs2) by lia.
  replace (0 + length xs1 + 1) with (S (length xs1)) by lia.
  change (0 + length xs1) with (length xs1).
  rewrite layout_app in Hbl. simpl in Hbl.
  erewrite (move_n_ok xs2 (Some <$> xs1) z); cycle 1.
  - exact Hbl.
  - done.
  - by rewrite length_fmap.
  - done.
  - simpl blk. do 3 f_equal. unfold layout.
    rewrite !fmap_app, <- !app_assoc, !length_app. simpl. seg_eq.
Qed.

Lemma Erase_ok h o this t xs1 z xs2 :
  o !! this = Some (Some t) -> holds h t (xs1 ++ z :: xs2) ->
  no_move_throw xs2 ->
  Vector_Erase this (buffer_ (data_ t) .+ length xs1) (mkState h o)
  = Ok (buffer_ (data_ t) .+ length xs1)
       (mkState
          (set_block h (blk (buffer_ (data_ t)))
                     (layout (xs1 ++ xs2) (capacity_ (data_ t))))
          (<[this := Some (mkVector (data_ t) (length (xs1 ++ xs2)))]> o)).
Proof.
  intros Ht Hh Hc. pose proof (lookup_lt_Some _ _ _ Ht) as Hlt.
  unfold Vector_Erase, Vector_begin, Vector_end.
  erewrite bind_ok by (by erewrite bind_ok by by apply get_vec_ok).
  unfold GetAddress at 1. rewrite ptr_diff_add. erewrite bind_ok by done.
  erewrite bind_ok by (by erewrite bind_ok by by apply get_vec_ok).
  erewrite bind_ok by by eapply Erase_move_ok.
  erewrite bind_ok.
  2:{ eapply PopBack_ok; [done|].
      eapply holds_same_size; [done|].
      rewrite ?length_app. simpl. rewrite ?length_app. simpl. lia. }
  rewrite set_block_set_block.
  erewrite bind_ok.
  2:{ erewrite bind_ok; [done|]. by apply get_vec_ok, list_lookup_insert_eq. }
  done.
Qed.

Lemma Erase_throw h o this t xs1 z a y rest :
  o !! this = Some (Some t) -> holds h t (xs1 ++ z :: a ++ y :: rest) ->
  no_move_throw a -> move_throws y = true ->
  Vector_Erase this (buffer_ (data_ t) .+ length xs1) (mkState h o)
  = Throw (mkState
      (set_block h (blk (buffer_ (data_ t)))
                 (layout (xs1 ++ a ++ residue_of_last z a :: y :: rest)
                         (capacity_ (data_ t)))) o).
Proof.
  intros Ht Hh Hc Hy. pose proof (lookup_lt_Some _ _ _ Ht) as Hlt.
  unfold Vector_Erase, Vector_begin, Vector_end.
  erewrite bind_ok by (by erewrite bind_ok by by apply get_vec_ok).
  unfold GetAddress at 1. rewrite ptr_diff_add. erewrite bind_ok by done.
  erewrite bind_ok by (by erewrite bind_ok by by apply get_vec_ok).
  erewrite bind_throw; [done|].
  apply holds_inv in Hh as [(_ & ? & _)|(b & Hb & Hcap & Hbl & Hsz & Hle)].
  { by destruct xs1. }
  rewrite length_app in Hsz, Hle. simpl in Hsz, Hle.
  unfold GetAddress. rewrite Hb, Hsz. unfold move, ptr_diff. norm.
  rewrite Nat.eqb_refl.
  destruct (Nat.leb_spec (0 + length xs1 + 1)
              (0 + (length xs1 + S (length (a ++ y :: rest))))); [|lia].
  simpl andb. cbv iota. erewrite bind_ok by done.
  replace (0 + (length xs1 + S (length (a ++ y :: rest))) - (0 + length xs1 + 1))
    with (length (a ++ y :: rest)) by lia.
  replace (0 + length xs1 + 1) with (S (length xs1)) by lia.
  change (0 + length xs1) with (length xs1).
  rewrite layout_app in Hbl. simpl in Hbl.
  erewrite (move_n_throw a y rest z (Some <$> xs1)); cycle 1.
  - exact Hbl.
  - done.
  - done.
  - by rewrite length_fmap.
  - done.
  - simpl blk. do 3 f_equal. unfold layout.
    rewrite !fmap_app, <- !app_assoc, !length_app. simpl.
    rewrite ?length_app. simpl. seg_eq.
Qed.

(** ** The sized constructor *)

Lemma sized_zero h o :
  Vector_sized new_ok 0 (mkState h o)
  = Ok (length o) (mkState h (o ++ [Some (mkVector RawMemory_default 0)])).
Proof. done. Qed.

Lemma sized_bad_alloc h o n :
  n <> 0 -> new_ok (length h) n = false ->
  Vector_sized new_ok n (mkState h o) = Throw (mkState h o).
Proof.
  intros Hn Hok. unfold Vector_sized.
  erewrite bind_throw; [done|]. by apply RawMemory_ctor_throw.
Qed.

Lemma sized_ok h o n v :
  n <> 0 -> new_ok (length h) n = true -> value_init = Some v ->
  Vector_sized new_ok n (mkState h o)
  = Ok (length o)
       (mkState (h ++ [Some (layout (replicate n v) n)])
                (o ++ [Some (mkVector (mkRawMemory (Ptr (S (length h)) 0) n) n)])).
Proof.
  intros Hn Hok Hv. unfold Vector_sized.
  erewrite bind_ok by by apply RawMemory_ctor_ok.
  cbn [GetAddress buffer_].
  erewrite bind_ok.
  2:{ apply on_throw_ok. unfold uninitialized_value_construct_n.
      eapply (uninitialized_value_construct_loop_ok (replicate n None) v [] [] []);
        [done| |done|done|by rewrite length_replicate].
      rewrite block_at_new. simpl. by rewrite app_nil_r. }
  rewrite new_obj_ok. simpl app. rewrite app_nil_r, set_block_new.
  do 4 f_equal. unfold layout. rewrite length_replicate, Nat.sub_diag.
  by rewrite app_nil_r.
Qed.

Lemma sized_throw h o n :
  n <> 0 -> new_ok (length h) n = true -> value_init = None ->
  Vector_sized new_ok n (mkState h o) = Throw (mkState (h ++ [None]) o).
Proof.
  intros Hn Hok Hv. unfold Vector_sized.
  erewrite bind_ok by by apply RawMemory_ctor_ok.
  cbn [GetAddress buffer_].
  erewrite bind_throw; [done|].
  eapply on_throw_throw.
  - unfold uninitialized_value_construct_n.
    eapply (uninitialized_value_construct_loop_throw [] [] (replicate n None) []);
      [done| |done|done|done].
    rewrite block_at_new. simpl. by rewrite app_nil_r.
  - rewrite set_block_new. apply drop_new_block'.
Qed.

(** ** [Emplace] in place, when an element operation throws *)

Lemma Emplace_inplace_move_throw h o this t ys z k args :
  o !! this = Some (Some t) -> holds h t (ys ++ [z]) ->
  size_ t <> capacity_ (data_ t) -> k <= S (length ys) ->
  move_throws z = true ->
  Vector_Emplace new_ok this (buffer_ (data_ t) .+ k) args (mkState h o)
  = Throw (mkState h o).
Proof.
  intros Ht Hh Hfull Hk Hz.
  apply holds_inv in Hh as [(_ & Hnil & _)|(b & Hb & Hcap & Hbl & Hsz & Hle)].
  { by destruct ys. }
  rewrite length_app in Hsz, Hle. simpl in Hsz, Hle.
  unfold Vector_Emplace, Vector_begin.
  erewrite bind_ok by by apply get_vec_ok.
  erewrite bind_ok by (by erewrite bind_ok by by apply get_vec_ok).
  unfold GetAddress. rewrite ptr_diff_add. erewrite bind_ok by done.
  unfold RawMemory_Capacity.
  destruct (Nat.eqb_spec (size_ t) (capacity_ (data_ t))); [done|].
  destruct (Nat.eqb_spec (size_ t) 0); [lia|]. cbn [negb].
  rewrite Hb. norm.
  unfold RawMemory_plus. rewrite Hb.
  destruct (Nat.leb_spec (size_ t) (capacity_ (data_ t))); [|lia].
  rewrite Hsz. replace (length ys + 1) with (S (length ys)) by lia.
  norm. change (0 + S (length ys)) with (S (length ys)).
  rewrite ptr_sub_S.
  erewrite bind_throw; [done|].
  erewrite bind_throw; [done|].
  erewrite bind_ok by done.
  erewrite bind_throw; [done|].
  unfold move_construct_at, read_arg.
  erewrite bind_ok.
  2:{ eapply load_ok; [exact Hbl|]. unfold layout. rewrite fmap_app, <- app_assoc.
      apply lookup_segment. by rewrite length_fmap. }
  by rewrite Hz.
Qed.



(** ** The invariant of the store *)

Lemma wf_holds h o :
  wf (mkState h o) = true <->
  (forall i v, o !! i = Some (Some v) -> exists xs, holds h v xs) /\
  (forall i j v w, i <> j -> o !! i = Some (Some v) -> o !! j = Some (Some w) ->
                   blk (buffer_ (data_ v)) <> 0 ->
                   blk (buffer_ (data_ v)) <> blk (buffer_ (data_ w))).
Proof.
  rewrite wf_spec. cbn [objs]. split; intros [Hv Hd]; (split; [|done]).
  - intros i v Hi. exists (elements (mkState h o) v).
    apply (valid_holds (mkState h o)). by eapply Hv.
  - intros i v Hi. destruct (Hv i v Hi) as [xs Hh].
    by apply (holds_valid (mkState h o)) in Hh as [? _].
Qed.

Lemma holds_frame h h' v xs :
  holds h v xs ->
  (blk (buffer_ (data_ v)) <> 0 ->
   block_at h' (blk (buffer_ (data_ v))) = block_at h (blk (buffer_ (data_ v)))) ->
  holds h' v xs.
Proof.
  intros Hh Hf. pose proof Hh as (Hsz & Hle & _).
  apply holds_inv in Hh as [(Hd & -> & Hz)|(b & Hb & Hc & Hbl & _)].
  - by apply holds_null.
  - destruct v as [[buf cap] sz]. cbn [data_ buffer_ capacity_ size_] in *.
    subst buf. cbn [blk] in Hf.
    apply holds_block; [done|done|done|]. by rewrite Hf.
Qed.

Lemma block_at_app_le h b x : b <= length h -> block_at (h ++ x) b = block_at h b.
Proof.
  intros Hb. destruct b as [|i]; simpl; [done|].
  by rewrite lookup_app_l by lia.
Qed.

Lemma block_at_app_None h b : block_at (h ++ [None]) b = block_at h b.
Proof.
  destruct b as [|i]; simpl; [done|].
  destruct (decide (i < length h)) as [Hi|Hi].
  - by rewrite lookup_app_l.
  - rewrite lookup_app_r by lia. rewrite (lookup_ge_None_2 h i) by lia.
    by destruct (i - length h).
Qed.

Lemma block_at_release_ne h r b :
  releasable h r -> b <> blk (buffer_ r) ->
  block_at (release r h) b = block_at h b.
Proof.
  unfold release. intros [Hn|(k & bl & Hb & _)] Hne.
  - by rewrite Hn.
  - rewrite Hb in *. simpl in *. destruct b as [|i]; simpl; [done|].
    rewrite list_lookup_insert_ne; [done|lia].
Qed.

(** One object of the store changes, or begins to exist: the invariant is
    kept when the object is valid in the new heap, its block is that of
    no other object, and the blocks of the others are as they were. *)
Lemma wf_change h o h' o' this :
  wf (mkState h o) = true ->
  (forall j, j <> this -> o' !! j = o !! j) ->
  (forall t', o' !! this = Some (Some t') ->
     (exists ys, holds h' t' ys) /\
     (forall j w, j <> this -> o !! j = Some (Some w) ->
                  blk (buffer_ (data_ w)) <> 0 ->
                  blk (buffer_ (data_ w)) <> blk (buffer_ (data_ t')))) ->
  (forall j w, j <> this -> o !! j = Some (Some w) ->
     blk (buffer_ (data_ w)) <> 0 ->
     block_at h' (blk (buffer_ (data_ w))) = block_at h (blk (buffer_ (data_ w)))) ->
  wf (mkState h' o') = true.
Proof.
  intros Hwf Hsame Hnew Hframe. apply wf_holds in Hwf as [Hv Hd].
  apply wf_holds. split.
  - intros i v Hi. destruct (decide (i = this)) as [->|Hne].
    + by apply Hnew.
    + rewrite Hsame in Hi by done. destruct (Hv i v Hi) as [xs Hh].
      exists xs. eapply holds_frame; [done|]. by eapply Hframe.
  - intros i j v w Hij Hi Hj Hnz.
    destruct (decide (i = this)) as [->|Hi'], (decide (j = this)) as [->|Hj'].
    + done.
    + rewrite Hsame in Hj by done.
      destruct (Hnew v Hi) as [_ Hfresh].
      destruct (decide (blk (buffer_ (data_ w)) = 0)) as [Hw|Hw]; [congruence|].
      intros E. by eapply (Hfresh j w).
    + rewrite Hsame in Hi by done.
      destruct (Hnew w Hj) as [_ Hfresh]. by eapply Hfresh.
    + rewrite Hsame in Hi, Hj by done. by eapply (Hd i j).
Qed.

Lemma wf_lookup h o i v :
  wf (mkState h o) = true -> o !! i = Some (Some v) -> exists xs, holds h v xs.
Proof. intros Hwf Hi. apply wf_holds in Hwf as [Hv _]. by eapply Hv. Qed.

Lemma wf_other_block h o this t j w :
  wf (mkState h o) = true -> o !! this = Some (Some t) ->
  j <> this -> o !! j = Some (Some w) -> blk (buffer_ (data_ w)) <> 0 ->
  blk (buffer_ (data_ w)) <> blk (buffer_ (data_ t)) /\
  blk (buffer_ (data_ w)) <= length h.
Proof.
  intros Hwf Ht Hne Hj Hnz. apply wf_holds in Hwf as [Hv Hd]. split.
  - by eapply (Hd j this).
  - destruct (Hv j w Hj) as [xs Hh]. by eapply holds_blk_le.
Qed.











(** ** The vectors after a failure *)

Lemma unchanged_refl st : unchanged st st.
Proof. done. Qed.





(** ** The invariant after each operation *)













Lemma length_value_fill k :
  value_init <> None \/ k = 0 -> length (value_fill k) = k.
Proof.
  unfold value_fill. destruct value_init.
  - intros _. apply length_replicate.
  - by intros [?| ->].
Qed.





Lemma Emplace_empty_inplace_throw h o this t args :
  o !! this = Some (Some t) -> holds h t [] ->
  size_ t <> capacity_ (data_ t) ->
  external args = true -> built args = None ->
  Vector_Emplace new_ok this (buffer_ (data_ t) .+ 0) args (mkState h o)
  = Throw (mkState h o).
Proof.
  intros Ht Hh Hfull He Hx.
  apply holds_inv in Hh as [(Hdt & _ & Hz)|(b & Hb & Hcap & Hbl & Hsz & Hle)].
  { rewrite Hdt in Hfull. simpl in Hfull. lia. }
  simpl in Hsz.
  unfold Vector_Emplace, Vector_begin.
  erewrite bind_ok by by apply get_vec_ok.
  erewrite bind_ok by (by erewrite bind_ok by by apply get_vec_ok).
  unfold GetAddress. rewrite ptr_diff_add. erewrite bind_ok by done.
  unfold RawMemory_Capacity.
  destruct (Nat.eqb_spec (size_ t) (capacity_ (data_ t))); [done|].
  rewrite Hsz. cbn [Nat.eqb negb].
  erewrite bind_throw; [done|].
  erewrite bind_ok by done.
  unfold RawMemory_plus. cbn [Nat.leb]. erewrite bind_ok by done.
  erewrite bind_throw; [done|].
  by apply emplace_at_throw.
Qed.

Lemma obj_at h o this t :
  o !! this = Some (Some t) ->
  size_at (mkState h o) this = size_ t /\
  capacity_at (mkState h o) this = capacity_ (data_ t) /\
  alive (mkState h o) this = true.
Proof. unfold size_at, capacity_at, alive, obj. cbn [objs]. by intros ->. Qed.

Lemma alive_lookup h o this :
  alive (mkState h o) this = true -> exists t, o !! this = Some (Some t).
Proof.
  unfold alive, obj. cbn [objs]. destruct (o !! this) as [[t|]|]; eauto; done.
Qed.


(** * The claims *)

(** C1, as amended: move-constructing B from A leaves A empty (length 0,
    capacity 0) and B holding exactly the elements A held, in order;
    move-assigning A into another vector B exchanges the two: B holds
    exactly the elements A held, and A holds the elements, the length and
    the capacity B had. *)
Theorem move_transfers_elements st a va :
  obj st a = Some va ->
  (exists st',
      Vector_move_ctor a st = Ok (length (objs st)) st' /\
      contents st' (length (objs st)) = contents st a /\
      Size st' a = Some 0 /\ Capacity st' a = Some 0 /\
      contents st' a = Some []) /\
  (forall b vb, obj st b = Some vb -> a <> b ->
    exists st',
      Vector_move_assign b a st = Ok tt st' /\
      contents st' b = contents st a /\
      contents st' a = contents st b /\
      Size st' a = Size st b /\ Capacity st' a = Capacity st b).
Proof.
  intros Ha. destruct st as [h o].
  pose proof Ha as Ha'.
  apply obj_lookup in Ha'. cbn [objs] in Ha'.
  pose proof (lookup_lt_Some _ _ _ Ha') as Hla.
  split; [|intros b vb Hb Hne; pose proof Hb as Hb';
           apply obj_lookup in Hb'; cbn [objs] in Hb';
           pose proof (lookup_lt_Some _ _ _ Hb') as Hlb].
  - eexists. split; [by apply move_ctor_ok|].
    unfold contents, Size, Capacity, obj. cbn [objs].
    rewrite list_lookup_insert_ne by lia.
    rewrite list_lookup_middle by done.
    rewrite list_lookup_insert_eq by (rewrite length_app; simpl; lia).
    rewrite Ha'. by repeat split.
  - eexists. split; [unfold Vector_move_assign; by eapply Swap_ok|].
    unfold contents, Size, Capacity, obj. cbn [objs].
    rewrite list_lookup_insert_eq by (by rewrite length_insert).
    rewrite list_lookup_insert_ne by done.
    rewrite list_lookup_insert_eq by done.
    rewrite Ha', Hb'. by repeat split.
Qed.

(** C2, as amended: move construction and move assignment of a
    [RawMemory] give the destination the block pointer and the capacity of
    the source; move assignment leaves in the source the block pointer and
    the capacity the destination had. *)
Theorem RawMemory_move_transfers (this rhs : RawMemory) :
  buffer_ (fst (RawMemory_move_ctor rhs)) = buffer_ rhs /\
  capacity_ (fst (RawMemory_move_ctor rhs)) = capacity_ rhs /\
  fst (RawMemory_move_assign this rhs) = rhs /\
  snd (RawMemory_move_assign this rhs) = this.
Proof. by destruct this, rhs. Qed.

(** The move constructor of [RawMemory] leaves its source as it was. *)
Lemma RawMemory_move_ctor_source (other : RawMemory) :
  snd (RawMemory_move_ctor other) = other.
Proof. done. Qed.

(** C10: copy-assigning a vector to itself changes nothing. *)
Theorem copy_assign_self st this :
  Vector_copy_assign new_ok this this st = Ok tt st.
Proof. unfold Vector_copy_assign. by case_decide. Qed.

(** C9: [PopBack] on an empty vector returns and changes nothing; on a
    vector that is not empty it destroys the last element (the slot is raw
    memory afterwards, the vector is valid with one element less) and
    leaves the capacity and the other elements as they were. *)
Theorem PopBack_spec st this c xs :
  is_vector st this c xs ->
  (xs = [] -> Vector_PopBack this st = Ok tt st) /\
  (xs <> [] -> exists st',
      Vector_PopBack this st = Ok tt st' /\
      is_vector st' this c (take (length xs - 1) xs)).
Proof.
  intros Hv. apply is_vector_holds in Hv as (t & Ht & Hh & <-).
  destruct st as [h o]. cbn [objs heap] in *. split.
  - intros ->. destruct Hh as (Hsz & _). by eapply PopBack_empty.
  - intros Hne. destruct (last xs) as [x|] eqn:Hl; [|by apply last_None in Hl].
    apply last_Some in Hl as [ys ->].
    eexists. split; [by eapply PopBack_ok|].
    rewrite length_app. simpl. replace (length ys + 1 - 1) with (length ys) by lia.
    rewrite take_app_length.
    eapply (is_vector_intro _ _ _ (mkVector (data_ t) (length ys))).
    + apply list_lookup_insert_eq. by eapply lookup_lt_Some.
    + eapply holds_update; [done|].
      destruct Hh as (_ & Hle & _). rewrite length_app in Hle. lia.
Qed.

(** C8: [Reserve(c)] on a vector whose capacity is at least [c] changes
    nothing, and a second [Reserve(c)] after a first one changes nothing. *)
Theorem Reserve_idempotent st this cap xs c :
  is_vector st this cap xs ->
  (c <= cap -> Vector_Reserve new_ok this c st = Ok tt st) /\
  (forall st1, Vector_Reserve new_ok this c st = Ok tt st1 ->
               Vector_Reserve new_ok this c st1 = Ok tt st1).
Proof.
  intros Hv. apply is_vector_holds in Hv as (t & Ht & Hh & <-).
  destruct st as [h o]. cbn [objs heap] in *. split.
  - intros Hc. by eapply Reserve_noop.
  - intros st1 Hr.
    destruct (le_lt_dec c (capacity_ (data_ t))) as [Hc|Hc].
    { erewrite Reserve_noop in Hr by done. injection Hr as <-.
      by eapply Reserve_noop. }
    destruct (new_ok (length h) c) eqn:Hn.
    2:{ by erewrite Reserve_bad_alloc in Hr. }
    destruct (relocate_cases xs) as [Hx|(xs1 & x & xs2 & -> & Hx)].
    2:{ by erewrite Reserve_throw in Hr. }
    erewrite Reserve_ok in Hr by done. injection Hr as <-.
    eapply Reserve_noop.
    + apply list_lookup_insert_eq. by eapply lookup_lt_Some.
    + done.
Qed.


(** [Emplace] when capacity is available: the new element is at index
    [k] of the elements as the move of the last one has left them. *)
Lemma Emplace_inplace_spec st this c xs t args x k :
  is_vector st this c xs -> obj st this = Some t -> length xs < c ->
  k <= length xs ->
  external args = true -> built args = Some x ->
  no_move_throw xs -> no_move_throw (moved_last xs) ->
  exists p st',
    Vector_Emplace new_ok this (buffer_ (data_ t) .+ k) args st = Ok p st' /\
    is_vector st' this c
      (take k (moved_last xs) ++ x :: drop k (moved_last xs)).
Proof.
  intros Hv Ho Hfree Hk He Hx Hm Hm'.
  apply is_vector_holds in Hv as (t' & Ht & Hh & <-).
  apply obj_lookup in Ho. assert (t' = t) as -> by congruence.
  destruct st as [h o]. cbn [objs heap] in *.
  pose proof Hh as (Hsz & Hle & _).
  unfold moved_last in *.
  destruct (last xs) as [z|] eqn:Hl.
  - apply last_Some in Hl as [ys ->].
    rewrite length_app in *. simpl in *.
    replace (length ys + 1 - 1) with (length ys) in * by lia.
    rewrite take_app_length in *.
    set (cur := ys ++ [moved z]) in *.
    assert (length cur = length ys + 1) as Hlc.
    { unfold cur. rewrite length_app. simpl. lia. }
    assert (length (take k cur) = k) as Hlk by (apply length_take_le; lia).
    do 2 eexists. split.
    + rewrite <- Hlk at 1.
      eapply (Emplace_inplace_ok _ _ _ _ ys z (take k cur) (drop k cur));
        try done.
      * lia.
      * by rewrite take_drop.
      * apply Forall_app in Hm as [_ Hm]. by inversion Hm.
      * by apply Forall_drop.
    + replace (size_ t + 1) with (length (take k cur ++ x :: drop k cur)).
      2:{ rewrite length_app. simpl. rewrite length_drop. lia. }
      eapply (is_vector_intro _ _ _ (mkVector (data_ t) _)).
      * apply list_lookup_insert_eq. by eapply lookup_lt_Some.
      * eapply holds_update; [done|].
        rewrite length_app. simpl. rewrite length_drop. lia.
  - apply last_None in Hl as ->. simpl in *.
    assert (k = 0) as -> by lia. simpl.
    do 2 eexists. split.
    + eapply Emplace_empty_inplace_ok; try done. lia.
    + rewrite Hsz. change (0 + 1) with (length [x]).
      eapply (is_vector_intro _ _ _ (mkVector (data_ t) _)).
      * apply list_lookup_insert_eq. by eapply lookup_lt_Some.
      * eapply holds_update; [done|]. simpl. lia.
Qed.

(** For an element type whose moves leave the source as it was, so does
    [Emplace] in place. *)
Lemma moved_last_trivial xs : (forall y : T, moved y = y) -> moved_last xs = xs.
Proof.
  intros Hid. unfold moved_last. destruct (last xs) as [z|] eqn:Hl; [|done].
  apply last_Some in Hl as [ys ->]. rewrite Hid, length_app. simpl.
  replace (length ys + 1 - 1) with (length ys) by lia.
  by rewrite take_app_length.
Qed.


Lemma at_index_eq h o this t k (f : pointer -> M T pointer) :
  o !! this = Some (Some t) ->
  at_index this k f (mkState h o)
  = (f (buffer_ (data_ t) .+ k);; ret tt) (mkState h o).
Proof.
  intros Ht. unfold at_index, Vector_begin.
  by erewrite bind_ok by (by erewrite bind_ok by by apply get_vec_ok).
Qed.



End Facts.

Section Claims.

Context {T : Type} `{Element T}.

Variable new_ok : nat -> nat -> bool.

(** C4: copy assignment into a destination whose capacity is less than
    the length of the source.  When the allocation succeeds and every
    element copies, the assignment returns: the heap has one block more, of
    exactly [source.length] slots, the destination is a valid vector of
    that capacity holding the elements of the source, and the source is as
    it was.  When the allocation fails or the copy of an element throws,
    the exception leaves the assignment: the store of vectors is as it
    was, the destination is valid and holds what it held, and so does the
    source.  Nothing else can happen. *)
Theorem copy_assign_reallocating (st : State T) this rhs ct xs cr ys :
  this <> rhs ->
  is_vector st this ct xs -> is_vector st rhs cr ys -> ct < length ys ->
  (new_ok (length (heap st)) (length ys) = true -> no_copy_throw ys ->
   exists st',
     Vector_copy_assign new_ok this rhs st = Ok tt st' /\
     length (heap st') = S (length (heap st)) /\
     (exists bl, heap st' !! length (heap st) = Some (Some bl) /\
                 length bl = length ys) /\
     is_vector st' this (length ys) ys /\
     (wf st = true -> is_vector st' rhs cr ys)) /\
  (new_ok (length (heap st)) (length ys) = false \/ ~ no_copy_throw ys ->
   exists st',
     Vector_copy_assign new_ok this rhs st = Throw st' /\
     objs st' = objs st /\
     is_vector st' this ct xs /\ is_vector st' rhs cr ys) /\
  (forall st',
     Vector_copy_assign new_ok this rhs st = Throw st' ->
     (new_ok (length (heap st)) (length ys) = false \/ ~ no_copy_throw ys) /\
     objs st' = objs st /\ is_vector st' this ct xs) /\
  Vector_copy_assign new_ok this rhs st <> Undefined.
Proof.
  intros Hne Hvt Hvr Hcap.
  apply is_vector_holds in Hvt as (t & Ht & Hh & <-).
  apply is_vector_holds in Hvr as (r & Hr & Hhr & <-).
  destruct st as [h o]. cbn [objs heap] in *.
  pose proof Hhr as (Hsz' & _). rewrite <- Hsz' in *.
  assert (is_vector (mkState h o) this (capacity_ (data_ t)) xs) as Hsame
    by (by apply is_vector_intro).
  assert (is_vector (mkState (h ++ [None]) o) this (capacity_ (data_ t)) xs)
    as Hsame' by (by apply is_vector_intro, holds_app).
  assert (is_vector (mkState h o) rhs (capacity_ (data_ r)) ys) as Hsrc
    by (by apply is_vector_intro).
  assert (is_vector (mkState (h ++ [None]) o) rhs (capacity_ (data_ r)) ys)
    as Hsrc' by (by apply is_vector_intro, holds_app).
  destruct (new_ok (length h) (size_ r)) eqn:Hn.
  - destruct (first_throw copy_throws ys) as [Hc|(ys1 & y & ys2 & -> & Hc & Hy)].
    + erewrite copy_assign_realloc_ok by done.
      split; [|split; [|split; [done|done]]].
      * intros _ _. eexists. split; [done|]. cbn [heap].
        rewrite length_app, length_release. simpl.
        split; [lia|]. split; [|split].
        -- exists (layout ys (length ys)).
           rewrite <- (length_release (data_ t) h), list_lookup_middle by done.
           split; [done|]. by rewrite length_layout.
        -- rewrite Hsz'.
           eapply (is_vector_intro _ _ _
                     (mkVector (mkRawMemory (Ptr (S (length h)) 0) (length ys)) _)).
           ++ apply lookup_app_l_Some, list_lookup_insert_eq.
              by eapply lookup_lt_Some.
           ++ apply holds_fresh; [done|lia|done].
        -- intros Hwf. apply is_vector_intro.
           ++ apply lookup_app_l_Some. by rewrite list_lookup_insert_ne.
           ++ apply holds_app. eapply holds_frame; [done|]. intros Hnz.
              apply block_at_release_ne; [by eapply holds_releasable|].
              by eapply (wf_other_block h o this t rhs r).
      * intros [[=]|Hno]. done.
    + erewrite copy_assign_realloc_throw by done.
      assert (~ no_copy_throw (ys1 ++ y :: ys2)) as Hno.
      { intros Hall. apply Forall_app in Hall as [_ Hall].
        inversion Hall; congruence. }
      split; [|split; [|split; [|done]]].
      * intros _ Hall. done.
      * intros _. by eexists.
      * intros st' [= <-]. split; [by right|done].
  - erewrite copy_assign_realloc_bad_alloc by done.
    split; [done|]. split; [|split; [|done]].
    + intros _. by eexists.
    + intros st' [= <-]. split; [by left|done].
Qed.

(** C5: copy assignment of a source shorter than the destination, whose
    elements copy without an exception: it returns, allocates nothing and
    keeps the block and the capacity of the destination, which is valid
    with the elements of the source (the slots after them are raw memory
    again). *)
Theorem copy_assign_shrinking (st : State T) this rhs ct xs cr ys :
  wf st = true -> this <> rhs ->
  is_vector st this ct xs -> is_vector st rhs cr ys ->
  length ys < length xs -> no_copy_throw ys ->
  exists st',
    Vector_copy_assign new_ok this rhs st = Ok tt st' /\
    is_vector st' this ct ys /\
    length (heap st') = length (heap st) /\
    (data_ <$> obj st' this) = (data_ <$> obj st this).
Proof.
  intros Hwf Hne Hvt Hvr Hlt Hc.
  pose proof Hvt as (t0 & Hot & _).
  apply is_vector_holds in Hvt as (t & Ht & Hh & <-).
  apply is_vector_holds in Hvr as (r & Hr & Hhr & <-).
  assert (blk (buffer_ (data_ r)) <> blk (buffer_ (data_ t)) \/ ys = []) as Hd.
  { eapply wf_distinct; try done; by apply obj_lookup. }
  destruct st as [h o]. cbn [objs heap] in *.
  eexists. split; [by eapply copy_assign_shrink_ok|].
  split; [|split].
  - eapply (is_vector_intro _ _ _ (mkVector (data_ t) _)).
    + apply list_lookup_insert_eq. by eapply lookup_lt_Some.
    + eapply holds_update; [done|]. destruct Hh as (_ & Hle & _). lia.
  - cbn [heap]. apply length_set_block.
  - unfold obj. cbn [objs].
    rewrite list_lookup_insert_eq by by eapply lookup_lt_Some.
    by rewrite Ht.
Qed.

End Claims.

(** * Further properties *)

Section Further.

Context {T : Type} `{Element T}.

Variable new_ok : nat -> nat -> bool.

Implicit Types (h : list (option (list (option T)))) (o : list (option Vector)).
Implicit Types (st : State T) (xs ys : list T).

(** ** Counting blocks *)

Lemma count_if_app {A} (f : A -> bool) (l l' : list A) :
  count_if f (l ++ l') = count_if f l + count_if f l'.
Proof. unfold count_if. by rewrite List.filter_app, length_app. Qed.

Lemma count_if_singleton {A} (f : A -> bool) (a : A) :
  count_if f [a] = if f a then 1 else 0.
Proof. unfold count_if. simpl. by destruct (f a). Qed.

Lemma count_if_insert {A} (f : A -> bool) (l : list A) i a b :
  l !! i = Some a ->
  count_if f (<[i := b]> l) + (if f a then 1 else 0)
  = count_if f l + (if f b then 1 else 0).
Proof.
  unfold count_if. revert i. induction l as [|x l IH]; intros [|i]; simpl; try done.
  - intros [= ->]. destruct (f a), (f b); simpl; lia.
  - intros Hi. specialize (IH i Hi). destruct (f x); simpl; lia.
Qed.

Lemma live_blocks_set_block h b bl bl' :
  block_at h b = Some bl -> live_blocks (set_block h b bl') = live_blocks h.
Proof.
  destruct b as [|i]; simpl; [done|].
  destruct (h !! i) as [[?|]|] eqn:E; try done. intros _.
  pose proof (count_if_insert allocated h i _ (Some bl') E) as Hc.
  simpl in Hc. unfold live_blocks. lia.
Qed.

Lemma live_blocks_vector h t xs bl :
  holds h t xs ->
  live_blocks (set_block h (blk (buffer_ (data_ t))) bl) = live_blocks h.
Proof.
  intros Hh. apply holds_inv in Hh as [(Hd & _)|(b & Hb & _ & Hbl & _)].
  - by rewrite Hd.
  - rewrite Hb. by eapply live_blocks_set_block.
Qed.

Lemma live_blocks_release h t xs :
  holds h t xs ->
  live_blocks (release (data_ t) h) + (if owns_block (Some t) then 1 else 0)
  = live_blocks h.
Proof.
  intros Hh. unfold release, owns_block.
  apply holds_inv in Hh as [(Hd & _)|(b & Hb & _ & Hbl & _)].
  - rewrite Hd. simpl. lia.
  - rewrite Hb. simpl in *.
    destruct (h !! b) as [[?|]|] eqn:E; try done.
    pose proof (count_if_insert allocated h b _ None E) as Hc.
    simpl in Hc. unfold live_blocks. lia.
Qed.

Lemma live_blocks_app_None h : live_blocks (h ++ [None]) = live_blocks h.
Proof. unfold live_blocks, count_if. rewrite List.filter_app, length_app. simpl. lia. Qed.

Lemma live_blocks_app_Some h bl : live_blocks (h ++ [Some bl]) = S (live_blocks h).
Proof. unfold live_blocks, count_if. rewrite List.filter_app, length_app. simpl. lia. Qed.

Lemma owned_blocks_insert o i v v' :
  o !! i = Some v ->
  owned_blocks (<[i := v']> o) + (if owns_block v then 1 else 0)
  = owned_blocks o + (if owns_block v' then 1 else 0).
Proof. apply count_if_insert. Qed.

(** ** The other vectors *)

Lemma is_vector_app h o x y j c xs :
  is_vector (mkState h o) j c xs -> is_vector (mkState (h ++ x) (o ++ y)) j c xs.
Proof.
  intros Hv. apply is_vector_holds in Hv as (t & Ht & Hh & <-).
  cbn [objs heap] in *. apply is_vector_intro.
  - by apply lookup_app_l_Some.
  - by apply holds_app.
Qed.

Lemma is_vector_same_objs h h' o j c xs :
  is_vector (mkState h o) j c xs ->
  (forall t, o !! j = Some (Some t) -> blk (buffer_ (data_ t)) <> 0 ->
             block_at h' (blk (buffer_ (data_ t)))
             = block_at h (blk (buffer_ (data_ t)))) ->
  is_vector (mkState h' o) j c xs.
Proof.
  intros Hv Hf. apply is_vector_holds in Hv as (t & Ht & Hh & <-).
  cbn [objs heap] in *. apply is_vector_intro; [done|].
  eapply holds_frame; [done|]. by apply Hf.
Qed.

(** ** Construction and destruction *)

(** X1: for a [size] whose byte count [size * sizeof(T)] does not exceed
    [SIZE_MAX], [Vector(size)] makes a vector of [size] value-initialized
    elements in a block of exactly [size] slots; [Vector(0)] allocates
    nothing and constructs no element.  The vectors there were are as
    they were. *)
Theorem Vector_sized_spec st n :
  fits n = true ->
  (n <> 0 -> new_ok (length (heap st)) n = true /\ value_init <> None) ->
  exists st',
    Vector_sized new_ok n st = Ok (length (objs st)) st' /\
    is_vector st' (length (objs st)) n (value_fill n) /\
    length (heap st') = length (heap st) + (if n =? 0 then 0 else 1) /\
    (forall j c xs, is_vector st j c xs -> is_vector st' j c xs).
Proof.
  intros _ Hn. destruct st as [h o]. cbn [heap objs] in *.
  destruct (decide (n = 0)) as [->|Hz].
  - rewrite sized_zero. eexists. split; [done|]. cbn [heap]. split; [|split].
    + apply (is_vector_intro _ _ _ (mkVector RawMemory_default 0)).
      * by apply list_lookup_middle.
      * apply holds_null; [done|done|]. unfold value_fill. by destruct value_init.
    + simpl. lia.
    + intros j c xs Hv. rewrite <- (app_nil_r h). by apply is_vector_app.
  - destruct (Hn Hz) as [Hok Hv]. destruct value_init as [v|] eqn:Ev; [|done].
    erewrite sized_ok by done. eexists. split; [done|]. cbn [heap].
    split; [|split].
    + unfold value_fill. rewrite Ev.
      apply (is_vector_intro _ _ _ (mkVector (mkRawMemory (Ptr (S (length h)) 0) n) n)).
      * by apply list_lookup_middle.
      * apply holds_block; [done|by rewrite length_replicate
                           |by rewrite length_replicate|apply block_at_new].
    + rewrite length_app. destruct (Nat.eqb_spec n 0); [done|]. simpl. lia.
    + intros j c xs. apply is_vector_app.
Qed.

(** X2: when the allocation of [Vector(size)] fails or [T()] throws, the
    exception leaves the constructor with no block left behind: the block
    just allocated has been released, no object has been made, and the
    vectors there were are as they were. *)
Theorem Vector_sized_failure st n :
  n <> 0 -> new_ok (length (heap st)) n = false \/ value_init = None ->
  exists st',
    Vector_sized new_ok n st = Throw st' /\
    objs st' = objs st /\
    live_blocks (heap st') = live_blocks (heap st) /\
    (forall j c xs, is_vector st j c xs -> is_vector st' j c xs).
Proof.
  intros Hn Hf. destruct st as [h o]. cbn [heap objs] in *.
  destruct (new_ok (length h) n) eqn:Hok.
  - destruct Hf as [|Hv]; [done|]. rewrite sized_throw by done.
    eexists. split; [done|]. split; [done|]. cbn [heap].
    split; [apply live_blocks_app_None|].
    intros j c xs Hj. rewrite <- (app_nil_r o). by apply is_vector_app.
  - rewrite sized_bad_alloc by done. eauto.
Qed.

(** X3: the copy constructor makes a vector with the elements of the
    source in a block of its own, of exactly [source.size] slots whatever
    the capacity of the source; an empty source is copied without an
    allocation.  The source and the other vectors are as they were. *)
Theorem Vector_copy_ctor_spec st other c xs :
  is_vector st other c xs ->
  (xs <> [] -> new_ok (length (heap st)) (length xs) = true) ->
  no_copy_throw xs ->
  exists st',
    Vector_copy_ctor new_ok other st = Ok (length (objs st)) st' /\
    is_vector st' (length (objs st)) (length xs) xs /\
    length (heap st') = length (heap st) + (if length xs =? 0 then 0 else 1) /\
    (forall j c' ys, is_vector st j c' ys -> is_vector st' j c' ys).
Proof.
  intros Hv Hok Hc. apply is_vector_holds in Hv as (t & Ht & Hh & <-).
  destruct st as [h o]. cbn [heap objs] in *. pose proof Hh as (Hsz & _).
  destruct xs as [|x xs].
  - erewrite copy_ctor_empty by done. eexists. split; [done|]. cbn [heap].
    split; [|split].
    + apply (is_vector_intro _ _ _ (mkVector RawMemory_default 0)).
      * by apply list_lookup_middle.
      * by apply holds_null.
    + simpl. lia.
    + intros j c ys Hj. rewrite <- (app_nil_r h). by apply is_vector_app.
  - rewrite <- Hsz in Hok.
    erewrite copy_ctor_ok; [|done|done|by rewrite Hsz|by apply Hok|done].
    eexists. split; [done|]. cbn [heap]. split; [|split].
    + apply (is_vector_intro _ _ _
               (mkVector (mkRawMemory (Ptr (S (length h)) 0) (length (x :: xs)))
                         (length (x :: xs)))).
      * by apply list_lookup_middle.
      * apply holds_block; [done|done|done|apply block_at_new].
    + rewrite length_app. simpl. lia.
    + intros j c ys. apply is_vector_app.
Qed.

(** X4: when the allocation of the copy fails or the copy of an element
    throws, the copies made so far are gone with their block: no block is
    left behind, no object has been made, and the source and the other
    vectors are as they were. *)
Theorem Vector_copy_ctor_failure st other c xs :
  is_vector st other c xs -> xs <> [] ->
  new_ok (length (heap st)) (length xs) = false \/ ~ no_copy_throw xs ->
  exists st',
    Vector_copy_ctor new_ok other st = Throw st' /\
    objs st' = objs st /\
    live_blocks (heap st') = live_blocks (heap st) /\
    (forall j c' ys, is_vector st j c' ys -> is_vector st' j c' ys).
Proof.
  intros Hv Hne Hf. apply is_vector_holds in Hv as (t & Ht & Hh & <-).
  destruct st as [h o]. cbn [heap objs] in *. pose proof Hh as (Hsz & _).
  rewrite <- Hsz in Hf.
  assert (size_ t <> 0) as Hnz by (rewrite Hsz; by destruct xs).
  destruct (new_ok (length h) (size_ t)) eqn:Hok.
  - destruct Hf as [|Hf]; [done|].
    destruct (first_throw copy_throws xs) as [Hc|(xs1 & x & xs2 & -> & Hc & Hx)];
      [done|].
    erewrite copy_ctor_throw by done.
    eexists. split; [done|]. split; [done|]. cbn [heap].
    split; [apply live_blocks_app_None|].
    intros j c ys Hj. rewrite <- (app_nil_r o). by apply is_vector_app.
  - erewrite copy_ctor_bad_alloc by done. eauto.
Qed.

Lemma holds_owns h t xs :
  holds h t xs -> owns_block (Some t) = negb (capacity_ (data_ t) =? 0).
Proof.
  intros Hh. unfold owns_block.
  apply holds_inv in Hh as [(Hd & _)|(b & Hb & Hc & _)].
  - by rewrite Hd.
  - rewrite Hb. simpl. by destruct (Nat.eqb_spec (capacity_ (data_ t)) 0).
Qed.

Lemma wf_dtor h o this t xs :
  wf (mkState h o) = true -> o !! this = Some (Some t) -> holds h t xs ->
  wf (mkState (release (data_ t) h) (<[this := None]> o)) = true /\
  (forall j c ys, j <> this -> is_vector (mkState h o) j c ys ->
     is_vector (mkState (release (data_ t) h) (<[this := None]> o)) j c ys).
Proof.
  intros Hwf Ht Hh. pose proof (lookup_lt_Some _ _ _ Ht) as Hlt.
  assert (forall j w, j <> this -> o !! j = Some (Some w) ->
            blk (buffer_ (data_ w)) <> 0 ->
            block_at (release (data_ t) h) (blk (buffer_ (data_ w)))
            = block_at h (blk (buffer_ (data_ w)))) as Hframe.
  { intros j w Hj Hw Hnz. apply block_at_release_ne; [by eapply holds_releasable|].
    by destruct (wf_other_block h o this t j w Hwf Ht Hj Hw Hnz). }
  split.
  - eapply (wf_change h o _ _ this); [done| | |done].
    + intros j Hj. by rewrite list_lookup_insert_ne.
    + intros t'. by rewrite list_lookup_insert_eq.
  - intros j c ys Hj Hv. apply is_vector_holds in Hv as (w & Hw & Hhw & <-).
    cbn [objs heap] in *. apply is_vector_intro.
    + by rewrite list_lookup_insert_ne.
    + eapply holds_frame; [done|]. by eapply Hframe.
Qed.

(** X5: the destructor of a valid vector returns: it ends the lifetime of
    the object and releases its block, if it has one, and nothing else;
    the other vectors stay valid and hold what they held. *)
Theorem Vector_dtor_spec st this c xs :
  wf st = true -> is_vector st this c xs ->
  exists st',
    Vector_dtor this st = Ok tt st' /\
    obj st' this = None /\
    live_blocks (heap st') + (if c =? 0 then 0 else 1) = live_blocks (heap st) /\
    wf st' = true /\
    (forall j c' ys, j <> this -> is_vector st j c' ys -> is_vector st' j c' ys).
Proof.
  intros Hwf Hv. apply is_vector_holds in Hv as (t & Ht & Hh & <-).
  destruct st as [h o]. cbn [heap objs] in *.
  erewrite dtor_ok by done. eexists. split; [done|].
  destruct (wf_dtor h o this t xs Hwf Ht Hh) as [Hwf' Hothers].
  split; [|split; [|done]].
  - unfold obj. cbn [objs].
    by rewrite list_lookup_insert_eq by by eapply lookup_lt_Some.
  - cbn [heap]. pose proof (live_blocks_release h t xs Hh) as Hl.
    rewrite (holds_owns h t xs Hh) in Hl.
    by destruct (capacity_ (data_ t) =? 0).
Qed.

(** X6: a vector that has been moved from can be destroyed, before the
    vector made from it: the two destructors return and release the one
    block once. *)
Theorem move_ctor_then_dtors st other c xs :
  is_vector st other c xs ->
  exists st',
    (this <- Vector_move_ctor other; Vector_dtor other;; Vector_dtor this) st
    = Ok tt st' /\
    obj st' other = None /\ obj st' (length (objs st)) = None /\
    live_blocks (heap st') + (if c =? 0 then 0 else 1) = live_blocks (heap st).
Proof.
  intros Hv. apply is_vector_holds in Hv as (t & Ht & Hh & <-).
  destruct st as [h o]. cbn [heap objs] in *.
  pose proof (lookup_lt_Some _ _ _ Ht) as Hlt.
  erewrite bind_ok by by apply move_ctor_ok.
  erewrite bind_ok.
  2:{ eapply (dtor_ok _ _ _ (mkVector RawMemory_default 0) []).
      - apply list_lookup_insert_eq. rewrite length_app. simpl. lia.
      - by apply holds_null. }
  cbn [data_]. unfold release at 1. cbn [buffer_ RawMemory_default].
  rewrite decide_True by done. rewrite list_insert_insert_eq.
  erewrite dtor_ok; [|rewrite list_lookup_insert_ne by lia;
                       by apply list_lookup_middle|done].
  eexists. split; [done|]. unfold obj. cbn [objs heap].
  split; [|split].
  - rewrite list_lookup_insert_ne by lia.
    rewrite list_lookup_insert_eq; [done|rewrite length_app; simpl; lia].
  - rewrite list_lookup_insert_eq; [done|].
    rewrite length_insert, length_app. simpl. lia.
  - pose proof (live_blocks_release h t xs Hh) as Hl.
    rewrite (holds_owns h t xs Hh) in Hl.
    by destruct (capacity_ (data_ t) =? 0).
Qed.

(** ** [RawMemory] *)

(** X7: for an [n] whose byte count [n * sizeof(T)] does not exceed
    [SIZE_MAX], [RawMemory(n)] and its destructor pair an [operator new],
    of a block of [n] slots, with one [operator delete]; [RawMemory(0)] is
    the null state, allocates nothing, and its destructor does nothing. *)
Theorem RawMemory_ctor_dtor st n :
  fits n = true ->
  (n <> 0 -> new_ok (length (heap st)) n = true) ->
  exists r st1 st',
    RawMemory_ctor new_ok n st = Ok r st1 /\
    capacity_ r = n /\ (buffer_ r = nullptr <-> n = 0) /\
    backing (heap st1) r = Some (replicate n None) /\
    RawMemory_dtor r st1 = Ok tt st' /\
    objs st' = objs st /\
    live_blocks (heap st') = live_blocks (heap st) /\
    length (heap st') = length (heap st) + (if n =? 0 then 0 else 1).
Proof.
  intros _ Hn. destruct st as [h o]. cbn [heap objs] in *.
  destruct (decide (n = 0)) as [->|Hz].
  - rewrite RawMemory_ctor_zero. do 3 eexists. split; [done|].
    repeat split; try done.
  - rewrite RawMemory_ctor_ok by auto. do 3 eexists. split; [done|].
    split; [done|]. split; [done|]. split.
    { unfold backing. cbn [buffer_ capacity_ off blk heap].
      rewrite decide_False by done. rewrite block_at_new, length_replicate.
      destruct (Nat.eqb_spec n 0); [done|]. simpl. by rewrite Nat.eqb_refl. }
    split.
    { apply RawMemory_dtor_ok. right. do 2 eexists. split; [done|].
      apply block_at_new. }
    unfold release. cbn [buffer_ blk heap objs]. rewrite decide_False by done.
    simpl pred. rewrite insert_segment by done.
    split; [done|]. split; [apply live_blocks_app_None|].
    rewrite length_app. destruct (Nat.eqb_spec n 0); [done|]. simpl. lia.
Qed.

(** X8: the move constructor of [RawMemory] leaves the block with two
    owners: once the new object and its source have both been destroyed,
    the block has been passed to [operator delete] twice. *)
Theorem RawMemory_move_ctor_double_free st n :
  n <> 0 -> new_ok (length (heap st)) n = true ->
  (r <- RawMemory_ctor new_ok n;
   RawMemory_dtor (fst (RawMemory_move_ctor r));;
   RawMemory_dtor (snd (RawMemory_move_ctor r))) st = Undefined.
Proof.
  intros Hn Hok. destruct st as [h o]. cbn [heap] in *.
  erewrite bind_ok by by apply RawMemory_ctor_ok.
  cbn [RawMemory_move_ctor fst snd buffer_ capacity_].
  erewrite bind_ok.
  2:{ apply RawMemory_dtor_ok. right. do 2 eexists. split; [done|].
      apply block_at_new. }
  unfold release. cbn [buffer_ blk]. rewrite decide_False by done.
  simpl pred. rewrite insert_segment by done.
  unfold RawMemory_dtor, Deallocate. cbn [buffer_].
  rewrite decide_False by done.
  unfold bind, block_of. cbn [heap blk block_at].
  by rewrite list_lookup_middle.
Qed.

(** ** [Reserve], [Resize], [EmplaceBack], [PushBack] *)

Lemma is_vector_inplace h o this t xs ys n :
  o !! this = Some (Some t) -> holds h t xs ->
  length ys <= capacity_ (data_ t) -> n = length ys ->
  is_vector (mkState (set_block h (blk (buffer_ (data_ t)))
                                (layout ys (capacity_ (data_ t))))
                     (<[this := Some (mkVector (data_ t) n)]> o))
            this (capacity_ (data_ t)) ys.
Proof.
  intros Ht Hh Hle ->.
  apply (is_vector_intro _ _ _ (mkVector (data_ t) (length ys))).
  - apply list_lookup_insert_eq. by eapply lookup_lt_Some.
  - by eapply holds_update.
Qed.

Lemma is_vector_realloc h o this r ys g n :
  this < length o -> length ys <= g -> g <> 0 -> n = length ys ->
  is_vector (mkState (release r h ++ [Some (layout ys g)])
                     (<[this := Some (mkVector (mkRawMemory (Ptr (S (length h)) 0) g)
                                               n)]> o))
            this g ys.
Proof.
  intros Hlt Hle Hg ->.
  apply (is_vector_intro _ _ _
           (mkVector (mkRawMemory (Ptr (S (length h)) 0) g) (length ys))).
  - by apply list_lookup_insert_eq.
  - by apply holds_fresh.
Qed.

Lemma data_inplace h h' o this t n :
  o !! this = Some (Some t) ->
  data_ <$> obj (mkState h' (<[this := Some (mkVector (data_ t) n)]> o)) this
  = data_ <$> obj (mkState h o) this.
Proof.
  intros Ht. unfold obj. cbn [objs].
  rewrite list_lookup_insert_eq by by eapply lookup_lt_Some. by rewrite Ht.
Qed.

Lemma live_blocks_realloc h t xs bl :
  holds h t xs ->
  live_blocks (release (data_ t) h ++ [Some bl])
  = live_blocks h + (if capacity_ (data_ t) =? 0 then 1 else 0).
Proof.
  intros Hh. rewrite live_blocks_app_Some.
  pose proof (live_blocks_release h t xs Hh) as Hl.
  rewrite (holds_owns h t xs Hh) in Hl.
  destruct (capacity_ (data_ t) =? 0); simpl in *; lia.
Qed.

(** X9: [Reserve(n)] beyond the capacity, for an [n] whose byte count
    [n * sizeof(T)] does not exceed [SIZE_MAX], moves the vector to a block
    of exactly [n] slots, by one allocation, and releases the old block;
    the elements and their number are as they were. *)
Theorem Reserve_grows st this c xs n :
  is_vector st this c xs -> c < n -> fits n = true ->
  new_ok (length (heap st)) n = true -> no_relocate_throw xs ->
  exists st',
    Vector_Reserve new_ok this n st = Ok tt st' /\
    is_vector st' this n xs /\
    length (heap st') = S (length (heap st)) /\
    live_blocks (heap st') = live_blocks (heap st) + (if c =? 0 then 1 else 0).
Proof.
  intros Hv Hc _ Hok Hr. apply is_vector_holds in Hv as (t & Ht & Hh & <-).
  destruct st as [h o]. cbn [heap objs] in *. pose proof Hh as (Hsz & Hle & _).
  erewrite Reserve_ok by done. eexists. split; [done|]. cbn [heap].
  split; [|split].
  - apply is_vector_realloc; [by eapply lookup_lt_Some|lia|lia|done].
  - rewrite length_app, length_release. simpl. lia.
  - by eapply live_blocks_realloc.
Qed.

(** X10: [Resize(n)] leaves the first [n] elements, followed by
    value-initialized ones when [n] exceeds the size, in a capacity that
    grows to [n] only when it is less, [n] then being a number whose byte
    count [n * sizeof(T)] does not exceed [SIZE_MAX]; within the capacity
    it allocates nothing and the elements stay where they are.
    [Resize(0)] empties the vector and keeps its block. *)
Theorem Resize_spec st this c xs n :
  is_vector st this c xs ->
  (length xs < n -> value_init <> None) ->
  (c < n -> fits n = true /\
            new_ok (length (heap st)) n = true /\ no_relocate_throw xs) ->
  exists st',
    Vector_Resize new_ok this n st = Ok tt st' /\
    is_vector st' this (Nat.max c n) (take n xs ++ value_fill (n - length xs)) /\
    (n <= c -> length (heap st') = length (heap st) /\
               data_ <$> obj st' this = data_ <$> obj st this).
Proof.
  intros Hv Hinit Hgrow. apply is_vector_holds in Hv as (t & Ht & Hh & <-).
  destruct st as [h o]. cbn [heap objs] in *. pose proof Hh as (Hsz & Hle & _).
  destruct (le_lt_dec (length xs) n) as [Hn|Hn].
  - rewrite take_ge by done.
    assert (value_init <> None \/ n = length xs) as Hv by
      (destruct (decide (n = length xs)); [by right|left; apply Hinit; lia]).
    assert (length (xs ++ value_fill (n - length xs)) = n) as Hlen.
    { rewrite length_app, length_value_fill; [lia|].
      destruct Hv; [by left|right; lia]. }
    destruct (le_lt_dec n (capacity_ (data_ t))) as [Hc|Hc].
    + erewrite Resize_inplace_ok by done. eexists. split; [done|].
      rewrite Nat.max_l by done. split.
      * eapply is_vector_inplace; [done|done|lia|done].
      * intros _. cbn [heap]. split; [apply length_set_block|by apply data_inplace].
    + destruct (Hgrow Hc) as (_ & Hok & Hr).
      erewrite Resize_realloc_ok; [|done..|apply Hinit; lia].
      eexists. split; [done|]. rewrite Nat.max_r by lia. split; [|lia].
      apply is_vector_realloc; [by eapply lookup_lt_Some|lia|lia|done].
  - erewrite Resize_shrink_ok by done. eexists. split; [done|].
    replace (n - length xs) with 0 by lia.
    replace (value_fill 0) with (@nil T)
      by (unfold value_fill; by destruct value_init).
    rewrite app_nil_r, Nat.max_l by lia. split.
    + eapply is_vector_inplace; [done|done| |]; rewrite length_take; lia.
    + intros _. cbn [heap]. split; [apply length_set_block|by apply data_inplace].
Qed.

(** X11: with room left, [EmplaceBack] constructs the new element in the
    first free slot: nothing is allocated, the elements stay where they
    are, the reference returned is to the new last element; and when the
    constructor throws the state is as it was. *)
Theorem EmplaceBack_in_place st this c xs args :
  is_vector st this c xs -> length xs < c -> external args = true ->
  match built args with
  | Some x =>
      exists p st',
        Vector_EmplaceBack new_ok this args st = Ok p st' /\
        is_vector st' this c (xs ++ [x]) /\
        load p st' = Ok x st' /\
        length (heap st') = length (heap st) /\
        data_ <$> obj st' this = data_ <$> obj st this
  | None => Vector_EmplaceBack new_ok this args st = Throw st
  end.
Proof.
  intros Hv Hc He. apply is_vector_holds in Hv as (t & Ht & Hh & <-).
  destruct st as [h o]. cbn [heap objs] in *. pose proof Hh as (Hsz & Hle & _).
  destruct (built args) as [x|] eqn:Hx.
  2:{ eapply EmplaceBack_inplace_throw; try done. lia. }
  erewrite EmplaceBack_inplace_ok; [|done|done|lia|done|done].
  do 2 eexists. split; [done|].
  assert (length (xs ++ [x]) = size_ t + 1) as Hlen
    by (rewrite length_app; simpl; lia).
  split; [|split; [|split]].
  - eapply is_vector_inplace; [done|done|lia|lia].
  - apply holds_inv in Hh as [(Hd & _)|(b & Hb & _ & Hbl & _)].
    { rewrite Hd in Hc. simpl in Hc. lia. }
    rewrite Hb. unfold ptr_add. cbn [blk off].
    eapply load_ok; [by erewrite block_at_set_block|].
    unfold layout. rewrite fmap_app, <- app_assoc. simpl.
    apply lookup_segment. rewrite length_fmap. lia.
  - cbn [heap]. apply length_set_block.
  - by apply data_inplace.
Qed.

Lemma index_ok h o this t xs i :
  o !! this = Some (Some t) -> holds h t xs -> i < length xs ->
  Vector_index this i (mkState h o) = Ok (buffer_ (data_ t) .+ i) (mkState h o).
Proof.
  intros Ht (Hsz & Hle & _) Hi. unfold Vector_index.
  erewrite bind_ok by by apply get_vec_ok.
  destruct (Nat.ltb_spec i (size_ t)); [|lia].
  unfold RawMemory_index. by destruct (Nat.ltb_spec i (capacity_ (data_ t))); [|lia].
Qed.

Lemma read_ok h o this t xs i x :
  o !! this = Some (Some t) -> holds h t xs -> xs !! i = Some x ->
  Vector_read this i (mkState h o) = Ok x (mkState h o).
Proof.
  intros Ht Hh Hx. pose proof (lookup_lt_Some _ _ _ Hx) as Hi.
  unfold Vector_read. erewrite bind_ok by by eapply index_ok.
  apply holds_inv in Hh as [(_ & -> & _)|(b & Hb & _ & Hbl & _)]; [done|].
  rewrite Hb. unfold ptr_add. cbn [blk off].
  eapply load_ok; [done|]. unfold layout.
  rewrite lookup_app_l by (by rewrite length_fmap).
  change (0 + i) with i. by rewrite list_lookup_fmap, Hx.
Qed.

(** X12: [v[i]] is the element at index [i] when [i] is less than the
    size, and a failed [assert] otherwise, also for an index within the
    capacity. *)
Theorem Vector_index_spec st this c xs i :
  is_vector st this c xs ->
  match xs !! i with
  | Some x => Vector_read this i st = Ok x st
  | None => Vector_index this i st = Undefined
  end.
Proof.
  intros Hv. apply is_vector_holds in Hv as (t & Ht & Hh & <-).
  destruct st as [h o]. cbn [heap objs] in *.
  destruct (xs !! i) as [x|] eqn:Hx.
  - by eapply read_ok.
  - apply lookup_ge_None in Hx. destruct Hh as (Hsz & _).
    unfold Vector_index. erewrite bind_ok by by apply get_vec_ok.
    by destruct (Nat.ltb_spec i (size_ t)); [lia|].
Qed.

(** X13: the reference [EmplaceBack] returns is to the element at the
    old size, which is the new element, whether the vector had room or
    moved to a new block. *)
Theorem EmplaceBack_returns_back st this c xs args x :
  is_vector st this c xs -> external args = true -> built args = Some x ->
  (length xs = c ->
   new_ok (length (heap st)) (grown c) = true /\ no_relocate_throw xs) ->
  exists p st',
    Vector_EmplaceBack new_ok this args st = Ok p st' /\
    Vector_index this (length xs) st' = Ok p st' /\
    Vector_read this (length xs) st' = Ok x st'.
Proof.
  intros Hv He Hx Hfull. apply is_vector_holds in Hv as (t & Ht & Hh & <-).
  destruct st as [h o]. cbn [heap objs] in *. pose proof Hh as (Hsz & Hle & _).
  pose proof (lookup_lt_Some _ _ _ Ht) as Hlt.
  assert (length (xs ++ [x]) = size_ t + 1) as Hlen
    by (rewrite length_app; simpl; lia).
  assert ((xs ++ [x]) !! length xs = Some x) as Hlast
    by (by rewrite list_lookup_middle).
  destruct (decide (length xs = capacity_ (data_ t))) as [Hc|Hc].
  - destruct (Hfull Hc) as [Hok Hr]. rewrite <- Hc, <- Hsz in Hok.
    erewrite EmplaceBack_realloc_ok; [|done|done|lia|done..].
    pose proof (grown_gt (size_ t)).
    assert (holds (release (data_ t) h ++ [Some (layout (xs ++ [x]) (grown (size_ t)))])
              (mkVector (mkRawMemory (Ptr (S (length h)) 0) (grown (size_ t)))
                        (size_ t + 1)) (xs ++ [x])) as Hh'
      by (apply holds_fresh; lia).
    do 2 eexists. split; [done|]. split.
    + erewrite index_ok; [|by apply list_lookup_insert_eq|done|rewrite Hlen; lia].
      cbn [data_ buffer_]. unfold ptr_add. cbn [blk off]. by rewrite Hsz.
    + eapply read_ok; [by apply list_lookup_insert_eq|done|done].
  - erewrite EmplaceBack_inplace_ok; [|done|done|lia|done|done].
    assert (holds (set_block h (blk (buffer_ (data_ t)))
                     (layout (xs ++ [x]) (capacity_ (data_ t))))
              (mkVector (data_ t) (size_ t + 1)) (xs ++ [x])) as Hh'.
    { rewrite <- Hlen. eapply holds_update; [done|lia]. }
    do 2 eexists. split; [done|]. split.
    + erewrite index_ok; [|by apply list_lookup_insert_eq|done|rewrite Hlen; lia].
      cbn [data_]. by rewrite Hsz.
    + eapply read_ok; [by apply list_lookup_insert_eq|done|done].
Qed.

(** X14: [PushBack] followed by [PopBack] gives back the elements there
    were; the capacity is the old one when there was room, and the
    doubled one otherwise. *)
Theorem PushBack_PopBack st this c xs v :
  is_vector st this c xs -> copy_throws v = false ->
  (length xs = c ->
   new_ok (length (heap st)) (grown c) = true /\ no_relocate_throw xs) ->
  exists st',
    (Vector_PushBack new_ok this (Val v);; Vector_PopBack this) st = Ok tt st' /\
    is_vector st' this (if length xs =? c then grown c else c) xs.
Proof.
  intros Hv Hcp Hfull. apply is_vector_holds in Hv as (t & Ht & Hh & <-).
  destruct st as [h o]. cbn [heap objs] in *. pose proof Hh as (Hsz & Hle & _).
  pose proof (lookup_lt_Some _ _ _ Ht) as Hlt.
  assert (length (xs ++ [v]) = size_ t + 1) as Hlen
    by (rewrite length_app; simpl; lia).
  assert (built (CopyArg (Val v)) = Some v) as Hx by (simpl; by rewrite Hcp).
  unfold bind at 1. rewrite PushBack_EmplaceBack.
  destruct (Nat.eqb_spec (length xs) (capacity_ (data_ t))) as [Hc|Hc].
  - destruct (Hfull Hc) as [Hok Hr]. rewrite <- Hc, <- Hsz in Hok.
    erewrite bind_ok.
    2:{ eapply EmplaceBack_realloc_ok; [done|done|lia|done..]. }
    unfold ret. pose proof (grown_gt (size_ t)).
    erewrite PopBack_ok;
      [|by apply list_lookup_insert_eq|apply holds_fresh; lia].
    eexists. split; [done|]. cbn [data_ buffer_ capacity_ blk].
    rewrite list_insert_insert_eq.
    replace (grown (capacity_ (data_ t))) with (grown (size_ t))
      by (f_equal; lia).
    apply (is_vector_intro _ _ _
             (mkVector (mkRawMemory (Ptr (S (length h)) 0) (grown (size_ t)))
                       (length xs))).
    + by apply list_lookup_insert_eq.
    + apply holds_block; [lia|done|lia|].
      apply block_at_set_block with (bl := layout (xs ++ [v]) (grown (size_ t))).
      rewrite <- (length_release (data_ t) h). apply block_at_new.
  - erewrite bind_ok.
    2:{ eapply EmplaceBack_inplace_ok; [done|done|lia|done|done]. }
    unfold ret.
    erewrite PopBack_ok; [|by apply list_lookup_insert_eq|].
    2:{ rewrite <- Hlen. eapply holds_update; [done|lia]. }
    eexists. split; [done|]. cbn [data_].
    rewrite list_insert_insert_eq, set_block_set_block.
    eapply is_vector_inplace; [done|done|lia|done].
Qed.

(** ** [Erase], [Emplace], [Swap], copy assignment *)

(** X15: [Erase] at index [k] removes that element and moves the later
    ones one slot down, in the same block; the iterator it returns is the
    position again. *)
Theorem Erase_spec st this c xs t k :
  is_vector st this c xs -> obj st this = Some t -> k < length xs ->
  no_move_throw (drop (S k) xs) ->
  exists st',
    Vector_Erase this (buffer_ (data_ t) .+ k) st
    = Ok (buffer_ (data_ t) .+ k) st' /\
    is_vector st' this c (take k xs ++ drop (S k) xs) /\
    length (heap st') = length (heap st) /\
    data_ <$> obj st' this = data_ <$> obj st this.
Proof.
  intros Hv Ho Hk Hm. apply is_vector_holds in Hv as (t' & Ht & Hh & <-).
  apply obj_lookup in Ho. rewrite Ho in Ht. injection Ht as <-.
  destruct st as [h o]. cbn [heap objs] in *. pose proof Hh as (Hsz & Hle & _).
  destruct (lookup_lt_is_Some_2 xs k Hk) as [z Hz].
  pose proof (take_drop_middle xs k z Hz) as Hxs.
  assert (length (take k xs) = k) as Hlen by (rewrite length_take; lia).
  rewrite <- Hxs in Hh.
  replace (buffer_ (data_ t) .+ k)
    with (buffer_ (data_ t) .+ length (take k xs)) by (by rewrite Hlen).
  erewrite Erase_ok by done. eexists. split; [done|].
  split; [|split].
  - eapply is_vector_inplace; [done|done| |done].
    rewrite <- Hxs in Hle. rewrite !length_app in *. simpl in Hle. lia.
  - cbn [heap]. apply length_set_block.
  - by apply data_inplace.
Qed.

(** X16: on a full vector, [Emplace] at index [k] followed by [Erase] at
    index [k] gives back the elements there were, in the block of doubled
    capacity. *)
Theorem Emplace_Erase_round_trip st this c xs k args x :
  is_vector st this c xs -> length xs = c -> k <= length xs ->
  new_ok (length (heap st)) (grown c) = true ->
  external args = true -> built args = Some x ->
  no_relocate_throw xs -> no_move_throw (drop k xs) ->
  exists st',
    (run new_ok (OpEmplace this k args);; run new_ok (OpErase this k)) st
    = Ok tt st' /\
    is_vector st' this (grown c) xs.
Proof.
  intros Hv Hfull Hk Hok He Hx Hr Hm.
  apply is_vector_holds in Hv as (t & Ht & Hh & <-).
  destruct st as [h o]. cbn [heap objs] in *. pose proof Hh as (Hsz & Hle & _).
  pose proof (lookup_lt_Some _ _ _ Ht) as Hlt.
  assert (length (take k xs) = k) as Hlen by (rewrite length_take; lia).
  assert (length (take k xs ++ x :: drop k xs) = size_ t + 1) as Hlen'.
  { rewrite length_app. simpl. rewrite length_drop. lia. }
  pose proof (grown_gt (size_ t)) as Hg.
  rewrite <- Hfull, <- Hsz in *.
  cbn [run]. erewrite bind_ok.
  2:{ erewrite at_index_eq by done. erewrite bind_ok; [reflexivity|].
      rewrite <- Hlen at 1. eapply Emplace_realloc_ok; try done.
      all: by rewrite take_drop. }
  erewrite at_index_eq by by apply list_lookup_insert_eq.
  assert (holds (release (data_ t) h
                 ++ [Some (layout (take k xs ++ x :: drop k xs) (grown (size_ t)))])
            (mkVector (mkRawMemory (Ptr (S (length h)) 0) (grown (size_ t)))
                      (size_ t + 1)) (take k xs ++ x :: drop k xs)) as Hh1
    by (apply holds_fresh; lia).
  pose proof (Erase_ok _ (<[this := Some (mkVector (mkRawMemory (Ptr (S (length h)) 0)
                                                   (grown (size_ t)))
                                      (size_ t + 1))]> o) this _ _ _ _
                (list_lookup_insert_eq _ _ _ Hlt) Hh1 Hm) as HE.
  rewrite Hlen in HE. erewrite bind_ok by exact HE.
  eexists. split; [done|]. cbn [data_ buffer_ capacity_ blk].
  rewrite list_insert_insert_eq, take_drop.
  apply (is_vector_intro _ _ _
           (mkVector (mkRawMemory (Ptr (S (length h)) 0) (grown (size_ t)))
                     (length xs))).
  - by apply list_lookup_insert_eq.
  - apply holds_block; [lia|done|lia|].
    eapply block_at_set_block.
    rewrite <- (length_release (data_ t) h). apply block_at_new.
Qed.

(** X17: [Swap] exchanges the two vectors without touching an element:
    the heap is as it was, each object has the block and the size of the
    other; [a.Swap(b)] and [b.Swap(a)] are the same, and a second [Swap]
    undoes the first. *)
Theorem Swap_involutive st a b va vb :
  obj st a = Some va -> obj st b = Some vb ->
  exists st1,
    Vector_Swap a b st = Ok tt st1 /\
    heap st1 = heap st /\ obj st1 a = Some vb /\ obj st1 b = Some va /\
    Vector_Swap b a st = Ok tt st1 /\
    Vector_Swap a b st1 = Ok tt st.
Proof.
  intros Ha Hb. apply obj_lookup in Ha, Hb.
  destruct st as [h o]. cbn [heap objs] in *.
  pose proof (lookup_lt_Some _ _ _ Ha) as Hla.
  pose proof (lookup_lt_Some _ _ _ Hb) as Hlb.
  destruct (decide (a = b)) as [->|Hne].
  - assert (va = vb) as -> by congruence.
    erewrite Swap_self by done. eexists. split; [done|].
    repeat split; try (by apply obj_lookup). by erewrite Swap_self.
  - erewrite Swap_ok by done. eexists. split; [done|].
    split; [done|]. split; [|split; [|split]].
    + apply obj_lookup. cbn [objs].
      rewrite list_lookup_insert_ne by done. by apply list_lookup_insert_eq.
    + apply obj_lookup. cbn [objs].
      apply list_lookup_insert_eq. by rewrite length_insert.
    + erewrite Swap_ok by done. by rewrite list_insert_insert_ne.
    + erewrite Swap_ok; [|done| |].
      2:{ rewrite list_lookup_insert_ne by done. by apply list_lookup_insert_eq. }
      2:{ apply list_lookup_insert_eq. by rewrite length_insert. }
      do 2 f_equal. apply list_eq. intros i.
      destruct (decide (i = b)) as [->|Hib].
      * rewrite list_lookup_insert_eq; [done|]. by rewrite !length_insert.
      * rewrite list_lookup_insert_ne by done.
        destruct (decide (i = a)) as [->|Hia].
        -- rewrite list_lookup_insert_eq; [done|]. by rewrite !length_insert.
        -- by rewrite !list_lookup_insert_ne by done.
Qed.

(** X18: copy assignment of a source that is no shorter than the
    destination and fits its capacity works in the block of the
    destination: nothing is allocated, the destination holds the elements
    of the source in its old capacity, and the source is as it was. *)
Theorem copy_assign_within_capacity st this rhs ct xs cr ys :
  wf st = true -> this <> rhs ->
  is_vector st this ct xs -> is_vector st rhs cr ys ->
  length xs <= length ys -> length ys <= ct -> no_copy_throw ys ->
  exists st',
    Vector_copy_assign new_ok this rhs st = Ok tt st' /\
    is_vector st' this ct ys /\ is_vector st' rhs cr ys /\
    length (heap st') = length (heap st) /\
    data_ <$> obj st' this = data_ <$> obj st this.
Proof.
  intros Hwf Hne Hvt Hvr Hlen Hcap Hc.
  apply is_vector_holds in Hvt as (t & Ht & Hh & <-).
  apply is_vector_holds in Hvr as (r & Hr & Hhr & <-).
  destruct st as [h o]. cbn [heap objs] in *.
  assert (blk (buffer_ (data_ r)) <> blk (buffer_ (data_ t)) \/ ys = []) as Hd.
  { eapply (wf_distinct (mkState h o) this rhs); try done; by apply obj_lookup. }
  assert (Vector_copy_assign new_ok this rhs (mkState h o)
          = Ok tt (mkState
              (set_block h (blk (buffer_ (data_ t)))
                         (layout ys (capacity_ (data_ t))))
              (<[this := Some (mkVector (data_ t) (length ys))]> o))) as ->.
  { destruct (decide (length ys = length xs)) as [Heq|Hneq].
    - by eapply copy_assign_same_ok.
    - destruct Hd as [Hd| ->]; [|simpl in *; lia].
      eapply copy_assign_grow_ok; try done. lia. }
  eexists. split; [done|]. split; [|split; [|split]].
  - by eapply is_vector_inplace.
  - apply is_vector_intro; [by rewrite list_lookup_insert_ne|].
    eapply holds_frame; [done|]. intros Hnz. apply block_at_set_block_ne.
    intros E.
    by destruct (wf_other_block h o this t rhs r Hwf Ht ltac:(done) Hr Hnz).
  - cbn [heap]. apply length_set_block.
  - by apply data_inplace.
Qed.

(** ** What an operation leaves of the heap and of the other vectors *)

Lemma backing_frame h h' (r : RawMemory) :
  (blk (buffer_ r) <> 0 ->
   block_at h' (blk (buffer_ r)) = block_at h (blk (buffer_ r))) ->
  backing h' r = backing h r.
Proof.
  intros Hf. unfold backing. case_decide; [done|].
  destruct (Nat.eqb_spec (off (buffer_ r)) 0) as [Hoff|]; [|done]. simpl.
  destruct (negb (capacity_ r =? 0)); [|done].
  rewrite Hf; [done|]. intros Hb. destruct (buffer_ r) as [b f]. simpl in *.
  by subst.
Qed.

Lemma kept_change ws h o h' o' :
  (forall j w, j ∉ ws -> o !! j = Some (Some w) -> o' !! j = Some (Some w)) ->
  (forall j w, j ∉ ws -> o !! j = Some (Some w) ->
     blk (buffer_ (data_ w)) <> 0 ->
     block_at h' (blk (buffer_ (data_ w))) = block_at h (blk (buffer_ (data_ w)))) ->
  kept ws (mkState h o) (mkState h' o').
Proof.
  intros Ho Hf j w Hj Hw. apply obj_lookup in Hw. cbn [objs] in Hw. split.
  - apply obj_lookup. by apply Ho.
  - unfold elements. cbn [heap]. erewrite backing_frame; [done|]. by eapply Hf.
Qed.

Lemma tidy_same ws st : tidy ws st st.
Proof. split; [done|]. by intros j v _ Hv. Qed.

Lemma tidy_trans ws st st1 st2 :
  tidy ws st st1 -> tidy ws st1 st2 -> tidy ws st st2.
Proof.
  intros [Hl1 Hk1] [Hl2 Hk2]. split; [auto|].
  intros j v Hj Hv. destruct (Hk1 j v Hj Hv) as [Hv1 He1].
  destruct (Hk2 j v Hj Hv1) as [Hv2 He2]. split; [done|congruence].
Qed.

Lemma tidy_heap_None ws h o : tidy ws (mkState h o) (mkState (h ++ [None]) o).
Proof.
  split.
  - unfold no_leak. cbn [heap objs]. by rewrite live_blocks_app_None.
  - apply kept_change; [done|]. intros j w _ _ _. apply block_at_app_None.
Qed.

Lemma tidy_objs_None ws h o : tidy ws (mkState h o) (mkState h (o ++ [None])).
Proof.
  split.
  - unfold no_leak, owned_blocks. cbn [heap objs].
    rewrite count_if_app, count_if_singleton. simpl. by rewrite Nat.add_0_r.
  - apply kept_change; [|done]. intros j w _ Hw. by apply lookup_app_l_Some.
Qed.

(** The block of the vector at [this] changes. *)
Lemma tidy_block ws h o this t xs bl :
  wf (mkState h o) = true -> o !! this = Some (Some t) -> holds h t xs ->
  this ∈ ws ->
  tidy ws (mkState h o)
       (mkState (set_block h (blk (buffer_ (data_ t))) bl) o).
Proof.
  intros Hwf Ht Hh Hin. split.
  - unfold no_leak. cbn [heap objs]. by erewrite live_blocks_vector.
  - apply kept_change; [done|]. intros j w Hj Hw Hnz.
    assert (j <> this) as Hne by (by intros ->).
    apply block_at_set_block_ne.
    destruct (wf_other_block h o this t j w Hwf Ht Hne Hw Hnz) as [Hb _].
    congruence.
Qed.

(** The size of the vector at [this] changes. *)
Lemma tidy_size ws h o this t n :
  o !! this = Some (Some t) -> this ∈ ws ->
  tidy ws (mkState h o) (mkState h (<[this := Some (mkVector (data_ t) n)]> o)).
Proof.
  intros Ht Hin. split.
  - unfold no_leak. cbn [heap objs]. intros ->.
    pose proof (owned_blocks_insert o this (Some t)
                  (Some (mkVector (data_ t) n)) Ht) as Hc.
    simpl in Hc. destruct (negb _); lia.
  - apply kept_change; [|done]. intros j w Hj Hw.
    rewrite list_lookup_insert_ne; [done|]. by intros ->.
Qed.

Lemma tidy_inplace ws h o this t xs bl n :
  wf (mkState h o) = true -> o !! this = Some (Some t) -> holds h t xs ->
  this ∈ ws ->
  tidy ws (mkState h o)
       (mkState (set_block h (blk (buffer_ (data_ t))) bl)
                (<[this := Some (mkVector (data_ t) n)]> o)).
Proof.
  intros Hwf Ht Hh Hin. eapply tidy_trans; [by eapply tidy_block|].
  by apply tidy_size.
Qed.

(** The vector at [this] moves to a new block. *)
Lemma tidy_realloc ws h o this t xs bl g n :
  wf (mkState h o) = true -> o !! this = Some (Some t) -> holds h t xs ->
  this ∈ ws ->
  tidy ws (mkState h o)
       (mkState (release (data_ t) h ++ [Some bl])
                (<[this := Some (mkVector (mkRawMemory (Ptr (S (length h)) 0) g)
                                          n)]> o)).
Proof.
  intros Hwf Ht Hh Hin. split.
  - unfold no_leak. cbn [heap objs]. intros Hl.
    erewrite live_blocks_realloc by done.
    pose proof (owned_blocks_insert o this (Some t)
                  (Some (mkVector (mkRawMemory (Ptr (S (length h)) 0) g) n)) Ht)
      as Hc.
    rewrite (holds_owns h t xs Hh) in Hc. simpl in Hc.
    destruct (capacity_ (data_ t) =? 0); simpl in *; lia.
  - apply kept_change.
    + intros j w Hj Hw. rewrite list_lookup_insert_ne; [done|]. by intros ->.
    + intros j w Hj Hw Hnz. assert (j <> this) as Hne by (by intros ->).
      destruct (wf_other_block h o this t j w Hwf Ht Hne Hw Hnz) as [Hb Hle].
      rewrite block_at_app_le by (by rewrite length_release).
      apply block_at_release_ne; [by eapply holds_releasable|done].
Qed.

(** A new vector. *)
Lemma tidy_new_empty ws h o :
  tidy ws (mkState h o) (mkState h (o ++ [Some (mkVector RawMemory_default 0)])).
Proof.
  split.
  - unfold no_leak, owned_blocks. cbn [heap objs].
    rewrite count_if_app, count_if_singleton. simpl. by rewrite Nat.add_0_r.
  - apply kept_change; [|done]. intros j w _ Hw. by apply lookup_app_l_Some.
Qed.

Lemma tidy_new_block ws h o bl g n :
  wf (mkState h o) = true ->
  tidy ws (mkState h o)
       (mkState (h ++ [Some bl])
                (o ++ [Some (mkVector (mkRawMemory (Ptr (S (length h)) 0) g) n)])).
Proof.
  intros Hwf. split.
  - unfold no_leak, owned_blocks. cbn [heap objs]. intros Hl.
    rewrite live_blocks_app_Some, count_if_app, count_if_singleton, Hl.
    simpl. lia.
  - apply kept_change.
    + intros j w _ Hw. by apply lookup_app_l_Some.
    + intros j w _ Hw Hnz. apply block_at_app_le.
      destruct (wf_lookup _ _ _ _ Hwf Hw) as [xs Hx]. by eapply holds_blk_le.
Qed.

(** Two vectors exchange their blocks. *)
Lemma tidy_swap ws h o this other t v :
  this <> other -> o !! this = Some (Some t) -> o !! other = Some (Some v) ->
  this ∈ ws -> other ∈ ws ->
  tidy ws (mkState h o) (mkState h (<[other := Some t]> (<[this := Some v]> o))).
Proof.
  intros Hne Ht Hv Hin Hin'. split.
  - unfold no_leak. cbn [heap objs]. intros ->.
    pose proof (owned_blocks_insert o this (Some t) (Some v) Ht) as H1.
    pose proof (owned_blocks_insert (<[this := Some v]> o) other (Some v) (Some t))
      as H2.
    rewrite list_lookup_insert_ne in H2 by done. specialize (H2 Hv).
    destruct (owns_block (Some t)), (owns_block (Some v)); lia.
  - apply kept_change; [|done]. intros j w Hj Hw.
    rewrite !list_lookup_insert_ne; [done|by intros ->|by intros ->].
Qed.

(** A new vector takes over the block of another. *)
Lemma tidy_move ws h o other v :
  o !! other = Some (Some v) -> other ∈ ws ->
  tidy ws (mkState h o)
       (mkState h (<[other := Some (mkVector RawMemory_default 0)]>
                     (o ++ [Some v]))).
Proof.
  intros Hv Hin. pose proof (lookup_lt_Some _ _ _ Hv) as Hlt. split.
  - unfold no_leak. cbn [heap objs]. intros ->.
    rewrite insert_app_l by done. unfold owned_blocks.
    rewrite count_if_app, count_if_singleton.
    pose proof (owned_blocks_insert o other (Some v)
                  (Some (mkVector RawMemory_default 0)) Hv) as Hc.
    unfold owned_blocks in Hc. simpl in *.
    destruct (negb _); simpl; lia.
  - apply kept_change; [|done]. intros j w Hj Hw.
    rewrite list_lookup_insert_ne by (by intros ->).
    by apply lookup_app_l_Some.
Qed.

(** [Emplace] in place, when an element operation throws: the state. *)

Lemma Emplace_inplace_shift_throw_state h o this t ys z c1 a y rest args :
  o !! this = Some (Some t) -> holds h t (ys ++ [z]) ->
  size_ t <> capacity_ (data_ t) ->
  ys ++ [moved z] = c1 ++ a ++ y :: rest ->
  move_throws z = false -> no_move_throw rest -> move_throws y = true ->
  exists bl,
    Vector_Emplace new_ok this (buffer_ (data_ t) .+ length c1) args (mkState h o)
    = Throw (mkState (set_block h (blk (buffer_ (data_ t))) bl) o).
Proof.
  intros Ht Hh Hfull Hcur Hz Hrest Hy.
  apply holds_inv in Hh as [(_ & Hnil & _)|(b & Hb & Hcap & Hbl & Hsz & Hle)].
  { by destruct ys. }
  rewrite length_app in Hsz, Hle. simpl in Hsz, Hle.
  assert (length c1 + length (a ++ y :: rest) = S (length ys)) as Hlen.
  { rewrite <- length_app, <- Hcur, length_app. simpl. lia. }
  unfold Vector_Emplace, Vector_begin.
  erewrite bind_ok by by apply get_vec_ok.
  erewrite bind_ok by (by erewrite bind_ok by by apply get_vec_ok).
  unfold GetAddress. rewrite ptr_diff_add. erewrite bind_ok by done.
  unfold RawMemory_Capacity.
  destruct (Nat.eqb_spec (size_ t) (capacity_ (data_ t))); [done|].
  destruct (Nat.eqb_spec (size_ t) 0); [lia|]. cbn [negb].
  rewrite Hb. norm. change (0 + length c1) with (length c1).
  unfold RawMemory_plus. rewrite Hb.
  destruct (Nat.leb_spec (size_ t) (capacity_ (data_ t))); [|lia].
  rewrite Hsz. replace (length ys + 1) with (S (length ys)) by lia.
  norm. change (0 + S (length ys)) with (S (length ys)).
  rewrite ptr_sub_S.
  replace (layout (ys ++ [z]) (capacity_ (data_ t)))
    with ((Some <$> ys) ++ Some z :: None
          :: replicate (capacity_ (data_ t) - S (S (length ys))) None) in Hbl.
  2:{ rewrite layout_snoc.
      by replace (capacity_ (data_ t) - S (length ys))
        with (S (capacity_ (data_ t) - S (S (length ys)))) by lia. }
  eexists.
  erewrite bind_throw; [reflexivity|].
  erewrite bind_throw; [reflexivity|].
  erewrite bind_ok by done.
  erewrite bind_ok; cycle 1.
  { eapply move_construct_at_same_ok; [exact Hbl| | |lia|done].
    - apply lookup_segment. by rewrite length_fmap.
    - rewrite length_app, length_fmap. simpl. lia. }
  rewrite insert_segment2 by (by rewrite length_fmap).
  rewrite insert_segment by (by rewrite length_fmap).
  rewrite <- snoc_app.
  change ((Some <$> ys) ++ [Some (moved z)]) with
    ((Some <$> ys) ++ (Some <$> [moved z])).
  rewrite <- fmap_app, Hcur, fmap_app, <- app_assoc.
  unfold move_backward. unfold ptr_diff. cbn [blk off].
  rewrite Nat.eqb_refl.
  destruct (Nat.leb_spec (length c1) (S (length ys))); [|lia].
  simpl andb. cbv iota.
  erewrite bind_throw; [reflexivity|].
  erewrite bind_ok by done.
  replace (S (length ys) - length c1) with (length (a ++ y :: rest)) by lia.
  replace (S (length ys) + 1) with (S (S (length ys))) by lia.
  etransitivity.
  { eapply (move_backward_n_throw rest a y (Some <$> c1) z).
    - by erewrite block_at_set_block.
    - done.
    - done.
    - rewrite length_fmap. lia.
    - done. }
  by rewrite set_block_set_block.
Qed.

Lemma Emplace_inplace_ctor_throw_state h o this t ys z c1 c2 args :
  o !! this = Some (Some t) -> holds h t (ys ++ [z]) ->
  size_ t <> capacity_ (data_ t) ->
  ys ++ [moved z] = c1 ++ c2 ->
  external args = true -> built args = None ->
  move_throws z = false -> no_move_throw c2 ->
  exists bl,
    Vector_Emplace new_ok this (buffer_ (data_ t) .+ length c1) args (mkState h o)
    = Throw (mkState (set_block h (blk (buffer_ (data_ t))) bl) o).
Proof.
  intros Ht Hh Hfull Hcur He Hx Hz Hc2.
  apply holds_inv in Hh as [(_ & Hnil & _)|(b & Hb & Hcap & Hbl & Hsz & Hle)].
  { by destruct ys. }
  rewrite length_app in Hsz, Hle. simpl in Hsz, Hle.
  assert (length c1 + length c2 = S (length ys)) as Hlen.
  { rewrite <- length_app, <- Hcur, length_app. simpl. lia. }
  unfold Vector_Emplace, Vector_begin.
  erewrite bind_ok by by apply get_vec_ok.
  erewrite bind_ok by (by erewrite bind_ok by by apply get_vec_ok).
  unfold GetAddress. rewrite ptr_diff_add. erewrite bind_ok by done.
  unfold RawMemory_Capacity.
  destruct (Nat.eqb_spec (size_ t) (capacity_ (data_ t))); [done|].
  destruct (Nat.eqb_spec (size_ t) 0); [lia|]. cbn [negb].
  rewrite Hb. norm. change (0 + length c1) with (length c1).
  unfold RawMemory_plus. rewrite Hb.
  destruct (Nat.leb_spec (size_ t) (capacity_ (data_ t))); [|lia].
  destruct (Nat.leb_spec (length c1) (capacity_ (data_ t))); [|lia].
  rewrite Hsz. replace (length ys + 1) with (S (length ys)) by lia.
  norm. change (0 + S (length ys)) with (S (length ys)).
  rewrite ptr_sub_S.
  replace (layout (ys ++ [z]) (capacity_ (data_ t)))
    with ((Some <$> ys) ++ Some z :: None
          :: replicate (capacity_ (data_ t) - S (S (length ys))) None) in Hbl.
  2:{ rewrite layout_snoc.
      by replace (capacity_ (data_ t) - S (length ys))
        with (S (capacity_ (data_ t) - S (S (length ys)))) by lia. }
  eexists.
  erewrite bind_throw; [reflexivity|].
  erewrite bind_ok; cycle 1.
  { erewrite bind_ok by done.
    erewrite bind_ok; cycle 1.
    { eapply move_construct_at_same_ok; [exact Hbl| | |lia|done].
      - apply lookup_segment. by rewrite length_fmap.
      - rewrite length_app, length_fmap. simpl. lia. }
    rewrite insert_segment2 by (by rewrite length_fmap).
    rewrite insert_segment by (by rewrite length_fmap).
    rewrite <- snoc_app.
    change ((Some <$> ys) ++ [Some (moved z)]) with
      ((Some <$> ys) ++ (Some <$> [moved z])).
    rewrite <- fmap_app, Hcur, fmap_app, <- app_assoc.
    unfold move_backward. unfold ptr_diff. cbn [blk off].
    rewrite Nat.eqb_refl.
    destruct (Nat.leb_spec (length c1) (S (length ys))); [|lia].
    simpl andb. cbv iota.
    erewrite bind_ok; cycle 1.
    { erewrite bind_ok by done.
      replace (S (length ys) - length c1) with (length c2) by lia.
      replace (S (length ys) + 1) with (S (S (length ys))) by lia.
      eapply (move_backward_n_ok c2 (Some <$> c1) z).
      - by erewrite block_at_set_block.
      - done.
      - rewrite length_fmap. lia.
      - done. }
    rewrite set_block_set_block.
    eapply destroy_at_ok; [by erewrite block_at_set_block|].
    apply lookup_segment. by rewrite length_fmap. }
  rewrite set_block_set_block.
  erewrite bind_ok by done.
  erewrite bind_throw; [reflexivity|].
  by apply emplace_at_throw.
Qed.

(** ** Each operation is tidy *)

Lemma tidily_void {A} ws st (m : M T A) :
  tidily ws st (m st) -> tidily ws st ((m;; ret tt) st).
Proof. unfold bind, ret. by destruct (m st). Qed.

Lemma tidy_relocate ws h o this t xs bl :
  wf (mkState h o) = true -> o !! this = Some (Some t) -> holds h t xs ->
  this ∈ ws ->
  tidy ws (mkState h o)
       (mkState (set_block h (blk (buffer_ (data_ t))) bl ++ [None]) o).
Proof.
  intros Hwf Ht Hh Hin. eapply tidy_trans; [by eapply tidy_block|].
  apply tidy_heap_None.
Qed.

Lemma default_tidy ws h o : tidily ws (mkState h o) (Vector_default (mkState h o)).
Proof. unfold Vector_default. rewrite new_obj_ok. apply tidy_new_empty. Qed.

Lemma sized_tidy ws h o n :
  wf (mkState h o) = true ->
  tidily ws (mkState h o) (Vector_sized new_ok n (mkState h o)).
Proof.
  intros Hwf. destruct (decide (n = 0)) as [->|Hn].
  { rewrite sized_zero. apply tidy_new_empty. }
  destruct (new_ok (length h) n) eqn:Hok.
  2:{ rewrite sized_bad_alloc by done. apply tidy_same. }
  destruct value_init as [v|] eqn:Hv.
  - erewrite sized_ok by done. by apply tidy_new_block.
  - rewrite sized_throw by done. apply tidy_heap_None.
Qed.

Lemma copy_ctor_tidy ws h o other v :
  wf (mkState h o) = true -> o !! other = Some (Some v) ->
  tidily ws (mkState h o) (Vector_copy_ctor new_ok other (mkState h o)).
Proof.
  intros Hwf Hv. destruct (wf_lookup _ _ _ _ Hwf Hv) as [xs Hh].
  pose proof Hh as (Hsz & _).
  destruct (decide (size_ v = 0)) as [Hz|Hz].
  { erewrite copy_ctor_empty by done. apply tidy_new_empty. }
  destruct (new_ok (length h) (size_ v)) eqn:Hok.
  2:{ erewrite copy_ctor_bad_alloc by done. apply tidy_same. }
  destruct (first_throw copy_throws xs) as [Hc|(xs1 & x & xs2 & -> & Hc & Hx)].
  - erewrite copy_ctor_ok by done. by apply tidy_new_block.
  - erewrite copy_ctor_throw by done. apply tidy_heap_None.
Qed.

Lemma move_ctor_tidy ws h o other v :
  o !! other = Some (Some v) -> other ∈ ws ->
  tidily ws (mkState h o) (Vector_move_ctor other (mkState h o)).
Proof. intros Hv Hin. erewrite move_ctor_ok by done. by apply tidy_move. Qed.

Lemma Swap_tidy ws h o this other t v :
  o !! this = Some (Some t) -> o !! other = Some (Some v) ->
  this ∈ ws -> other ∈ ws ->
  tidily ws (mkState h o) (Vector_Swap this other (mkState h o)).
Proof.
  intros Ht Hv Hin Hin'. destruct (decide (this = other)) as [->|Hne].
  - erewrite Swap_self by done. apply tidy_same.
  - erewrite Swap_ok by done. by apply tidy_swap.
Qed.

Lemma PopBack_tidy ws h o this t :
  wf (mkState h o) = true -> o !! this = Some (Some t) -> this ∈ ws ->
  tidily ws (mkState h o) (Vector_PopBack this (mkState h o)).
Proof.
  intros Hwf Ht Hin. destruct (wf_lookup _ _ _ _ Hwf Ht) as [xs Hh].
  pose proof Hh as (Hsz & Hle & _).
  destruct (last xs) as [x|] eqn:Hl.
  - apply last_Some in Hl as [ys ->]. erewrite PopBack_ok by done.
    by eapply tidy_inplace.
  - apply last_None in Hl as ->. erewrite PopBack_empty by done. apply tidy_same.
Qed.

Lemma Reserve_tidy ws h o this t c :
  wf (mkState h o) = true -> o !! this = Some (Some t) -> this ∈ ws ->
  tidily ws (mkState h o) (Vector_Reserve new_ok this c (mkState h o)).
Proof.
  intros Hwf Ht Hin. destruct (wf_lookup _ _ _ _ Hwf Ht) as [xs Hh].
  pose proof Hh as (Hsz & Hle & _).
  destruct (le_lt_dec c (capacity_ (data_ t))) as [Hc|Hc].
  { erewrite Reserve_noop by done. apply tidy_same. }
  destruct (new_ok (length h) c) eqn:Hok.
  2:{ erewrite Reserve_bad_alloc by done. apply tidy_same. }
  destruct (relocate_cases xs) as [Hx|(xs1 & x & xs2 & -> & Hx)].
  - erewrite Reserve_ok by done. by eapply tidy_realloc.
  - erewrite Reserve_throw by done. by eapply tidy_relocate.
Qed.

Lemma copy_assign_tidy ws h o this rhs t r :
  wf (mkState h o) = true ->
  o !! this = Some (Some t) -> o !! rhs = Some (Some r) -> this ∈ ws ->
  tidily ws (mkState h o) (Vector_copy_assign new_ok this rhs (mkState h o)).
Proof.
  intros Hwf Ht Hr Hin.
  destruct (decide (this = rhs)) as [->|Hne].
  { unfold Vector_copy_assign. case_decide; [done|]. apply tidy_same. }
  destruct (wf_lookup _ _ _ _ Hwf Ht) as [xs Hh].
  destruct (wf_lookup _ _ _ _ Hwf Hr) as [ys Hhr].
  pose proof Hh as (Hsz & Hle & _). pose proof Hhr as (Hszr & Hler & _).
  assert (blk (buffer_ (data_ r)) <> blk (buffer_ (data_ t)) \/ ys = []) as Hd.
  { eapply (wf_distinct (mkState h o) this rhs); try done; by apply obj_lookup. }
  destruct (le_lt_dec (size_ r) (capacity_ (data_ t))) as [Hcap|Hcap].
  2:{ destruct (new_ok (length h) (size_ r)) eqn:Hok.
      2:{ erewrite copy_assign_realloc_bad_alloc by done. apply tidy_same. }
      destruct (first_throw copy_throws ys)
        as [Hc|(ys1 & y & ys2 & -> & Hc & Hy)].
      - erewrite copy_assign_realloc_ok by done.
        eapply tidy_trans;
          [by eapply (tidy_realloc ws h o this t xs)|apply tidy_objs_None].
      - erewrite copy_assign_realloc_throw by done. apply tidy_heap_None. }
  assert (forall ys1 y ys2, ys1 ++ y :: ys2 = ys \/
                            (exists n, take n ys = ys1 ++ y :: ys2) \/
                            (exists n, drop n ys = ys1 ++ y :: ys2) ->
            blk (buffer_ (data_ r)) <> blk (buffer_ (data_ t))) as Hd'.
  { intros ys1 y ys2 Hys. destruct Hd as [| ->]; [done|].
    destruct Hys as [Hys|[[n Hys]|[n Hys]]].
    - by destruct ys1.
    - rewrite take_nil in Hys. by destruct ys1.
    - rewrite drop_nil in Hys. by destruct ys1. }
  destruct (lt_eq_lt_dec (length ys) (length xs)) as [[Hlt|Heq]|Hgt].
  - destruct (first_throw copy_throws ys)
      as [Hc|(ys1 & y & ys2 & -> & Hc & Hy)].
    + erewrite copy_assign_shrink_ok by done. by eapply tidy_inplace.
    + erewrite copy_assign_shrink_throw by eauto. by eapply tidy_block.
  - destruct (first_throw copy_throws ys)
      as [Hc|(ys1 & y & ys2 & -> & Hc & Hy)].
    + erewrite copy_assign_same_ok by done. by eapply tidy_inplace.
    + erewrite copy_assign_same_throw by eauto. by eapply tidy_block.
  - destruct (first_throw copy_throws (take (length xs) ys))
      as [Hc|(ys1 & y & ys2 & Hys & Hc & Hy)].
    2:{ erewrite copy_assign_grow_throw_assign; try done; [|lia|eauto].
        by eapply tidy_block. }
    destruct (first_throw copy_throws (drop (length xs) ys))
      as [Hc'|(ys1 & y & ys2 & Hys & Hc' & Hy)].
    2:{ erewrite copy_assign_grow_throw_construct; try done; [|lia|eauto].
        by eapply tidy_block. }
    assert (blk (buffer_ (data_ r)) <> blk (buffer_ (data_ t))) as Hne'.
    { destruct Hd as [| ->]; [done|]. simpl in Hgt. lia. }
    erewrite copy_assign_grow_ok; [|done..|lia|done|].
    + by eapply tidy_inplace.
    + unfold no_copy_throw. rewrite <- (take_drop (length xs) ys).
      by apply Forall_app.
Qed.

Lemma Resize_tidy ws h o this t n :
  wf (mkState h o) = true -> o !! this = Some (Some t) -> this ∈ ws ->
  tidily ws (mkState h o) (Vector_Resize new_ok this n (mkState h o)).
Proof.
  intros Hwf Ht Hin. destruct (wf_lookup _ _ _ _ Hwf Ht) as [xs Hh].
  pose proof Hh as (Hsz & Hle & _).
  destruct (le_lt_dec (length xs) n) as [Hn|Hn].
  2:{ erewrite Resize_shrink_ok by done. by eapply tidy_inplace. }
  destruct (le_lt_dec n (capacity_ (data_ t))) as [Hc|Hc].
  - destruct value_init as [v|] eqn:Hv.
    + erewrite Resize_inplace_ok; [|done..|left; by rewrite Hv].
      by eapply tidy_inplace.
    + destruct (decide (n = length xs)) as [->|Hne].
      * erewrite Resize_inplace_ok; [|done..|by right]. by eapply tidy_inplace.
      * erewrite Resize_inplace_throw by (done || lia). apply tidy_same.
  - destruct (new_ok (length h) n) eqn:Hok.
    2:{ erewrite Resize_bad_alloc by done. apply tidy_same. }
    destruct (relocate_cases xs) as [Hx|(xs1 & x & xs2 & -> & Hx)].
    2:{ erewrite Resize_relocate_throw by done. by eapply tidy_relocate. }
    destruct value_init as [v|] eqn:Hv.
    + erewrite Resize_realloc_ok; [|done..|by rewrite Hv]. by eapply tidy_realloc.
    + erewrite Resize_realloc_throw by done. by eapply tidy_realloc.
Qed.

Lemma EmplaceBack_tidy ws h o this t args :
  wf (mkState h o) = true -> o !! this = Some (Some t) ->
  external args = true -> this ∈ ws ->
  tidily ws (mkState h o) (Vector_EmplaceBack new_ok this args (mkState h o)).
Proof.
  intros Hwf Ht He Hin. destruct (wf_lookup _ _ _ _ Hwf Ht) as [xs Hh].
  pose proof Hh as (Hsz & Hle & _).
  destruct (decide (size_ t = capacity_ (data_ t))) as [Hfull|Hfull].
  - destruct (new_ok (length h) (grown (size_ t))) eqn:Hok.
    2:{ erewrite EmplaceBack_bad_alloc by done. apply tidy_same. }
    destruct (built args) as [x|] eqn:Hx.
    2:{ erewrite EmplaceBack_realloc_ctor_throw by done. apply tidy_heap_None. }
    destruct (relocate_cases xs) as [Hr|(xs1 & y & xs2 & -> & Hr)].
    + erewrite EmplaceBack_realloc_ok by done. by eapply tidy_realloc.
    + erewrite EmplaceBack_realloc_relocate_throw by done. by eapply tidy_relocate.
  - destruct (built args) as [x|] eqn:Hx.
    + erewrite EmplaceBack_inplace_ok by done. by eapply tidy_inplace.
    + erewrite EmplaceBack_inplace_throw by done. apply tidy_same.
Qed.

Lemma Erase_tidy ws h o this t k :
  wf (mkState h o) = true -> o !! this = Some (Some t) -> k < size_ t ->
  this ∈ ws ->
  tidily ws (mkState h o)
         (Vector_Erase this (buffer_ (data_ t) .+ k) (mkState h o)).
Proof.
  intros Hwf Ht Hk Hin. destruct (wf_lookup _ _ _ _ Hwf Ht) as [xs Hh].
  pose proof Hh as (Hsz & Hle & _). rewrite Hsz in Hk.
  destruct (lookup_lt_is_Some_2 xs k Hk) as [z Hz].
  pose proof (take_drop_middle xs k z Hz) as Hxs.
  assert (length (take k xs) = k) as Hlen by (rewrite length_take; lia).
  rewrite <- Hxs in Hh.
  replace (buffer_ (data_ t) .+ k)
    with (buffer_ (data_ t) .+ length (take k xs)) by (by rewrite Hlen).
  destruct (first_throw move_throws (drop (S k) xs))
    as [Hc|(a & y & rest & Hd & Hc & Hy)].
  - erewrite Erase_ok by done. by eapply tidy_inplace.
  - rewrite Hd in Hh. erewrite Erase_throw by done. by eapply tidy_block.
Qed.

Lemma Emplace_tidy ws h o this t k args :
  wf (mkState h o) = true -> o !! this = Some (Some t) ->
  k <= size_ t -> external args = true -> this ∈ ws ->
  tidily ws (mkState h o)
         (Vector_Emplace new_ok this (buffer_ (data_ t) .+ k) args (mkState h o)).
Proof.
  intros Hwf Ht Hk He Hin. destruct (wf_lookup _ _ _ _ Hwf Ht) as [xs Hh].
  pose proof Hh as (Hsz & Hle & _). rewrite Hsz in Hk.
  assert (length (take k xs) = k) as Hlen by (rewrite length_take; lia).
  destruct (decide (size_ t = capacity_ (data_ t))) as [Hfull|Hfull].
  { destruct (new_ok (length h) (grown (size_ t))) eqn:Hok.
    2:{ erewrite Emplace_bad_alloc by done. apply tidy_same. }
    destruct (built args) as [x|] eqn:Hx.
    2:{ erewrite Emplace_realloc_ctor_throw by (done || lia).
        apply tidy_heap_None. }
    destruct (relocate_cases xs) as [Hr|(xs1 & y & xs2 & -> & Hr)].
    - rewrite <- (take_drop k xs) in Hh, Hr.
      replace (buffer_ (data_ t) .+ k)
        with (buffer_ (data_ t) .+ length (take k xs)) by (by rewrite Hlen).
      erewrite Emplace_realloc_ok by done. by eapply tidy_realloc.
    - erewrite Emplace_realloc_relocate_throw by (done || lia).
      by eapply tidy_relocate. }
  destruct (last xs) as [z|] eqn:Hl.
  2:{ apply last_None in Hl as ->. simpl in Hk.
      assert (k = 0) as -> by lia.
      destruct (built args) as [x|] eqn:Hx.
      - erewrite Emplace_empty_inplace_ok by done. by eapply tidy_inplace.
      - erewrite Emplace_empty_inplace_throw by done. apply tidy_same. }
  apply last_Some in Hl as [ys ->].
  rewrite length_app in Hsz, Hle, Hk. simpl in Hsz, Hle, Hk.
  destruct (move_throws z) eqn:Hz.
  { erewrite Emplace_inplace_move_throw by (done || lia). apply tidy_same. }
  assert (length (take k (ys ++ [moved z])) = k) as Hlen'.
  { rewrite length_take, length_app. simpl. lia. }
  pose proof (take_drop k (ys ++ [moved z])) as Hcur. symmetry in Hcur.
  replace (buffer_ (data_ t) .+ k)
    with (buffer_ (data_ t) .+ length (take k (ys ++ [moved z])))
    by (by rewrite Hlen').
  destruct (last_throw move_throws (drop k (ys ++ [moved z])))
    as [Hc|(a & y & rest & Hd & Hc & Hy)].
  2:{ rewrite Hd in Hcur.
      destruct (Emplace_inplace_shift_throw_state h o this t ys z _ a y rest args
                  Ht Hh Hfull Hcur Hz Hc Hy) as [bl ->].
      by eapply tidy_block. }
  destruct (built args) as [x|] eqn:Hx.
  - erewrite Emplace_inplace_ok by done. by eapply tidy_inplace.
  - destruct (Emplace_inplace_ctor_throw_state h o this t ys z _ _ args
                Ht Hh Hfull Hcur He Hx Hz Hc) as [bl ->].
    by eapply tidy_block.
Qed.

Lemma run_tidy (op : operation T) st :
  wf st = true -> pre op st = true -> by_value op = true ->
  tidily (written op) st (run new_ok op st).
Proof.
  intros Hwf Hpre Hval. destruct st as [h o].
  destruct op; cbn [pre by_value run written] in *;
    repeat match goal with
    | Hp : _ && _ = true |- _ => apply andb_prop in Hp as [? ?]
    end;
    repeat match goal with
    | Hp : alive _ _ = true |- _ => apply alive_lookup in Hp as [? ?]
    end;
    try match goal with
    | Hv : external (CopyArg ?value) = true |- _ =>
        destruct value as [v|?]; [clear Hv|discriminate Hv]
    end.
  - apply tidily_void, default_tidy.
  - by apply tidily_void, sized_tidy.
  - apply tidily_void. by eapply copy_ctor_tidy.
  - apply tidily_void. eapply move_ctor_tidy; [done|by repeat constructor].
  - eapply copy_assign_tidy; [done..|by repeat constructor].
  - unfold Vector_move_assign. eapply Swap_tidy; [done..|by repeat constructor|by repeat constructor].
  - eapply Reserve_tidy; [done..|by repeat constructor].
  - eapply Resize_tidy; [done..|by repeat constructor].
  - rewrite PushBack_EmplaceBack. apply tidily_void.
    eapply EmplaceBack_tidy; [done..|by repeat constructor].
  - rewrite PushBack_move_EmplaceBack. apply tidily_void.
    eapply EmplaceBack_tidy; [done..|by repeat constructor].
  - apply tidily_void. eapply EmplaceBack_tidy; [done..|by repeat constructor].
  - match goal with
    | Ht : o !! this = Some (Some ?t), Hk : (k <=? _) = true |- _ =>
        destruct (obj_at h o this t Ht) as (Hs & _ & _);
        rewrite Hs in Hk; apply Nat.leb_le in Hk;
        erewrite at_index_eq by done
    end.
    apply tidily_void. eapply Emplace_tidy; [done..|by repeat constructor].
  - match goal with
    | Ht : o !! this = Some (Some ?t), Hk : (k <=? _) = true |- _ =>
        destruct (obj_at h o this t Ht) as (Hs & _ & _);
        rewrite Hs in Hk; apply Nat.leb_le in Hk;
        erewrite at_index_eq by done
    end.
    apply tidily_void. unfold Vector_Insert.
    eapply Emplace_tidy; [done..|by repeat constructor].
  - match goal with
    | Ht : o !! this = Some (Some ?t), Hk : (k <=? _) = true |- _ =>
        destruct (obj_at h o this t Ht) as (Hs & _ & _);
        rewrite Hs in Hk; apply Nat.leb_le in Hk;
        erewrite at_index_eq by done
    end.
    apply tidily_void. unfold Vector_Insert_move.
    eapply Emplace_tidy; [done..|by repeat constructor].
  - match goal with
    | Ht : o !! this = Some (Some ?t), Hk : (k <? _) = true |- _ =>
        destruct (obj_at h o this t Ht) as (Hs & _ & _);
        rewrite Hs in Hk; apply Nat.ltb_lt in Hk;
        erewrite at_index_eq by done
    end.
    apply tidily_void. eapply Erase_tidy; [done..|by repeat constructor].
  - eapply PopBack_tidy; [done..|by repeat constructor].
  - eapply Swap_tidy; [done..|by repeat constructor|by repeat constructor].
Qed.

(** ** All operations *)

(** X19: an operation whose element argument is a value of its own, no
    element of a vector, and whose number of elements asked for has a byte
    count within [SIZE_MAX] when it exceeds the capacity, leaks no block
    and leaves no vector without its block: when every block of the heap
    that has not been released is the block of a vector before the
    operation, it is so after it, whether the operation returns or throws;
    and it does not run into undefined behaviour. *)
Theorem no_leak_preserved (op : operation T) st :
  wf st = true -> no_leak st -> pre op st = true ->
  by_value op = true -> sizes_fit op st = true ->
  match run new_ok op st with
  | Ok _ st' | Throw st' => no_leak st'
  | Undefined => False
  end.
Proof.
  intros Hwf Hl Hpre Hval _. pose proof (run_tidy op st Hwf Hpre Hval) as Ht.
  destruct (run new_ok op st) as [[] st'|st'|]; [by apply Ht|by apply Ht|done].
Qed.

(** X20: an operation whose element argument is a value of its own, no
    element of a vector, and whose number of elements asked for has a byte
    count within [SIZE_MAX] when it exceeds the capacity, changes no
    vector but those it is called on: every other vector is the same
    object (same block, size and capacity) and holds the same elements
    afterwards, whether the operation returns or throws.  Copy
    construction and copy assignment leave their source. *)
Theorem others_kept (op : operation T) st j v :
  wf st = true -> pre op st = true ->
  by_value op = true -> sizes_fit op st = true ->
  j ∉ written op -> obj st j = Some v ->
  match run new_ok op st with
  | Ok _ st' | Throw st' => obj st' j = Some v /\ elements st' v = elements st v
  | Undefined => False
  end.
Proof.
  intros Hwf Hpre Hval _ Hj Hv. pose proof (run_tidy op st Hwf Hpre Hval) as Ht.
  destruct (run new_ok op st) as [[] st'|st'|]; [| |done].
  all: destruct Ht as [_ Hk]; by apply Hk.
Qed.

(** ** [Emplace] and [Insert] at the end and in place *)


(** X22: with room left, [Emplace] at index [k] allocates nothing and
    keeps the block: it returns the position, and the vector holds the
    new element at [k], the former elements before and after it, the last
    of them in the state its move constructor leaves behind.  For an
    element type whose move changes nothing, these are the elements there
    were. *)
Theorem Emplace_in_place_spec st this c xs t args x k :
  is_vector st this c xs -> obj st this = Some t -> length xs < c ->
  k <= length xs ->
  external args = true -> built args = Some x ->
  no_move_throw xs -> no_move_throw (moved_last xs) ->
  exists st',
    Vector_Emplace new_ok this (buffer_ (data_ t) .+ k) args st
    = Ok (buffer_ (data_ t) .+ k) st' /\
    is_vector st' this c
      (take k (moved_last xs) ++ x :: drop k (moved_last xs)) /\
    length (heap st') = length (heap st) /\
    data_ <$> obj st' this = data_ <$> obj st this /\
    ((forall y : T, moved y = y) ->
     is_vector st' this c (take k xs ++ x :: drop k xs)).
Proof.
  intros Hv Ho Hfree Hk He Hx Hm Hm'.
  apply is_vector_holds in Hv as (t' & Ht & Hh & <-).
  apply obj_lookup in Ho. assert (t' = t) as -> by congruence.
  destruct st as [h o]. cbn [objs heap] in *.
  pose proof Hh as (Hsz & Hle & _).
  assert (length (moved_last xs) = length xs) as Hml.
  { unfold moved_last. destruct (last xs) as [z|] eqn:Hl; [|done].
    apply last_Some in Hl as [ys ->]. rewrite !length_app. simpl.
    rewrite length_take, length_app. simpl. lia. }
  set (res := take k (moved_last xs) ++ x :: drop k (moved_last xs)).
  assert (length res = size_ t + 1) as Hres.
  { unfold res. rewrite length_app. simpl. rewrite length_take, length_drop. lia. }
  assert (Vector_Emplace new_ok this (buffer_ (data_ t) .+ k) args (mkState h o)
          = Ok (buffer_ (data_ t) .+ k)
               (mkState (set_block h (blk (buffer_ (data_ t)))
                                   (layout res (capacity_ (data_ t))))
                        (<[this := Some (mkVector (data_ t) (size_ t + 1))]> o)))
    as ->.
  { unfold res, moved_last in *. destruct (last xs) as [z|] eqn:Hl.
    - apply last_Some in Hl as [ys ->].
      rewrite length_app in *. simpl in *.
      replace (length ys + 1 - 1) with (length ys) in * by lia.
      rewrite take_app_length in *.
      set (cur := ys ++ [moved z]) in *.
      assert (length cur = length ys + 1) as Hlc.
      { unfold cur. rewrite length_app. simpl. lia. }
      assert (length (take k cur) = k) as Hlk by (apply length_take_le; lia).
      replace (buffer_ (data_ t) .+ k)
        with (buffer_ (data_ t) .+ length (take k cur)) by (by rewrite Hlk).
      eapply (Emplace_inplace_ok _ _ _ _ _ ys z (take k cur) (drop k cur));
        try done.
      + lia.
      + by rewrite take_drop.
      + apply Forall_app in Hm as [_ Hm]. by inversion Hm.
      + by apply Forall_drop.
    - apply last_None in Hl as ->. simpl in *.
      assert (k = 0) as -> by lia. simpl.
      eapply Emplace_empty_inplace_ok; try done. lia. }
  eexists. split; [done|].
  assert (is_vector
            (mkState (set_block h (blk (buffer_ (data_ t)))
                                (layout res (capacity_ (data_ t))))
                     (<[this := Some (mkVector (data_ t) (size_ t + 1))]> o))
            this (capacity_ (data_ t)) res) as Hv'.
  { eapply is_vector_inplace; [done|done|lia|lia]. }
  split; [done|]. split; [cbn [heap]; apply length_set_block|].
  split; [by apply data_inplace|].
  intros Hid. subst res. by rewrite (moved_last_trivial xs Hid) in *.
Qed.

(** ** [PushBack] of an element of the vector *)

Lemma EmplaceBack_own_realloc_ok h o this t xs i x :
  o !! this = Some (Some t) -> holds h t xs ->
  size_ t = capacity_ (data_ t) ->
  new_ok (length h) (grown (size_ t)) = true ->
  xs !! i = Some x -> copy_throws x = false ->
  no_relocate_throw xs ->
  Vector_EmplaceBack new_ok this (CopyArg (Ref (buffer_ (data_ t) .+ i)))
    (mkState h o)
  = Ok (Ptr (S (length h)) (size_ t))
       (mkState
          (release (data_ t) h ++ [Some (layout (xs ++ [x]) (grown (size_ t)))])
          (<[this := Some (mkVector (mkRawMemory (Ptr (S (length h)) 0)
                                                 (grown (size_ t)))
                                    (size_ t + 1))]> o)).
Proof.
  intros Ht Hh Hfull Hn Hx Hc Hr. pose proof Hh as (Hsz & Hle & _).
  pose proof (lookup_lt_Some _ _ _ Hx) as Hi.
  pose proof Hh as Hh0.
  apply holds_inv in Hh0 as [(_ & -> & _)|(b & Hb & _ & Hbl & _)]; [done|].
  pose proof (grown_gt (size_ t)) as Hg.
  unfold Vector_EmplaceBack.
  erewrite bind_ok by by apply get_vec_ok.
  unfold RawMemory_Capacity. rewrite <- Hfull, Nat.eqb_refl.
  erewrite bind_ok; cycle 1.
  { erewrite bind_ok by (apply RawMemory_ctor_ok; [lia|done]).
    erewrite bind_ok; cycle 1.
    { apply on_throw_ok. unfold RawMemory_plus. cbn [capacity_ buffer_].
      destruct (Nat.leb_spec (size_ t) (grown (size_ t))); [|lia].
      erewrite bind_ok by done. norm.
      erewrite bind_ok; cycle 1.
      { cbn [emplace_at].
        eapply copy_construct_at_ref_ok;
          [rewrite Hb; by apply block_at_app| |apply block_at_new
          |rewrite length_replicate; lia|done].
        rewrite Hb. cbn [off]. change (0 + i) with i.
        unfold layout. rewrite lookup_app_l by (by rewrite length_fmap).
        by rewrite list_lookup_fmap, Hx. }
      cbn [GetAddress buffer_]. change (0 + size_ t) with (size_ t).
      rewrite new_slot_heap by lia.
      rewrite bind_assoc. erewrite bind_ok; [reflexivity|].
      eapply (transfer_all_ok _ _ _ xs _ (replicate (size_ t) None)).
      - by apply holds_app.
      - apply holds_blk_le in Hh. lia.
      - by rewrite block_at_new.
      - by rewrite length_replicate.
      - done. }
    erewrite bind_ok; [reflexivity|].
    eapply adopt_ok; [done|].
    do 2 apply releasable_set_block. eapply releasable_app, holds_releasable. done. }
  erewrite bind_ok; cycle 1.
  { apply incr_size_ok. apply list_lookup_insert_eq. by eapply lookup_lt_Some. }
  rewrite list_insert_insert_eq. cbn [data_ size_]. unfold ret.
  erewrite release_after_transfer by done. by rewrite layout_snoc, <- Hsz.
Qed.

Lemma EmplaceBack_own_inplace_ok h o this t xs i x :
  o !! this = Some (Some t) -> holds h t xs ->
  size_ t <> capacity_ (data_ t) ->
  xs !! i = Some x -> copy_throws x = false ->
  Vector_EmplaceBack new_ok this (CopyArg (Ref (buffer_ (data_ t) .+ i)))
    (mkState h o)
  = Ok (buffer_ (data_ t) .+ size_ t)
       (mkState
          (set_block h (blk (buffer_ (data_ t)))
                     (layout (xs ++ [x]) (capacity_ (data_ t))))
          (<[this := Some (mkVector (data_ t) (size_ t + 1))]> o)).
Proof.
  intros Ht Hh Hfull Hx Hc.
  apply holds_inv in Hh as [(Hdt & _ & Hz)|(b & Hb & Hcap & Hbl & Hsz & Hle)].
  { rewrite Hdt in Hfull. simpl in Hfull. lia. }
  unfold Vector_EmplaceBack.
  erewrite bind_ok by by apply get_vec_ok.
  unfold RawMemory_Capacity. destruct (Nat.eqb_spec (size_ t) (capacity_ (data_ t))); [done|].
  erewrite bind_ok; cycle 1.
  { unfold RawMemory_plus.
    destruct (Nat.leb_spec (size_ t) (capacity_ (data_ t))); [|lia].
    erewrite bind_ok by done. rewrite Hb. norm.
    erewrite bind_ok; [reflexivity|].
    cbn [emplace_at].
    eapply copy_construct_at_ref_ok;
      [exact Hbl| |exact Hbl|rewrite length_layout by done; simpl; lia|done].
    unfold layout. rewrite lookup_app_l
      by (rewrite length_fmap; by eapply lookup_lt_Some).
    change (0 + i) with i. by rewrite list_lookup_fmap, Hx. }
  erewrite bind_ok by by apply incr_size_ok.
  unfold ret. rewrite Hb. simpl blk. do 4 f_equal.
  rewrite layout_raw by lia. rewrite layout_snoc.
  apply insert_segment. rewrite length_fmap. simpl. lia.
Qed.

(** X23: the two [PushBack] are [EmplaceBack] with the same argument:
    the same effect, also when they throw, for an argument that is an
    element of the vector too. *)
Theorem PushBack_is_EmplaceBack this value st :
  Vector_PushBack new_ok this value st
  = (Vector_EmplaceBack new_ok this (CopyArg value);; ret tt) st /\
  Vector_PushBack_move new_ok this value st
  = (Vector_EmplaceBack new_ok this (MoveArg value);; ret tt) st.
Proof. split; [apply PushBack_EmplaceBack|apply PushBack_move_EmplaceBack]. Qed.

(** X24: [v.PushBack(v[i])] appends a copy of the element at [i], also
    when the vector moves to a new block: the copy is made before the
    elements are relocated. *)
Theorem PushBack_own_element st this c xs t i x :
  is_vector st this c xs -> obj st this = Some t -> xs !! i = Some x ->
  copy_throws x = false ->
  (length xs = c ->
   new_ok (length (heap st)) (grown c) = true /\ no_relocate_throw xs) ->
  exists st',
    Vector_PushBack new_ok this (Ref (buffer_ (data_ t) .+ i)) st = Ok tt st' /\
    is_vector st' this (if length xs =? c then grown c else c) (xs ++ [x]).
Proof.
  intros Hv Ho Hx Hcp Hfull. apply is_vector_holds in Hv as (t' & Ht & Hh & <-).
  apply obj_lookup in Ho. rewrite Ho in Ht. injection Ht as <-.
  destruct st as [h o]. cbn [heap objs] in *. pose proof Hh as (Hsz & Hle & _).
  pose proof (lookup_lt_Some _ _ _ Ho) as Hlt.
  assert (length (xs ++ [x]) = size_ t + 1) as Hlen
    by (rewrite length_app; simpl; lia).
  rewrite PushBack_EmplaceBack.
  destruct (Nat.eqb_spec (length xs) (capacity_ (data_ t))) as [Hc|Hc].
  - destruct (Hfull Hc) as [Hok Hr]. rewrite <- Hc, <- Hsz in Hok.
    erewrite bind_ok.
    2:{ eapply EmplaceBack_own_realloc_ok; [done|done|lia|done..]. }
    eexists. split; [done|]. pose proof (grown_gt (size_ t)).
    replace (grown (capacity_ (data_ t))) with (grown (size_ t))
      by (f_equal; lia).
    apply is_vector_realloc; [done|lia|lia|lia].
  - erewrite bind_ok.
    2:{ eapply EmplaceBack_own_inplace_ok; [done|done|lia|done|done]. }
    eexists. split; [done|].
    eapply is_vector_inplace; [done|done|lia|lia].
Qed.

(** X25: [Erase] of the last element is [PopBack]: it moves no element,
    so it cannot throw, and leaves the state [PopBack] leaves. *)
Theorem Erase_last_is_PopBack st this c xs t :
  is_vector st this c xs -> obj st this = Some t -> xs <> [] ->
  exists st',
    Vector_Erase this (buffer_ (data_ t) .+ (length xs - 1)) st
    = Ok (buffer_ (data_ t) .+ (length xs - 1)) st' /\
    Vector_PopBack this st = Ok tt st'.
Proof.
  intros Hv Ho Hne. apply is_vector_holds in Hv as (t' & Ht & Hh & <-).
  apply obj_lookup in Ho. rewrite Ho in Ht. injection Ht as <-.
  destruct st as [h o]. cbn [heap objs] in *.
  destruct (last xs) as [z|] eqn:Hl; [|by apply last_None in Hl].
  apply last_Some in Hl as [ys ->].
  rewrite length_app. simpl. replace (length ys + 1 - 1) with (length ys) by lia.
  erewrite Erase_ok; [|done|done|by constructor].
  erewrite PopBack_ok by done. rewrite app_nil_r. eauto.
Qed.

End Further.

(** * The examples *)

(** C3, the input on which the code breaks it: a vector of two
    [std::unique_ptr<int>] with one free slot.  [Insert] of a third at the
    front works in place; it returns with the new element first and the
    former first element second, but the former last element is gone: the
    third slot holds a null pointer. *)
Theorem Insert_in_place_loses_last :
  exists p st',
    Vector_Insert_move (H := unique_ptr_element) plenty 0 (Ptr 1 0)
      (Val (Some 9%Z)) (one_vector [Some 1%Z; Some 2%Z] 3)
    = Ok p st' /\
    contents st' 0 = Some [Some 9%Z; Some 1%Z; None] /\
    contents st' 0 <> Some [Some 9%Z; Some 1%Z; Some 2%Z].
Proof. do 2 eexists. split; [reflexivity|]. split; [reflexivity|discriminate]. Qed.

(** The same [Insert] of an [int] that is an element of the vector
    itself: the reference is read after the shift, so the copy made is
    that of another element. *)
Example Insert_in_place_of_own_element :
  exists p st',
    Vector_Insert (H := int_element) plenty 0 (Ptr 1 0) (Ref (Ptr 1 2))
      (one_vector [1%Z; 2%Z; 3%Z] 4)
    = Ok p st' /\
    contents st' 0 = Some [2%Z; 1%Z; 2%Z; 3%Z].
Proof. do 2 eexists. split; reflexivity. Qed.

(** [Vector<int>(2^62)] asks [operator new] for no byte at all: such a
    size does not fit. *)
Example sized_request_wraps :
  byte_count (H := int_element) (N.to_nat (2 ^ 62)) = 0%N /\
  fits (H := int_element) (N.to_nat (2 ^ 62)) = false.
Proof.
  unfold fits, byte_count. rewrite N2Nat.id. split; reflexivity.
Qed.

(** [Insert(begin(), v[0])] with room left: the element at the position is
    destroyed before the new one is copied from it.  The argument is an
    element of the vector, not a value of its own. *)
Example Insert_in_place_of_element_at_position :
  wf (one_vector [1%Z; 2%Z; 3%Z] 4) = true /\
  pre (OpInsert 0 0 (Ref (Ptr 1 0))) (one_vector [1%Z; 2%Z; 3%Z] 4) = true /\
  by_value (T := Z) (OpInsert 0 0 (Ref (Ptr 1 0))) = false /\
  run (H := int_element) plenty (OpInsert 0 0 (Ref (Ptr 1 0)))
    (one_vector [1%Z; 2%Z; 3%Z] 4) = Undefined.
Proof. repeat split; reflexivity. Qed.

(** Copy assignment of [[7; 13]] into [[1]], whose capacity does not
    suffice, the copy of [13] throwing: both vectors are as they were. *)
Example copy_assign_longer_source_failure :
  exists st',
    Vector_copy_assign (H := fragile_element) plenty 0 1
      (two_vectors [1%Z] [7%Z; 13%Z]) = Throw st' /\
    objs st' = objs (two_vectors [1%Z] [7%Z; 13%Z]) /\
    contents st' 0 = Some [1%Z] /\ contents st' 1 = Some [7%Z; 13%Z].
Proof. eexists. repeat split; reflexivity. Qed.

(** C1, as stated, fails on move assignment: assigning [[2; 3]] into
    [[1]] leaves the source holding [[1]], with length and capacity 1. *)
Lemma move_assign_source_not_empty :
  exists st',
    Vector_move_assign 1 0 (two_vectors [2%Z; 3%Z] [1%Z]) = Ok tt st' /\
    contents st' 1 = Some [2%Z; 3%Z] /\
    Size st' 0 = Some 1 /\ Capacity st' 0 = Some 1 /\
    Size st' 0 <> Some 0.
Proof. eexists. repeat split; try reflexivity. discriminate. Qed.

(** C2, as stated, fails on move assignment: the source is left with the
    block and the capacity of the destination. *)
Lemma RawMemory_move_assign_source_not_null :
  snd (RawMemory_move_assign (mkRawMemory (Ptr 1 0) 4) (mkRawMemory (Ptr 2 0) 8))
  = mkRawMemory (Ptr 1 0) 4 /\
  snd (RawMemory_move_assign (mkRawMemory (Ptr 1 0) 4) (mkRawMemory (Ptr 2 0) 8))
  <> RawMemory_default.
Proof. split; [reflexivity|discriminate]. Qed.

(** The amended C1 at two vectors [[2; 3]] and [[1]]. *)
Lemma move_transfers_elements_witness :
  obj (two_vectors [2%Z; 3%Z] [1%Z]) 0
  = Some (mkVector (mkRawMemory (Ptr 1 0) 2) 2) /\
  (exists st',
      Vector_move_ctor 0 (two_vectors [2%Z; 3%Z] [1%Z]) = Ok 2 st' /\
      contents st' 2 = contents (two_vectors [2%Z; 3%Z] [1%Z]) 0 /\
      Size st' 0 = Some 0 /\ Capacity st' 0 = Some 0 /\
      contents st' 0 = Some []) /\
  (exists st',
      Vector_move_assign 1 0 (two_vectors [2%Z; 3%Z] [1%Z]) = Ok tt st' /\
      contents st' 1 = contents (two_vectors [2%Z; 3%Z] [1%Z]) 0 /\
      contents st' 0 = contents (two_vectors [2%Z; 3%Z] [1%Z]) 1 /\
      Size st' 0 = Size (two_vectors [2%Z; 3%Z] [1%Z]) 1 /\
      Capacity st' 0 = Capacity (two_vectors [2%Z; 3%Z] [1%Z]) 1).
Proof.
  split; [reflexivity|].
  destruct (move_transfers_elements (two_vectors [2%Z; 3%Z] [1%Z]) 0
              (mkVector (mkRawMemory (Ptr 1 0) 2) 2) eq_refl) as [Hc Ha].
  split; [exact Hc|].
  apply (Ha 1 (mkVector (mkRawMemory (Ptr 2 0) 1) 1)); [reflexivity|lia].
Defined.

(** C4 at [[1]] assigned from [[2; 3]]: the destination moves to a new
    block of two slots. *)
Lemma copy_assign_reallocating_witness :
  0 <> 1 /\
  is_vector (two_vectors [1%Z] [2%Z; 3%Z]) 0 1 [1%Z] /\
  is_vector (two_vectors [1%Z] [2%Z; 3%Z]) 1 2 [2%Z; 3%Z] /\
  1 < length [2%Z; 3%Z] /\
  exists st',
    Vector_copy_assign (H := int_element) plenty 0 1
      (two_vectors [1%Z] [2%Z; 3%Z]) = Ok tt st' /\
    length (heap st') = 3 /\
    is_vector st' 0 2 [2%Z; 3%Z] /\
    is_vector st' 1 2 [2%Z; 3%Z].
Proof.
  assert (is_vector (two_vectors [1%Z] [2%Z; 3%Z]) 0 1 [1%Z]) as Ha.
  { eexists. repeat split; reflexivity. }
  assert (is_vector (two_vectors [1%Z] [2%Z; 3%Z]) 1 2 [2%Z; 3%Z]) as Hb.
  { eexists. repeat split; reflexivity. }
  split; [lia|]. split; [exact Ha|]. split; [exact Hb|]. split; [simpl; lia|].
  destruct (copy_assign_reallocating (H := int_element) plenty
              (two_vectors [1%Z] [2%Z; 3%Z]) 0 1 1 [1%Z] 2 [2%Z; 3%Z])
    as [Hok _]; [lia|exact Ha|exact Hb|simpl; lia|].
  destruct Hok as (st' & Hrun & Hlen & _ & Hv & Hsrc);
    [reflexivity|repeat constructor|].
  exists st'. split; [exact Hrun|]. split; [exact Hlen|].
  split; [exact Hv|exact (Hsrc eq_refl)].
Defined.

(** C5 at [[1; 2; 3]] assigned from [[5; 5]]: the destination keeps its
    three slots and holds [[5; 5]]. *)
Lemma copy_assign_shrinking_witness :
  wf (two_vectors [1%Z; 2%Z; 3%Z] [5%Z; 5%Z]) = true /\
  0 <> 1 /\
  is_vector (two_vectors [1%Z; 2%Z; 3%Z] [5%Z; 5%Z]) 0 3 [1%Z; 2%Z; 3%Z] /\
  is_vector (two_vectors [1%Z; 2%Z; 3%Z] [5%Z; 5%Z]) 1 2 [5%Z; 5%Z] /\
  exists st',
    Vector_copy_assign (H := int_element) plenty 0 1
      (two_vectors [1%Z; 2%Z; 3%Z] [5%Z; 5%Z]) = Ok tt st' /\
    is_vector st' 0 3 [5%Z; 5%Z].
Proof.
  assert (is_vector (two_vectors [1%Z; 2%Z; 3%Z] [5%Z; 5%Z]) 0 3
            [1%Z; 2%Z; 3%Z]) as Ha.
  { eexists. repeat split; reflexivity. }
  assert (is_vector (two_vectors [1%Z; 2%Z; 3%Z] [5%Z; 5%Z]) 1 2
            [5%Z; 5%Z]) as Hb.
  { eexists. repeat split; reflexivity. }
  split; [reflexivity|]. split; [lia|]. split; [exact Ha|]. split; [exact Hb|].
  destruct (copy_assign_shrinking (H := int_element) plenty
              (two_vectors [1%Z; 2%Z; 3%Z] [5%Z; 5%Z]) 0 1 3 [1%Z; 2%Z; 3%Z]
              2 [5%Z; 5%Z])
    as (st' & Hrun & Hv & _);
    [reflexivity|lia|exact Ha|exact Hb|simpl; lia|repeat constructor|].
  exists st'. split; [exact Hrun|exact Hv].
Defined.


(** C8 at [[1; 2]] in a block of four slots and [Reserve(3)]. *)
Lemma Reserve_idempotent_witness :
  is_vector (one_vector [1%Z; 2%Z] 4) 0 4 [1%Z; 2%Z] /\
  Vector_Reserve (H := int_element) plenty 0 3 (one_vector [1%Z; 2%Z] 4)
  = Ok tt (one_vector [1%Z; 2%Z] 4).
Proof.
  assert (is_vector (one_vector [1%Z; 2%Z] 4) 0 4 [1%Z; 2%Z]) as Ha.
  { eexists. repeat split; reflexivity. }
  split; [exact Ha|].
  destruct (Reserve_idempotent (H := int_element) plenty
              (one_vector [1%Z; 2%Z] 4) 0 4 [1%Z; 2%Z] 3 Ha) as [Hnoop _].
  apply Hnoop. lia.
Defined.

(** C9 at [[1; 2]]: [PopBack] leaves [[1]]. *)
Lemma PopBack_spec_witness :
  is_vector (one_vector [1%Z; 2%Z] 4) 0 4 [1%Z; 2%Z] /\
  exists st',
    Vector_PopBack 0 (one_vector [1%Z; 2%Z] 4) = Ok tt st' /\
    is_vector st' 0 4 [1%Z].
Proof.
  assert (is_vector (one_vector [1%Z; 2%Z] 4) 0 4 [1%Z; 2%Z]) as Ha.
  { eexists. repeat split; reflexivity. }
  split; [exact Ha|].
  destruct (PopBack_spec (T := Z)
              (one_vector [1%Z; 2%Z] 4) 0 4 [1%Z; 2%Z] Ha) as [_ Hpop].
  apply Hpop. discriminate.
Defined.


(** What the amended C6 leaves out: an [Insert] in place whose copy of
    the new element throws after the shift returns with the slot at the
    position destroyed, and a live object past the end. *)
Example Insert_in_place_failure_breaks_invariant :
  exists st',
    run (H := fragile_element) plenty (OpInsert 0 0 (Val 13%Z))
      (one_vector [1%Z; 2%Z] 3) = Throw st' /\
    heap st' = [Some [None; Some 1%Z; Some 2%Z]] /\
    Size st' 0 = Some 2 /\
    wf st' = false.
Proof. eexists. repeat split; reflexivity. Qed.


(** [Resize(5)] of [[1; 2]], of capacity 2, asks for twenty bytes: the
    size fits, and the vector is valid afterwards. *)
Example Resize_beyond_capacity_keeps_invariant :
  sizes_fit (H := int_element) (OpResize 0 5) (one_vector [1%Z; 2%Z] 2) = true /\
  exists st',
    run (H := int_element) plenty (OpResize 0 5) (one_vector [1%Z; 2%Z] 2)
    = Ok tt st' /\
    wf st' = true /\ contents st' 0 = Some [1%Z; 2%Z; 0%Z; 0%Z; 0%Z].
Proof. split; [reflexivity|]. eexists. repeat split; reflexivity. Qed.

(** * The further properties at an input *)

(** X1 at [Vector<int>(3)]. *)
Lemma Vector_sized_spec_witness :
  fits (H := int_element) 3 = true /\
  exists st',
    Vector_sized (H := int_element) plenty 3 (one_vector [1%Z; 2%Z] 2) = Ok 1 st' /\
    is_vector st' 1 3 [0%Z; 0%Z; 0%Z] /\
    is_vector st' 0 2 [1%Z; 2%Z].
Proof.
  split; [reflexivity|].
  destruct (Vector_sized_spec (H := int_element) plenty (one_vector [1%Z; 2%Z] 2) 3)
    as (st' & Hrun & Hv & _ & Hold).
  { reflexivity. }
  { intros _. split; [reflexivity|discriminate]. }
  exists st'. split; [exact Hrun|]. split; [exact Hv|].
  apply Hold. eexists. repeat split; reflexivity.
Defined.

(** X2 at [Vector<int>(3)] with no memory left. *)
Lemma Vector_sized_failure_witness :
  exists st',
    Vector_sized (H := int_element) (fun _ _ => false) 3 (one_vector [1%Z; 2%Z] 2)
    = Throw st' /\
    objs st' = objs (one_vector [1%Z; 2%Z] 2) /\
    live_blocks (heap st') = 1.
Proof.
  destruct (Vector_sized_failure (H := int_element) (fun _ _ => false)
              (one_vector [1%Z; 2%Z] 2) 3)
    as (st' & Hrun & Ho & Hl & _); [lia|left; reflexivity|].
  exists st'. split; [exact Hrun|]. split; [exact Ho|exact Hl].
Defined.

(** X3 at the copy of [[1; 2]] held in four slots. *)
Lemma Vector_copy_ctor_spec_witness :
  is_vector (one_vector [1%Z; 2%Z] 4) 0 4 [1%Z; 2%Z] /\
  exists st',
    Vector_copy_ctor (H := int_element) plenty 0 (one_vector [1%Z; 2%Z] 4)
    = Ok 1 st' /\
    is_vector st' 1 2 [1%Z; 2%Z] /\
    is_vector st' 0 4 [1%Z; 2%Z].
Proof.
  assert (is_vector (one_vector [1%Z; 2%Z] 4) 0 4 [1%Z; 2%Z]) as Ha.
  { eexists. repeat split; reflexivity. }
  split; [exact Ha|].
  destruct (Vector_copy_ctor_spec (H := int_element) plenty
              (one_vector [1%Z; 2%Z] 4) 0 4 [1%Z; 2%Z] Ha)
    as (st' & Hrun & Hv & _ & Hold); [reflexivity|repeat constructor|].
  exists st'. split; [exact Hrun|]. split; [exact Hv|]. apply Hold. exact Ha.
Defined.

(** X4 at the copy of [[7; 13]], the copy of [13] throwing. *)
Lemma Vector_copy_ctor_failure_witness :
  is_vector (one_vector [7%Z; 13%Z] 2) 0 2 [7%Z; 13%Z] /\
  exists st',
    Vector_copy_ctor (H := fragile_element) plenty 0 (one_vector [7%Z; 13%Z] 2)
    = Throw st' /\
    objs st' = objs (one_vector [7%Z; 13%Z] 2) /\
    live_blocks (heap st') = 1.
Proof.
  assert (is_vector (one_vector [7%Z; 13%Z] 2) 0 2 [7%Z; 13%Z]) as Ha.
  { eexists. repeat split; reflexivity. }
  split; [exact Ha|].
  destruct (Vector_copy_ctor_failure (H := fragile_element) plenty
              (one_vector [7%Z; 13%Z] 2) 0 2 [7%Z; 13%Z] Ha)
    as (st' & Hrun & Ho & Hl & _).
  { discriminate. }
  { right. intros Hc. inversion Hc as [|? ? _ Hc']. inversion Hc' as [|? ? Hx _].
    discriminate Hx. }
  exists st'. split; [exact Hrun|]. split; [exact Ho|exact Hl].
Defined.

(** X5 at the destructor of [[1; 2]] beside [[3]]. *)
Lemma Vector_dtor_spec_witness :
  wf (two_vectors [1%Z; 2%Z] [3%Z]) = true /\
  is_vector (two_vectors [1%Z; 2%Z] [3%Z]) 0 2 [1%Z; 2%Z] /\
  exists st',
    Vector_dtor 0 (two_vectors [1%Z; 2%Z] [3%Z]) = Ok tt st' /\
    obj st' 0 = None /\
    live_blocks (heap st') + 1 = 2 /\
    is_vector st' 1 1 [3%Z].
Proof.
  assert (is_vector (two_vectors [1%Z; 2%Z] [3%Z]) 0 2 [1%Z; 2%Z]) as Ha.
  { eexists. repeat split; reflexivity. }
  split; [reflexivity|]. split; [exact Ha|].
  destruct (Vector_dtor_spec (two_vectors [1%Z; 2%Z] [3%Z]) 0 2 [1%Z; 2%Z]
              eq_refl Ha) as (st' & Hrun & Ho & Hl & _ & Hold).
  exists st'. split; [exact Hrun|]. split; [exact Ho|]. split; [exact Hl|].
  apply Hold; [lia|]. eexists. repeat split; reflexivity.
Defined.

(** X6 at [[1; 2]] moved from, then destroyed before the new vector. *)
Lemma move_ctor_then_dtors_witness :
  is_vector (one_vector [1%Z; 2%Z] 4) 0 4 [1%Z; 2%Z] /\
  exists st',
    (this <- Vector_move_ctor 0; Vector_dtor 0;; Vector_dtor this)
      (one_vector [1%Z; 2%Z] 4) = Ok tt st' /\
    live_blocks (heap st') + 1 = 1.
Proof.
  assert (is_vector (one_vector [1%Z; 2%Z] 4) 0 4 [1%Z; 2%Z]) as Ha.
  { eexists. repeat split; reflexivity. }
  split; [exact Ha|].
  destruct (move_ctor_then_dtors (one_vector [1%Z; 2%Z] 4) 0 4 [1%Z; 2%Z] Ha)
    as (st' & Hrun & _ & _ & Hl).
  exists st'. split; [exact Hrun|exact Hl].
Defined.

(** X7 at [RawMemory<int>(3)]. *)
Lemma RawMemory_ctor_dtor_witness :
  fits (H := int_element) 3 = true /\
  exists r st1 st',
    RawMemory_ctor plenty 3 (one_vector [1%Z; 2%Z] 2) = Ok r st1 /\
    capacity_ r = 3 /\
    RawMemory_dtor r st1 = Ok tt st' /\
    live_blocks (heap st') = 1.
Proof.
  split; [reflexivity|].
  destruct (RawMemory_ctor_dtor (H := int_element) plenty
              (one_vector [1%Z; 2%Z] 2) 3)
    as (r & st1 & st' & Hc & Hcap & _ & _ & Hd & _ & Hl & _);
    [reflexivity|reflexivity|].
  exists r, st1, st'. split; [exact Hc|]. split; [exact Hcap|].
  split; [exact Hd|exact Hl].
Defined.

(** X8 at [RawMemory<int>(3)]. *)
Lemma RawMemory_move_ctor_double_free_witness :
  (r <- RawMemory_ctor plenty 3;
   RawMemory_dtor (fst (RawMemory_move_ctor r));;
   RawMemory_dtor (snd (RawMemory_move_ctor r))) (one_vector [1%Z; 2%Z] 2)
  = Undefined.
Proof.
  apply (RawMemory_move_ctor_double_free plenty (one_vector [1%Z; 2%Z] 2) 3);
    [lia|reflexivity].
Defined.

(** X9 at [Reserve(5)] on the full vector [[1; 2]]. *)
Lemma Reserve_grows_witness :
  is_vector (one_vector [1%Z; 2%Z] 2) 0 2 [1%Z; 2%Z] /\
  fits (H := int_element) 5 = true /\
  exists st',
    Vector_Reserve (H := int_element) plenty 0 5 (one_vector [1%Z; 2%Z] 2)
    = Ok tt st' /\
    is_vector st' 0 5 [1%Z; 2%Z] /\
    live_blocks (heap st') = 1.
Proof.
  assert (is_vector (one_vector [1%Z; 2%Z] 2) 0 2 [1%Z; 2%Z]) as Ha.
  { eexists. repeat split; reflexivity. }
  split; [exact Ha|]. split; [reflexivity|].
  destruct (Reserve_grows (H := int_element) plenty (one_vector [1%Z; 2%Z] 2)
              0 2 [1%Z; 2%Z] 5 Ha)
    as (st' & Hrun & Hv & _ & Hl);
    [lia|reflexivity|reflexivity|repeat constructor|].
  exists st'. split; [exact Hrun|]. split; [exact Hv|exact Hl].
Defined.

(** X10 at [Resize(6)] on [[1; 2; 3]] in four slots. *)
Lemma Resize_spec_witness :
  is_vector (one_vector [1%Z; 2%Z; 3%Z] 4) 0 4 [1%Z; 2%Z; 3%Z] /\
  fits (H := int_element) 6 = true /\
  exists st',
    Vector_Resize (H := int_element) plenty 0 6 (one_vector [1%Z; 2%Z; 3%Z] 4)
    = Ok tt st' /\
    is_vector st' 0 6 [1%Z; 2%Z; 3%Z; 0%Z; 0%Z; 0%Z].
Proof.
  assert (is_vector (one_vector [1%Z; 2%Z; 3%Z] 4) 0 4 [1%Z; 2%Z; 3%Z]) as Ha.
  { eexists. repeat split; reflexivity. }
  split; [exact Ha|]. split; [reflexivity|].
  destruct (Resize_spec (H := int_element) plenty (one_vector [1%Z; 2%Z; 3%Z] 4)
              0 4 [1%Z; 2%Z; 3%Z] 6 Ha)
    as (st' & Hrun & Hv & _).
  { discriminate. }
  { intros _. split; [reflexivity|]. split; [reflexivity|repeat constructor]. }
  exists st'. split; [exact Hrun|exact Hv].
Defined.

(** X11 at [EmplaceBack(9)] on [[1; 2]] in four slots. *)
Lemma EmplaceBack_in_place_witness :
  is_vector (one_vector [1%Z; 2%Z] 4) 0 4 [1%Z; 2%Z] /\
  exists p st',
    Vector_EmplaceBack (H := int_element) plenty 0 (CopyArg (Val 9%Z))
      (one_vector [1%Z; 2%Z] 4) = Ok p st' /\
    is_vector st' 0 4 [1%Z; 2%Z; 9%Z] /\
    load p st' = Ok 9%Z st'.
Proof.
  assert (is_vector (one_vector [1%Z; 2%Z] 4) 0 4 [1%Z; 2%Z]) as Ha.
  { eexists. repeat split; reflexivity. }
  split; [exact Ha|].
  destruct (EmplaceBack_in_place (H := int_element) plenty
              (one_vector [1%Z; 2%Z] 4) 0 4 [1%Z; 2%Z] (CopyArg (Val 9%Z)) Ha)
    as (p & st' & Hrun & Hv & Hp & _); [simpl; lia|reflexivity|].
  exists p, st'. split; [exact Hrun|]. split; [exact Hv|exact Hp].
Defined.

(** X12 at [v[1]] for [[1; 2; 3]]. *)
Lemma Vector_index_spec_witness :
  is_vector (one_vector [1%Z; 2%Z; 3%Z] 4) 0 4 [1%Z; 2%Z; 3%Z] /\
  Vector_read 0 1 (one_vector [1%Z; 2%Z; 3%Z] 4)
  = Ok 2%Z (one_vector [1%Z; 2%Z; 3%Z] 4).
Proof.
  assert (is_vector (one_vector [1%Z; 2%Z; 3%Z] 4) 0 4 [1%Z; 2%Z; 3%Z]) as Ha.
  { eexists. repeat split; reflexivity. }
  split; [exact Ha|].
  exact (Vector_index_spec (one_vector [1%Z; 2%Z; 3%Z] 4) 0 4 [1%Z; 2%Z; 3%Z] 1 Ha).
Defined.

(** X13 at [EmplaceBack(9)] on the full vector [[1; 2]]. *)
Lemma EmplaceBack_returns_back_witness :
  is_vector (one_vector [1%Z; 2%Z] 2) 0 2 [1%Z; 2%Z] /\
  exists p st',
    Vector_EmplaceBack (H := int_element) plenty 0 (CopyArg (Val 9%Z))
      (one_vector [1%Z; 2%Z] 2) = Ok p st' /\
    Vector_index 0 2 st' = Ok p st' /\
    Vector_read 0 2 st' = Ok 9%Z st'.
Proof.
  assert (is_vector (one_vector [1%Z; 2%Z] 2) 0 2 [1%Z; 2%Z]) as Ha.
  { eexists. repeat split; reflexivity. }
  split; [exact Ha|].
  apply (EmplaceBack_returns_back (H := int_element) plenty
           (one_vector [1%Z; 2%Z] 2) 0 2 [1%Z; 2%Z] (CopyArg (Val 9%Z)) 9%Z Ha);
    [reflexivity|reflexivity|].
  intros _. split; [reflexivity|repeat constructor].
Defined.

(** X14 at [PushBack(9)], [PopBack()] on the full vector [[1; 2]]. *)
Lemma PushBack_PopBack_witness :
  is_vector (one_vector [1%Z; 2%Z] 2) 0 2 [1%Z; 2%Z] /\
  exists st',
    (Vector_PushBack (H := int_element) plenty 0 (Val 9%Z);; Vector_PopBack 0)
      (one_vector [1%Z; 2%Z] 2) = Ok tt st' /\
    is_vector st' 0 4 [1%Z; 2%Z].
Proof.
  assert (is_vector (one_vector [1%Z; 2%Z] 2) 0 2 [1%Z; 2%Z]) as Ha.
  { eexists. repeat split; reflexivity. }
  split; [exact Ha|].
  apply (PushBack_PopBack (H := int_element) plenty
           (one_vector [1%Z; 2%Z] 2) 0 2 [1%Z; 2%Z] 9%Z Ha); [reflexivity|].
  intros _. split; [reflexivity|repeat constructor].
Defined.

(** X15 at [Erase] at index 1 of [[1; 2; 3]]. *)
Lemma Erase_spec_witness :
  is_vector (one_vector [1%Z; 2%Z; 3%Z] 4) 0 4 [1%Z; 2%Z; 3%Z] /\
  exists st',
    Vector_Erase (H := int_element) 0 (Ptr 1 1) (one_vector [1%Z; 2%Z; 3%Z] 4)
    = Ok (Ptr 1 1) st' /\
    is_vector st' 0 4 [1%Z; 3%Z].
Proof.
  assert (is_vector (one_vector [1%Z; 2%Z; 3%Z] 4) 0 4 [1%Z; 2%Z; 3%Z]) as Ha.
  { eexists. repeat split; reflexivity. }
  split; [exact Ha|].
  destruct (Erase_spec (H := int_element) (one_vector [1%Z; 2%Z; 3%Z] 4) 0 4
              [1%Z; 2%Z; 3%Z] (mkVector (mkRawMemory (Ptr 1 0) 4) 3) 1 Ha)
    as (st' & Hrun & Hv & _); [reflexivity|simpl; lia|repeat constructor|].
  exists st'. split; [exact Hrun|exact Hv].
Defined.

(** X16 at [Emplace] and [Erase] at index 1 of the full vector
    [[1; 2; 3]]. *)
Lemma Emplace_Erase_round_trip_witness :
  is_vector (one_vector [1%Z; 2%Z; 3%Z] 3) 0 3 [1%Z; 2%Z; 3%Z] /\
  exists st',
    (run (H := int_element) plenty (OpEmplace 0 1 (CopyArg (Val 9%Z)));;
     run (H := int_element) plenty (OpErase 0 1))
      (one_vector [1%Z; 2%Z; 3%Z] 3) = Ok tt st' /\
    is_vector st' 0 6 [1%Z; 2%Z; 3%Z].
Proof.
  assert (is_vector (one_vector [1%Z; 2%Z; 3%Z] 3) 0 3 [1%Z; 2%Z; 3%Z]) as Ha.
  { eexists. repeat split; reflexivity. }
  split; [exact Ha|].
  apply (Emplace_Erase_round_trip (H := int_element) plenty
           (one_vector [1%Z; 2%Z; 3%Z] 3) 0 3 [1%Z; 2%Z; 3%Z] 1
           (CopyArg (Val 9%Z)) 9%Z Ha);
    [reflexivity|simpl; lia|reflexivity|reflexivity|reflexivity
    |repeat constructor|repeat constructor].
Defined.

(** X17 at [[1]] and [[2; 3]]. *)
Lemma Swap_involutive_witness :
  exists st1,
    Vector_Swap 0 1 (two_vectors [1%Z] [2%Z; 3%Z]) = Ok tt st1 /\
    contents st1 0 = Some [2%Z; 3%Z] /\
    Vector_Swap 0 1 st1 = Ok tt (two_vectors [1%Z] [2%Z; 3%Z]).
Proof.
  destruct (Swap_involutive (two_vectors [1%Z] [2%Z; 3%Z]) 0 1
              (mkVector (mkRawMemory (Ptr 1 0) 1) 1)
              (mkVector (mkRawMemory (Ptr 2 0) 2) 2) eq_refl eq_refl)
    as (st1 & Hrun & Hh & Ha & _ & _ & Hback).
  exists st1. split; [exact Hrun|]. split; [|exact Hback].
  unfold contents. rewrite Ha. simpl. unfold elements. rewrite Hh. reflexivity.
Defined.

(** X18 at [[5; 5]] assigned into [[1; 2]]. *)
Lemma copy_assign_within_capacity_witness :
  wf (two_vectors [1%Z; 2%Z] [5%Z; 5%Z]) = true /\
  is_vector (two_vectors [1%Z; 2%Z] [5%Z; 5%Z]) 0 2 [1%Z; 2%Z] /\
  is_vector (two_vectors [1%Z; 2%Z] [5%Z; 5%Z]) 1 2 [5%Z; 5%Z] /\
  exists st',
    Vector_copy_assign (H := int_element) plenty 0 1
      (two_vectors [1%Z; 2%Z] [5%Z; 5%Z]) = Ok tt st' /\
    is_vector st' 0 2 [5%Z; 5%Z] /\ is_vector st' 1 2 [5%Z; 5%Z].
Proof.
  assert (is_vector (two_vectors [1%Z; 2%Z] [5%Z; 5%Z]) 0 2 [1%Z; 2%Z]) as Ha.
  { eexists. repeat split; reflexivity. }
  assert (is_vector (two_vectors [1%Z; 2%Z] [5%Z; 5%Z]) 1 2 [5%Z; 5%Z]) as Hb.
  { eexists. repeat split; reflexivity. }
  split; [reflexivity|]. split; [exact Ha|]. split; [exact Hb|].
  destruct (copy_assign_within_capacity (H := int_element) plenty
              (two_vectors [1%Z; 2%Z] [5%Z; 5%Z]) 0 1 2 [1%Z; 2%Z] 2 [5%Z; 5%Z]
              eq_refl ltac:(lia) Ha Hb)
    as (st' & Hrun & Hv & Hr & _); [simpl; lia|simpl; lia|repeat constructor|].
  exists st'. split; [exact Hrun|]. split; [exact Hv|exact Hr].
Defined.

(** X19 at [Resize(5)] on the full vector [[1; 2]]. *)
Lemma no_leak_preserved_witness :
  wf (one_vector [1%Z; 2%Z] 2) = true /\
  no_leak (one_vector [1%Z; 2%Z] 2) /\
  pre (OpResize 0 5) (one_vector [1%Z; 2%Z] 2) = true /\
  by_value (T := Z) (OpResize 0 5) = true /\
  sizes_fit (H := int_element) (OpResize 0 5) (one_vector [1%Z; 2%Z] 2) = true /\
  match run (H := int_element) plenty (OpResize 0 5) (one_vector [1%Z; 2%Z] 2)
  with
  | Ok _ st' | Throw st' => no_leak st'
  | Undefined => False
  end.
Proof.
  do 5 (split; [reflexivity|]).
  apply (no_leak_preserved (H := int_element) plenty (OpResize 0 5)
           (one_vector [1%Z; 2%Z] 2)); reflexivity.
Defined.

(** X20 at [PushBack(9)] on [[1]] beside [[2; 3]]. *)
Lemma others_kept_witness :
  pre (OpPushBack 0 (Val 9%Z)) (two_vectors [1%Z] [2%Z; 3%Z]) = true /\
  by_value (OpPushBack 0 (Val 9%Z)) = true /\
  match run (H := int_element) plenty (OpPushBack 0 (Val 9%Z))
          (two_vectors [1%Z] [2%Z; 3%Z]) with
  | Ok _ st' | Throw st' =>
      obj st' 1 = Some (mkVector (mkRawMemory (Ptr 2 0) 2) 2) /\
      elements st' (mkVector (mkRawMemory (Ptr 2 0) 2) 2)
      = elements (two_vectors [1%Z] [2%Z; 3%Z])
                 (mkVector (mkRawMemory (Ptr 2 0) 2) 2)
  | Undefined => False
  end.
Proof.
  do 2 (split; [reflexivity|]).
  apply (others_kept (H := int_element) plenty (OpPushBack 0 (Val 9%Z))
           (two_vectors [1%Z] [2%Z; 3%Z]) 1
           (mkVector (mkRawMemory (Ptr 2 0) 2) 2));
    [reflexivity|reflexivity|reflexivity|reflexivity| |reflexivity].
  intros Hin. apply list_elem_of_In in Hin. simpl in Hin. lia.
Defined.


(** X22 at [Emplace(begin(), 9)] on [[1; 2]] in four slots. *)
Lemma Emplace_in_place_spec_witness :
  is_vector (one_vector [1%Z; 2%Z] 4) 0 4 [1%Z; 2%Z] /\
  exists st',
    Vector_Emplace (H := int_element) plenty 0 (Ptr 1 0) (CopyArg (Val 9%Z))
      (one_vector [1%Z; 2%Z] 4) = Ok (Ptr 1 0) st' /\
    is_vector st' 0 4 [9%Z; 1%Z; 2%Z].
Proof.
  assert (is_vector (one_vector [1%Z; 2%Z] 4) 0 4 [1%Z; 2%Z]) as Ha.
  { eexists. repeat split; reflexivity. }
  split; [exact Ha|].
  destruct (Emplace_in_place_spec (H := int_element) plenty
              (one_vector [1%Z; 2%Z] 4) 0 4 [1%Z; 2%Z]
              (mkVector (mkRawMemory (Ptr 1 0) 4) 2) (CopyArg (Val 9%Z)) 9%Z 0 Ha)
    as (st' & Hrun & Hv & _);
    [reflexivity|simpl; lia|simpl; lia|reflexivity|reflexivity
    |repeat constructor|repeat constructor|].
  exists st'. split; [exact Hrun|exact Hv].
Defined.

(** X24 at [v.PushBack(v[0])] on the full vector [[1; 2]]. *)
Lemma PushBack_own_element_witness :
  is_vector (one_vector [1%Z; 2%Z] 2) 0 2 [1%Z; 2%Z] /\
  exists st',
    Vector_PushBack (H := int_element) plenty 0 (Ref (Ptr 1 0))
      (one_vector [1%Z; 2%Z] 2) = Ok tt st' /\
    is_vector st' 0 4 [1%Z; 2%Z; 1%Z].
Proof.
  assert (is_vector (one_vector [1%Z; 2%Z] 2) 0 2 [1%Z; 2%Z]) as Ha.
  { eexists. repeat split; reflexivity. }
  split; [exact Ha|].
  apply (PushBack_own_element (H := int_element) plenty
           (one_vector [1%Z; 2%Z] 2) 0 2 [1%Z; 2%Z]
           (mkVector (mkRawMemory (Ptr 1 0) 2) 2) 0 1%Z Ha);
    [reflexivity|reflexivity|reflexivity|].
  intros _. split; [reflexivity|repeat constructor].
Defined.

(** X25 at [Erase] of the last element of [[1; 2; 3]]. *)
Lemma Erase_last_is_PopBack_witness :
  is_vector (one_vector [1%Z; 2%Z; 3%Z] 4) 0 4 [1%Z; 2%Z; 3%Z] /\
  exists st',
    Vector_Erase (H := int_element) 0 (Ptr 1 2) (one_vector [1%Z; 2%Z; 3%Z] 4)
    = Ok (Ptr 1 2) st' /\
    Vector_PopBack 0 (one_vector [1%Z; 2%Z; 3%Z] 4) = Ok tt st'.
Proof.
  assert (is_vector (one_vector [1%Z; 2%Z; 3%Z] 4) 0 4 [1%Z; 2%Z; 3%Z]) as Ha.
  { eexists. repeat split; reflexivity. }
  split; [exact Ha|].
  apply (Erase_last_is_PopBack (H := int_element)
           (one_vector [1%Z; 2%Z; 3%Z] 4) 0 4 [1%Z; 2%Z; 3%Z]
           (mkVector (mkRawMemory (Ptr 1 0) 4) 3) Ha); [reflexivity|discriminate].
Defined.
